(** * QDT: in-memory device trees (util/qdt.c, include/qemu/qdt.h)

    A shallow embedding of QEMU's QDT module and the verification of its
    specification.

    Representation conventions.
    - A [const gchar *] argument or field is represented by the [string] of
      the characters that precede its terminating NUL.
    - A [(pointer, length)] pair designating raw memory is represented by the
      list of the [length] bytes found there; a byte is a [Z] in [0, 256).
    - Nodes live in a heap.  A [QDTNode *] is an index into the heap, the
      NULL pointer is [None].  Nodes are never freed by this module, so
      [g_new0] is a bump allocator.
    - A QTAILQ is the list of its elements, head first. *)

From Stdlib Require Import ZArith Lia List String Ascii Bool.
From stdpp Require Import base tactics option list strings relations.
From Equations Require Import Equations.

Local Open Scope string_scope.
Local Open Scope list_scope.
Local Open Scope Z_scope.

(** ** Outcomes of a call *)

Inductive result (A : Type) : Type :=
| Ret (a : A)   (* the call returns *)
| Abort         (* a [g_assert] / [assert] fails *)
| Wild.         (* a pointer that is not a live node is dereferenced *)
Arguments Ret {A} a.
Arguments Abort {A}.
Arguments Wild {A}.

Definition bind {A B} (m : result A) (k : A -> result B) : result B :=
  match m with
  | Ret a => k a
  | Abort => Abort
  | Wild => Wild
  end.

Declare Scope qdt_scope.
Delimit Scope qdt_scope with qdt.
Notation "'do' x <- m ; k" := (bind m (fun x => k))
  (at level 10, x pattern, m at level 100, k at level 200) : qdt_scope.
Local Open Scope qdt_scope.

Definition g_assert (b : bool) : result unit :=
  if b then Ret tt else Abort.

(** ** The C library on strings *)

Module Libc.

Definition slash : ascii := "/"%char.

Definition strlen (s : string) : nat := String.length s.

(** [strchr s c]: offset of the first [c] in [s], [None] for NULL.
    Only called with [c <> NUL]. *)
Fixpoint strchr (s : string) (c : ascii) : option nat :=
  match s with
  | EmptyString => None
  | String a s' =>
      if Ascii.eqb a c then Some 0%nat
      else match strchr s' c with
           | Some k => Some (S k)
           | None => None
           end
  end.

(** [memchr s c n]: the same search, bounded to the first [n] bytes.
    Every call has [n <= strlen s]. *)
Fixpoint memchr (s : string) (c : ascii) (n : nat) : option nat :=
  match n, s with
  | S n', String a s' =>
      if Ascii.eqb a c then Some 0%nat
      else match memchr s' c n' with
           | Some k => Some (S k)
           | None => None
           end
  | _, _ => None
  end.

Definition uchar (a : ascii) : Z := Z.of_N (N_of_ascii a).

(** [memcmp a b n]: sign-carrying difference of the first bytes that
    differ among the first [n]; the terminator reads as 0. *)
Fixpoint memcmp (a b : string) (n : nat) : Z :=
  match n with
  | O => 0
  | S n' =>
      match a, b with
      | String x a', String y b' =>
          if Ascii.eqb x y then memcmp a' b' n' else uchar x - uchar y
      | String x _, EmptyString => uchar x
      | EmptyString, String y _ => - uchar y
      | EmptyString, EmptyString => 0
      end
  end.

(** [strcmp a b == 0] *)
Definition strcmp_eq0 (a b : string) : bool := String.eqb a b.

(** [p + k] for a [const gchar *p] *)
Fixpoint advance (k : nat) (s : string) : string :=
  match k, s with
  | S k', String _ s' => advance k' s'
  | _, _ => s
  end.

Fixpoint prefix (k : nat) (s : string) : string :=
  match k, s with
  | S k', String a s' => String a (prefix k' s')
  | _, _ => EmptyString
  end.

Definition g_strdup (s : string) : string := s.

(** the [strlen s + 1] bytes of a string, terminator included *)
Fixpoint bytes_with_nul (s : string) : list Z :=
  match s with
  | EmptyString => [0]
  | String a s' => uchar a :: bytes_with_nul s'
  end.

End Libc.
Import Libc.

(** ** Data model (include/qemu/qdt.h) *)

Abbreviation ptr := nat.

Record QDTProperty : Type := mkProp {
  prop_name : string;
  val : list Z;
}.

Definition len (p : QDTProperty) : nat := length (val p).

Record QDTNode : Type := mkNode {
  name : string;
  parent : option ptr;
  properties : list QDTProperty;
  children : list ptr;
}.

Abbreviation heap := (list QDTNode).

Definition deref (h : heap) (p : ptr) : result QDTNode :=
  match h !! p with
  | Some n => Ret n
  | None => Wild
  end.

(** field stores through a node pointer *)
Definition set_name (s : string) (n : QDTNode) : QDTNode :=
  mkNode s (parent n) (properties n) (children n).
Definition set_parent (p : option ptr) (n : QDTNode) : QDTNode :=
  mkNode (name n) p (properties n) (children n).
Definition set_properties (ps : list QDTProperty) (n : QDTNode) : QDTNode :=
  mkNode (name n) (parent n) ps (children n).
Definition set_children (cs : list ptr) (n : QDTNode) : QDTNode :=
  mkNode (name n) (parent n) (properties n) cs.

Definition store (h : heap) (p : ptr) (f : QDTNode -> QDTNode) : result heap :=
  match h !! p with
  | Some n => Ret (<[p := f n]> h)
  | None => Wild
  end.

(** [g_new0 (QDTNode, 1)]: a fresh, zero-filled node *)
Definition g_new0 (h : heap) : ptr * heap :=
  (length h, h ++ [mkNode "" None [] []]).

(** ** Node functions *)

Definition qdt_new_node (h : heap) (nm : string) : result (ptr * heap) :=
  let '(node, h) := g_new0 h in
  do _ <- g_assert (negb (bool_decide (is_Some (strchr nm slash))));
  do h <- store h node (set_name (g_strdup nm));
  do h <- store h node (set_properties []);
  do h <- store h node (set_children []);
  Ret (node, h).

(** the QTAILQ_FOREACH of [get_subnode] *)
Fixpoint get_subnode_loop (h : heap) (cs : list ptr) (nm : string)
    (namelen : nat) : result (option ptr) :=
  match cs with
  | [] => Ret None
  | child :: cs' =>
      do c <- deref h child;
      if Nat.eqb (strlen (name c)) namelen
         && Z.eqb (memcmp (name c) nm namelen) 0
      then Ret (Some child)
      else get_subnode_loop h cs' nm namelen
  end.

Definition get_subnode (h : heap) (parent_ : ptr) (nm : string)
    (namelen : nat) : result (option ptr) :=
  do _ <- g_assert (negb (bool_decide (is_Some (memchr nm slash namelen))));
  do p <- deref h parent_;
  get_subnode_loop h (children p) nm namelen.

(** keeps the equation of a scrutinee in scope *)
Definition inspect {A : Type} (x : A) : {y : A | x = y} := exist _ x eq_refl.

Equations? qdt_get_node_relative (h : heap) (node : ptr) (path : string)
  : result (option ptr) by wf (String.length path) lt :=
qdt_get_node_relative h node path with inspect (strchr path slash) := {
  | exist _ (Some k) Hs =>
      (* seglen = slash - path *)
      match get_subnode h node path k with
      | Ret (Some n) => qdt_get_node_relative h n (advance (k + 1) path)
      | r => r
      end
  | exist _ None Hs =>
      (* seglen = strlen (path); the loop ends after this lookup *)
      get_subnode h node path (strlen path)
  }.
Proof.
  clear qdt_get_node_relative. revert k Hs.
  induction path as [|a s IH]; simpl; intros k; [discriminate|].
  destruct (Ascii.eqb a slash); [intros [= <-]; simpl; lia|].
  destruct (strchr s slash) as [j|]; [|discriminate].
  intros [= <-]. specialize (IH j eq_refl). simpl. lia.
Qed.

Definition qdt_get_node (h : heap) (root : ptr) (path : string)
  : result (option ptr) :=
  do r <- deref h root;
  do _ <- g_assert (negb (bool_decide (is_Some (parent r))));
  do _ <- g_assert (match path with
                    | String c _ => Ascii.eqb c slash
                    | EmptyString => false
                    end);
  qdt_get_node_relative h root (advance 1 path).

Definition qdt_add_subnode (h : heap) (parent_ : ptr) (nm : string)
  : result (ptr * heap) :=
  do (child, h') <- qdt_new_node h nm;
  do h' <- store h' child (set_parent (Some parent_));
  (* [parent_] was handed out before this call: it is read in the heap the
     call started from, which the allocation of [child] left untouched *)
  do p <- deref h parent_;
  do h' <- store h' parent_ (set_children (children p ++ [child]));
  Ret (child, h').

Definition qdt_new_tree (h : heap) : result (ptr * heap) :=
  qdt_new_node h "".

(** ** Property functions *)

(** the QTAILQ_FOREACH of [getprop_]: position of the first property called
    [nm], which stands for the [QDTProperty *] the source returns *)
Fixpoint getprop_loop (ps : list QDTProperty) (nm : string) : option nat :=
  match ps with
  | [] => None
  | prop :: ps' =>
      if strcmp_eq0 (prop_name prop) nm then Some 0%nat
      else match getprop_loop ps' nm with
           | Some i => Some (S i)
           | None => None
           end
  end.

Definition getprop_ (h : heap) (node : ptr) (nm : string)
  : result (option nat) :=
  do n <- deref h node;
  Ret (getprop_loop (properties n) nm).

(** the property [getprop_] points at is handed back by value *)
Definition qdt_getprop (h : heap) (node : ptr) (nm : string)
  : result (option QDTProperty) :=
  do n <- deref h node;
  do i <- getprop_ h node nm;
  Ret (match i with
       | Some i => properties n !! i
       | None => None
       end).

Definition qdt_delprop (h : heap) (node : ptr) (nm : string) : result heap :=
  do prop <- getprop_ h node nm;
  match prop with
  | Some i =>
      do n <- deref h node;
      store h node (set_properties (delete i (properties n)))
  | None => Ret h
  end.

Definition qdt_setprop (h : heap) (node : ptr) (nm : string) (v : list Z)
  : result (QDTProperty * heap) :=
  do h <- qdt_delprop h node nm;
  let prop := mkProp (g_strdup nm) v in
  do n <- deref h node;
  do h <- store h node (set_properties (properties n ++ [prop]));
  Ret (prop, h).

Definition qdt_setprop_string (h : heap) (node : ptr) (nm : string)
    (v : string) : result (QDTProperty * heap) :=
  qdt_setprop h node nm (bytes_with_nul v).

(** *** Integers in memory *)

(** byte [i] of [x], byte 0 being the least significant *)
Definition byte_of (x : Z) (i : Z) : Z := Z.land (Z.shiftr x (8 * i)) 255.

(** conversion to [uint32_t] *)
Definition uint32_t (x : Z) : Z := x mod 2 ^ 32.

Section Host.

(** byte order of the machine the code runs on *)
Variable host_big_endian : bool.

(** the bytes of a [uint32_t] / [uint64_t] object, lowest address first *)
Definition mem_u32 (x : Z) : list Z :=
  let le := [byte_of x 0; byte_of x 1; byte_of x 2; byte_of x 3] in
  if host_big_endian then rev le else le.

Definition mem_u64 (x : Z) : list Z :=
  let le := [byte_of x 0; byte_of x 1; byte_of x 2; byte_of x 3;
             byte_of x 4; byte_of x 5; byte_of x 6; byte_of x 7] in
  if host_big_endian then rev le else le.

(** reversal of the bytes of a 32-bit and of a 64-bit word *)
Definition bswap32 (x : Z) : Z :=
  Z.lor (Z.shiftl (Z.land x 255) 24)
    (Z.lor (Z.shiftl (Z.land x 65280) 8)
       (Z.lor (Z.land (Z.shiftr x 8) 65280)
          (Z.land (Z.shiftr x 24) 255))).

Definition bswap64 (x : Z) : Z :=
  Z.lor (Z.shiftl (bswap32 (Z.land x 4294967295)) 32)
        (bswap32 (Z.land (Z.shiftr x 32) 4294967295)).

(** Modelled from the spec: [cpu_to_fdt32] and [cpu_to_fdt64] come from
    libfdt_env.h, which is not under src/.  The spec wants integers stored
    big-endian on every host, which is libfdt's contract: the identity on
    a big-endian host, a byte swap ([bswap32], [bswap64] above) on a
    little-endian one. *)
Definition cpu_to_fdt32 (x : Z) : Z :=
  if host_big_endian then x else bswap32 x.

Definition cpu_to_fdt64 (x : Z) : Z :=
  if host_big_endian then x else bswap64 x.

Definition qdt_setprop_cells_ (h : heap) (node : ptr) (nm : string)
    (v : list Z) : result (QDTProperty * heap) :=
  let swapval := map cpu_to_fdt32 v in
  qdt_setprop h node nm (flat_map mem_u32 swapval).

Definition qdt_setprop_u64s_ (h : heap) (node : ptr) (nm : string)
    (v : list Z) : result (QDTProperty * heap) :=
  let swapval := map cpu_to_fdt64 v in
  qdt_setprop h node nm (flat_map mem_u64 swapval).

(** the variadic macros of qdt.h collect their arguments in an array *)
Definition qdt_setprop_bytes := qdt_setprop.
Definition qdt_setprop_cells := qdt_setprop_cells_.
Definition qdt_setprop_u64s := qdt_setprop_u64s_.

Definition qdt_set_phandle (h : heap) (node : ptr) (phandle : Z)
  : result heap :=
  (* the parameter is a [uint32_t]: the argument is converted on entry *)
  let phandle := uint32_t phandle in
  do _ <- g_assert (negb (Z.eqb phandle 0)
                    && negb (Z.eqb phandle (uint32_t (-1))));
  do (_, h) <- qdt_setprop_cells h node "linux,phandle" [phandle];
  do (_, h) <- qdt_setprop_cells h node "phandle" [phandle];
  Ret h.

End Host.

(** ** Whole tree functions *)

(** libfdt's sequential-write interface, an external library.  [fdt] is the
    content of the output buffer, [g_malloc0 n] the zero-filled buffer of [n]
    bytes the encoder starts from; every function returns its [int] status
    with the new content, a negative status reporting failure. *)
Class Libfdt (fdt : Type) : Type := {
  g_malloc0 : Z -> fdt;
  fdt_create : fdt -> Z -> Z * fdt;
  fdt_finish_reservemap : fdt -> Z * fdt;
  fdt_begin_node : fdt -> string -> Z * fdt;
  fdt_property : fdt -> string -> list Z -> nat -> Z * fdt;
  fdt_end_node : fdt -> Z * fdt;
  fdt_finish : fdt -> Z * fdt;
  fdt_strerror : Z -> string;
}.

Record Error : Type := mkError { error_get_pretty : string }.

(** [error_setg (errp, "Error flattening device tree: <step>(): %s",
    fdt_strerror (ret))] *)
Definition error_setg `{Libfdt fdt} (step : string) (ret : Z) : Error :=
  mkError ("Error flattening device tree: " +:+ step +:+ "(): "
           +:+ fdt_strerror ret).

Section Flatten.

Context {fdt : Type} `{Libfdt fdt}.

(** What a traversal step leaves behind: [None] when the recursion budget
    of the model is exhausted, otherwise the buffer and the [Error *] that
    was stored through [errp], if any. *)
Definition flat : Type := option (result (fdt * option Error)).

(** go on only if the previous step returned without setting an error *)
Definition and_then (r : flat) (k : fdt -> flat) : flat :=
  match r with
  | Some (Ret (b, None)) => k b
  | _ => r
  end.

Fixpoint flatten_properties (b : fdt) (ps : list QDTProperty)
  : fdt * option Error :=
  match ps with
  | [] => (b, None)
  | prop :: ps' =>
      let '(ret, b) := fdt_property b (prop_name prop) (val prop) (len prop) in
      if ret <? 0 then (b, Some (error_setg "fdt_property" ret))
      else flatten_properties b ps'
  end.

Fixpoint flatten_children (rec : fdt -> ptr -> flat) (b : fdt)
    (cs : list ptr) : flat :=
  match cs with
  | [] => Some (Ret (b, None))
  | subnode :: cs' =>
      and_then (rec b subnode) (fun b => flatten_children rec b cs')
  end.

Fixpoint qdt_flatten_node (fuel : nat) (h : heap) (b : fdt) (node : ptr)
  : flat :=
  match fuel with
  | O => None
  | S fuel =>
      match deref h node with
      | Ret n =>
          let '(ret, b) := fdt_begin_node b (name n) in
          if ret <? 0 then
            Some (Ret (b, Some (error_setg "fdt_begin_node" ret)))
          else
            and_then (Some (Ret (flatten_properties b (properties n))))
              (fun b =>
            and_then (flatten_children (qdt_flatten_node fuel h) b
                        (children n))
              (fun b =>
            let '(ret, b) := fdt_end_node b in
            if ret <? 0 then
              Some (Ret (b, Some (error_setg "fdt_end_node" ret)))
            else Some (Ret (b, None))))
      | Abort => Some Abort
      | Wild => Some Wild
      end
  end.

(** What [qdt_flatten] hands back: the returned pointer ([None] for NULL,
    otherwise the buffer), the error stored through [errp], and whether
    the buffer was released with [g_free]. *)
Record flattened : Type := mkFlattened {
  returned : option fdt;
  errp : option Error;
  freed : bool;
}.

Definition fail (e : Error) : flattened := mkFlattened None (Some e) true.

Definition qdt_flatten (fuel : nat) (h : heap) (root : ptr) (bufsize : Z)
  : option (result flattened) :=
  let b := g_malloc0 bufsize in
  match deref h root with
  | Ret r =>
      if bool_decide (is_Some (parent r)) then Some Abort else
      let '(ret, b) := fdt_create b bufsize in
      if ret <? 0 then Some (Ret (fail (error_setg "fdt_create" ret))) else
      let '(ret, b) := fdt_finish_reservemap b in
      if ret <? 0 then
        Some (Ret (fail (error_setg "fdt_finish_reservemap" ret)))
      else
      match qdt_flatten_node fuel h b root with
      | Some (Ret (b, None)) =>
          let '(ret, b) := fdt_finish b in
          if ret <? 0 then Some (Ret (fail (error_setg "fdt_finish" ret)))
          else Some (Ret (mkFlattened (Some b) None false))
      | Some (Ret (_, Some local_err)) => Some (Ret (fail local_err))
      | Some Abort => Some Abort
      | Some Wild => Some Wild
      | None => None
      end
  | Abort => Some Abort
  | Wild => Some Wild
  end.

End Flatten.

(** * Notions used to state the specification *)

(** ** Programs over the API *)

Inductive call : Type :=
| NewNode (nm : string)
| AddSubnode (parent_ : ptr) (nm : string)
| SetProp (node : ptr) (nm : string) (v : list Z)
| SetPropString (node : ptr) (nm : string) (v : string)
| SetPropCells (node : ptr) (nm : string) (v : list Z)
| SetPropU64s (node : ptr) (nm : string) (v : list Z)
| SetPhandle (node : ptr) (phandle : Z)
| DelProp (node : ptr) (nm : string).

Definition exec (be : bool) (c : call) (h : heap) : result heap :=
  match c with
  | NewNode nm => do (_, h) <- qdt_new_node h nm; Ret h
  | AddSubnode p nm => do (_, h) <- qdt_add_subnode h p nm; Ret h
  | SetProp n nm v => do (_, h) <- qdt_setprop h n nm v; Ret h
  | SetPropString n nm v => do (_, h) <- qdt_setprop_string h n nm v; Ret h
  | SetPropCells n nm v => do (_, h) <- qdt_setprop_cells_ be h n nm v; Ret h
  | SetPropU64s n nm v => do (_, h) <- qdt_setprop_u64s_ be h n nm v; Ret h
  | SetPhandle n v => qdt_set_phandle be h n v
  | DelProp n nm => qdt_delprop h n nm
  end.

Fixpoint run (be : bool) (cs : list call) (h : heap) : result heap :=
  match cs with
  | [] => Ret h
  | c :: cs' => do h <- exec be c h; run be cs' h
  end.

(** the heaps a client of the API can obtain, on some host *)
Definition reachable (h : heap) : Prop :=
  exists be cs, run be cs [] = Ret h.

(** ** Shape of a heap *)

(** every stored child pointer designates a live node *)
Definition closed (h : heap) : Prop :=
  Forall (fun n => Forall (fun c => (c < length h)%nat) (children n)) h.

(** children are allocated after their parent *)
Definition forward (h : heap) : Prop :=
  forall p n, h !! p = Some n ->
    Forall (fun c => (p < c < length h)%nat) (children n).

(** no node is listed twice under a parent, and every listed child points
    back at the parent that lists it: with [forward], the child relation is
    a forest *)
Definition linked (h : heap) : Prop :=
  forall p n, h !! p = Some n ->
    NoDup (children n) /\
    Forall (fun c => exists m, h !! c = Some m /\ parent m = Some p)
      (children n).

Definition names (ps : list QDTProperty) : list string := prop_name <$> ps.

Definition distinct_props (h : heap) : Prop :=
  forall p n, h !! p = Some n -> NoDup (names (properties n)).

(** the shape every API-built heap has *)
Definition shaped (h : heap) : Prop := forward h /\ distinct_props h.

(** The ways an API call changes the heap: it allocates a node without
    properties or children, it allocates one and links it under a live
    parent, or it replaces the property list of a live node, keeping names
    distinct if they were. *)
Inductive effect (h : heap) : heap -> Prop :=
| effect_alloc nm :
    effect h (h ++ [mkNode nm None [] []])
| effect_attach p n nm :
    h !! p = Some n ->
    effect h (<[p := set_children (children n ++ [length h]) n]>
                (h ++ [mkNode nm (Some p) [] []]))
| effect_props p n ps :
    h !! p = Some n ->
    (NoDup (names (properties n)) -> NoDup (names ps)) ->
    effect h (<[p := set_properties ps n]> h).

Definition contains (c : ascii) (s : string) : Prop :=
  In c (list_ascii_of_string s).

(** ** Paths, as the specification reads them *)

(** the separator-delimited segments of a path *)
Fixpoint segments (path : string) : list string :=
  match path with
  | EmptyString => [EmptyString]
  | String c p =>
      if Ascii.eqb c slash then EmptyString :: segments p
      else match segments p with
           | s :: ss => String c s :: ss
           | [] => [String c EmptyString]
           end
  end.

(** the first node of [cs] whose name is exactly [seg] *)
Fixpoint child_named (h : heap) (cs : list ptr) (seg : string) : option ptr :=
  match cs with
  | [] => None
  | c :: cs' =>
      match h !! c with
      | Some n =>
          if String.eqb (name n) seg then Some c else child_named h cs' seg
      | None => None
      end
  end.

Definition lookup_child (h : heap) (node : ptr) (seg : string) : option ptr :=
  match h !! node with
  | Some n => child_named h (children n) seg
  | None => None
  end.

Fixpoint resolve (h : heap) (node : ptr) (segs : list string) : option ptr :=
  match segs with
  | [] => Some node
  | seg :: segs' =>
      match lookup_child h node seg with
      | Some c => resolve h c segs'
      | None => None
      end
  end.

(** ** Property lists, as the specification reads them *)

(** remove the first property called [nm], if there is one *)
Fixpoint remove_named (nm : string) (ps : list QDTProperty)
  : list QDTProperty :=
  match ps with
  | [] => []
  | p :: ps' =>
      if String.eqb (prop_name p) nm then ps' else p :: remove_named nm ps'
  end.

Definition named (nm : string) (ps : list QDTProperty) : list QDTProperty :=
  filter (fun p => prop_name p = nm) ps.

(** the [n] bytes of [v], most significant first *)
Fixpoint big_endian (n : nat) (v : Z) : list Z :=
  match n with
  | O => []
  | S k => (v / 256 ^ Z.of_nat k) mod 256 :: big_endian k v
  end.

(** ** Trees *)

Inductive tree : Type :=
| Tree (nm : string) (props : list QDTProperty) (kids : list tree).

Fixpoint height (t : tree) : nat :=
  match t with
  | Tree _ _ ts => S (list_max (map height ts))
  end.

(** the tree found under [p]; [None] when [fuel] does not cover its depth
    or a pointer dangles *)
Fixpoint tree_of (fuel : nat) (h : heap) (p : ptr) : option tree :=
  match fuel with
  | O => None
  | S fuel =>
      match h !! p with
      | Some n =>
          match mapM (tree_of fuel h) (children n) with
          | Some ts => Some (Tree (name n) (properties n) ts)
          | None => None
          end
      | None => None
      end
  end.

Definition represents (h : heap) (p : ptr) (t : tree) : Prop :=
  exists fuel, tree_of fuel h p = Some t.

(** ** Encoder calls *)

Inductive fdt_call : Type :=
| Create (bufsize : Z)
| FinishReservemap
| BeginNode (nm : string)
| Property (nm : string) (v : list Z) (n : nat)
| EndNode
| Finish.

Definition call_name (c : fdt_call) : string :=
  match c with
  | Create _ => "fdt_create"
  | FinishReservemap => "fdt_finish_reservemap"
  | BeginNode _ => "fdt_begin_node"
  | Property _ _ _ => "fdt_property"
  | EndNode => "fdt_end_node"
  | Finish => "fdt_finish"
  end.

Definition property_call (p : QDTProperty) : fdt_call :=
  Property (prop_name p) (val p) (len p).

(** depth-first preorder: node-begin, the properties in order, the children
    in order, node-end *)
Fixpoint emission (t : tree) : list fdt_call :=
  match t with
  | Tree nm ps ts =>
      BeginNode nm :: map property_call ps ++ flat_map emission ts ++ [EndNode]
  end.

(** everything [qdt_flatten] asks of the encoder for a tree *)
Definition flatten_calls (bufsize : Z) (t : tree) : list fdt_call :=
  Create bufsize :: FinishReservemap :: emission t ++ [Finish].

Section Calls.

Context {fdt : Type} `{Libfdt fdt}.

Definition do_call (c : fdt_call) (b : fdt) : Z * fdt :=
  match c with
  | Create n => fdt_create b n
  | FinishReservemap => fdt_finish_reservemap b
  | BeginNode nm => fdt_begin_node b nm
  | Property nm v n => fdt_property b nm v n
  | EndNode => fdt_end_node b
  | Finish => fdt_finish b
  end.

(** issue the calls one after the other, stopping at the first that
    reports failure *)
Fixpoint run_calls (cs : list fdt_call) (b : fdt) : fdt * option Error :=
  match cs with
  | [] => (b, None)
  | c :: cs' =>
      let '(ret, b) := do_call c b in
      if ret <? 0 then (b, Some (error_setg (call_name c) ret))
      else run_calls cs' b
  end.

(** the calls of [cs] that are issued: all of them up to and including
    the first that fails *)
Fixpoint issued (cs : list fdt_call) (b : fdt) : list fdt_call :=
  match cs with
  | [] => []
  | c :: cs' =>
      let '(ret, b) := do_call c b in
      c :: (if ret <? 0 then [] else issued cs' b)
  end.

(** the encoder [H] with a journal of the calls it received *)
Definition journal : Libfdt (fdt * list fdt_call) :=
  let record (c : fdt_call) (s : fdt * list fdt_call) :=
    let '(ret, b) := do_call c (fst s) in (ret, (b, snd s ++ [c])) in
  {| g_malloc0 n := (g_malloc0 n, []);
     fdt_create s n := record (Create n) s;
     fdt_finish_reservemap s := record FinishReservemap s;
     fdt_begin_node s nm := record (BeginNode nm) s;
     fdt_property s nm v n := record (Property nm v n) s;
     fdt_end_node s := record EndNode s;
     fdt_finish s := record Finish s;
     fdt_strerror := fdt_strerror |}.

End Calls.

(** the recursion depth of a traversal is the least budget it returns with *)
Definition recursion_depth `{Libfdt fdt} (h : heap) (b : fdt) (p : ptr)
    (d : nat) : Prop :=
  qdt_flatten_node d h b p <> None /\
  forall d', (d' < d)%nat -> qdt_flatten_node d' h b p = None.

(** ** A small encoder to run examples with *)

Module Sample.

(** The buffer is reduced to the room left in it; every call takes one
    unit and reports -FDT_ERR_NOSPACE when none is left. *)
Definition take (b : Z) : Z * Z :=
  if 0 <? b then (0, b - 1) else (-3, b).

Definition tape : Libfdt Z :=
  {| g_malloc0 n := n;
     fdt_create b _ := take b;
     fdt_finish_reservemap b := take b;
     fdt_begin_node b _ := take b;
     fdt_property b _ _ _ := take b;
     fdt_end_node b := take b;
     fdt_finish b := take b;
     fdt_strerror r := if r =? -3 then "FDT_ERR_NOSPACE" else "<unknown>" |}.

(** an encoder that accepts every call *)
Definition quiet : Libfdt unit :=
  {| g_malloc0 _ := tt;
     fdt_create _ _ := (0, tt);
     fdt_finish_reservemap _ := (0, tt);
     fdt_begin_node _ _ := (0, tt);
     fdt_property _ _ _ _ := (0, tt);
     fdt_end_node _ := (0, tt);
     fdt_finish _ := (0, tt);
     fdt_strerror _ := "" |}.

(** root "" with property "model" and children "cpus" (with child
    "cpu@0", property "reg") and "memory" *)
Definition program : list call :=
  [ NewNode "";
    SetPropString 0%nat "model" "qdt";
    AddSubnode 0%nat "cpus";
    AddSubnode 1%nat "cpu@0";
    SetPropCells 2%nat "reg" [0];
    AddSubnode 0%nat "memory" ].

Definition board : heap :=
  [ mkNode "" None [mkProp "model" [113; 100; 116; 0]] [1%nat; 3%nat];
    mkNode "cpus" (Some 0%nat) [] [2%nat];
    mkNode "cpu@0" (Some 1%nat) [mkProp "reg" [0; 0; 0; 0]] [];
    mkNode "memory" (Some 0%nat) [] [] ].

Definition board_tree : tree :=
  Tree "" [mkProp "model" [113; 100; 116; 0]]
    [ Tree "cpus" [] [Tree "cpu@0" [mkProp "reg" [0; 0; 0; 0]] []];
      Tree "memory" [] [] ].

End Sample.


(** * Further notions: shape, decoding *)

(** node names are free of the separator *)
Definition slashfree (h : heap) : Prop :=
  forall p n, h !! p = Some n -> ~ contains slash (name n).

(** a node that names a parent is listed among that parent's children *)
Definition backlinked (h : heap) : Prop :=
  forall c m q, h !! c = Some m -> parent m = Some q ->
    exists n, h !! q = Some n /\ c ∈ children n.

(** [h'] keeps the nodes of [h]: same name, same parent, and a child list
    that at most grew at its end *)
Definition extends (h h' : heap) : Prop :=
  forall p n, h !! p = Some n ->
    exists n', h' !! p = Some n' /\ name n' = name n /\
               parent n' = parent n /\ children n `prefix_of` children n'.

(** the same nodes, properties apart *)
Definition same_shape (h h' : heap) : Prop :=
  length h' = length h /\
  forall p n, h !! p = Some n ->
    exists n', h' !! p = Some n' /\ name n' = name n /\
               parent n' = parent n /\ children n' = children n.

Definition is_property_call (c : call) : bool :=
  match c with
  | NewNode _ | AddSubnode _ _ => false
  | _ => true
  end.

(** the node pointer a call is given, if any *)
Definition target (c : call) : option ptr :=
  match c with
  | NewNode _ => None
  | AddSubnode p _ => Some p
  | SetProp n _ _ | SetPropString n _ _ | SetPropCells n _ _
  | SetPropU64s n _ _ | SetPhandle n _ | DelProp n _ => Some n
  end.

(** the calls that set one property after the other on a node *)
Definition set_all (node : ptr) (kvs : list (string * list Z)) : list call :=
  map (fun kv => SetProp node (fst kv) (snd kv)) kvs.

(** ** Reading stored values back *)

(** the number a byte sequence denotes, most significant byte first *)
Definition decode_be (bs : list Z) : Z :=
  fold_left (fun a b => a * 256 + b) bs 0.

(** [n] words of [w] bytes each *)
Fixpoint decode_words (w n : nat) (bs : list Z) : list Z :=
  match n with
  | O => []
  | S n' => decode_be (take w bs) :: decode_words w n' (drop w bs)
  end.

(** the C string found at the start of a byte sequence *)
Fixpoint cstring_of_bytes (bs : list Z) : string :=
  match bs with
  | [] => EmptyString
  | b :: bs' =>
      if b =? 0 then EmptyString
      else String (ascii_of_N (Z.to_N b)) (cstring_of_bytes bs')
  end.

(** ** Reading a call sequence back *)

(** nesting depth after [cs], started at depth [d]; [None] when a node is
    closed that was not opened, a property stands outside of a node, or the
    framing calls stand inside of one *)
Fixpoint nesting (cs : list fdt_call) (d : nat) : option nat :=
  match cs with
  | [] => Some d
  | BeginNode _ :: cs' => nesting cs' (S d)
  | EndNode :: cs' =>
      match d with
      | O => None
      | S d' => nesting cs' d'
      end
  | Property _ _ _ :: cs' =>
      match d with
      | O => None
      | S _ => nesting cs' d
      end
  | _ :: cs' =>
      match d with
      | O => nesting cs' d
      | S _ => None
      end
  end.

Fixpoint nodes (t : tree) : nat :=
  match t with
  | Tree _ _ ts => S (list_sum (map nodes ts))
  end.

Fixpoint all_properties (t : tree) : nat :=
  match t with
  | Tree _ ps ts => (length ps + list_sum (map all_properties ts))%nat
  end.

Fixpoint parse_props (cs : list fdt_call)
  : list QDTProperty * list fdt_call :=
  match cs with
  | Property nm v _ :: cs' =>
      let '(ps, rest) := parse_props cs' in (mkProp nm v :: ps, rest)
  | _ => ([], cs)
  end.

(** a decoder for the structure block: one node, respectively the nodes up
    to the next call that is not a node-begin *)
Fixpoint parse_node (fuel : nat) (cs : list fdt_call)
  : option (tree * list fdt_call) :=
  match fuel with
  | O => None
  | S fuel =>
      match cs with
      | BeginNode nm :: cs1 =>
          let '(ps, cs2) := parse_props cs1 in
          match parse_kids fuel cs2 with
          | Some (ts, EndNode :: cs3) => Some (Tree nm ps ts, cs3)
          | _ => None
          end
      | _ => None
      end
  end
with parse_kids (fuel : nat) (cs : list fdt_call)
  : option (list tree * list fdt_call) :=
  match fuel with
  | O => None
  | S fuel =>
      match cs with
      | BeginNode _ :: _ =>
          match parse_node fuel cs with
          | Some (t, cs') =>
              match parse_kids fuel cs' with
              | Some (ts, cs'') => Some (t :: ts, cs'')
              | None => None
              end
          | None => None
          end
      | _ => Some ([], cs)
      end
  end.

Definition parse (cs : list fdt_call) : option tree :=
  match parse_node (length cs) cs with
  | Some (t, []) => Some t
  | _ => None
  end.

(** * Verification *)

(** ** Facts about the C library model *)

Section LibcFacts.

Implicit Types (s a b : string) (c : ascii) (k n : nat).

Lemma append_nil b : EmptyString +:+ b = b.
Proof. reflexivity. Qed.

Lemma append_cons x a b : String x a +:+ b = String x (a +:+ b).
Proof. reflexivity. Qed.

Lemma contains_cons c x s :
  contains c (String x s) <-> x = c \/ contains c s.
Proof. reflexivity. Qed.

Lemma contains_app c a b :
  contains c (a +:+ b) <-> contains c a \/ contains c b.
Proof.
  induction a as [|x a IH].
  - rewrite append_nil. unfold contains at 2. simpl. tauto.
  - rewrite append_cons, !contains_cons, IH. tauto.
Qed.

Lemma strchr_None s c : strchr s c = None <-> ~ contains c s.
Proof.
  induction s as [|x s IH]; simpl.
  - split; [intros _ []|reflexivity].
  - rewrite contains_cons. destruct (Ascii.eqb_spec x c) as [->|Hne].
    + split; [discriminate|]. intros Hc. destruct Hc. now left.
    + destruct (strchr s c).
      * split; [discriminate|]. intros Hn.
        assert (Hs : ~ contains c s) by tauto.
        apply IH in Hs. discriminate.
      * split; [|reflexivity]. intros _ [?|?]; [contradiction|].
        now apply IH.
Qed.

Lemma strchr_is_Some s c : is_Some (strchr s c) <-> contains c s.
Proof.
  split.
  - induction s as [|x s IH]; simpl; intros [k Hk]; [discriminate|].
    rewrite contains_cons.
    destruct (Ascii.eqb_spec x c) as [->|Hne]; [now left|right].
    apply IH. destruct (strchr s c); [eauto|discriminate].
  - intros Hc. destruct (strchr s c) eqn:E; [eauto|].
    apply strchr_None in E. contradiction.
Qed.

Lemma strchr_lt s c k : strchr s c = Some k -> (k < strlen s)%nat.
Proof.
  revert k. induction s as [|x s IH]; simpl; intros k; [discriminate|].
  destruct (Ascii.eqb x c); [intros [= <-]; lia|].
  destruct (strchr s c) as [j|]; [|discriminate].
  intros [= <-]. specialize (IH j eq_refl). lia.
Qed.

Lemma advance_length k s : strlen (advance k s) = (strlen s - k)%nat.
Proof.
  revert s. induction k as [|k IH]; intros [|x s]; simpl; auto.
Qed.

Lemma strchr_split s c k :
  strchr s c = Some k ->
  s = prefix k s +:+ String c (advance (k + 1) s) /\
  ~ contains c (prefix k s).
Proof.
  revert k. induction s as [|x s IH]; simpl; intros k; [discriminate|].
  destruct (Ascii.eqb_spec x c) as [->|Hne].
  - intros [= <-]. simpl. split; [reflexivity|intros []].
  - destruct (strchr s c) as [j|]; [|discriminate]. intros [= <-].
    destruct (IH j eq_refl) as [IH1 IH2]. simpl. split.
    + rewrite append_cons. f_equal. exact IH1.
    + rewrite contains_cons. tauto.
Qed.

Lemma strchr_app s c rest :
  ~ contains c s -> strchr (s +:+ String c rest) c = Some (strlen s).
Proof.
  induction s as [|x s IH]; intros Hn;
    rewrite ?append_nil, ?append_cons; simpl.
  - now rewrite Ascii.eqb_refl.
  - rewrite contains_cons in Hn.
    destruct (Ascii.eqb_spec x c) as [->|Hne]; [tauto|].
    rewrite IH by tauto. reflexivity.
Qed.

Lemma prefix_app s b : prefix (strlen s) (s +:+ b) = s.
Proof.
  induction s as [|x s IH]; rewrite ?append_nil, ?append_cons; simpl;
    [now destruct b|now rewrite IH].
Qed.

Lemma prefix_all s : prefix (strlen s) s = s.
Proof. induction s as [|x s IH]; simpl; [reflexivity|now rewrite IH]. Qed.

Lemma advance_app s c b : advance (strlen s + 1) (s +:+ String c b) = b.
Proof.
  induction s as [|x s IH]; rewrite ?append_nil, ?append_cons; simpl;
    [now destruct b|exact IH].
Qed.

Lemma prefix_length k s :
  (k <= strlen s)%nat -> strlen (prefix k s) = k.
Proof.
  revert s. induction k as [|k IH]; intros [|x s]; simpl; intros Hk;
    try reflexivity; try lia.
  rewrite IH; [reflexivity|lia].
Qed.

Lemma memchr_None s c n :
  ~ contains c (prefix n s) -> memchr s c n = None.
Proof.
  revert s. induction n as [|n IH]; intros [|x s]; simpl; try reflexivity.
  rewrite contains_cons. intros Hn.
  destruct (Ascii.eqb_spec x c) as [->|Hne]; [tauto|].
  rewrite IH by tauto. reflexivity.
Qed.

Lemma uchar_inj x y : uchar x = uchar y -> x = y.
Proof.
  unfold uchar. intros Hxy. apply N2Z.inj in Hxy.
  rewrite <- (ascii_N_embedding x), <- (ascii_N_embedding y).
  now rewrite Hxy.
Qed.

(** on a candidate of the right length, [memcmp] decides equality with
    the segment *)
Lemma memcmp_0 a b n :
  strlen a = n -> (n <= strlen b)%nat ->
  memcmp a b n = 0 <-> a = prefix n b.
Proof.
  revert a b. induction n as [|n IH]; intros [|x a] [|y b]; simpl;
    intros Ha Hb; try lia; try discriminate.
  - tauto.
  - tauto.
  - destruct (Ascii.eqb_spec x y) as [->|Hne].
    + rewrite IH by lia. split; [now intros ->|now intros [= ->]].
    + split; [|now intros [= ? _]].
      intros Hd. exfalso. apply Hne, uchar_inj. lia.
Qed.

Lemma segments_app seg rest :
  ~ contains slash seg ->
  segments (seg +:+ String slash rest) = seg :: segments rest.
Proof.
  induction seg as [|x seg IH]; intros Hn;
    rewrite ?append_nil, ?append_cons; simpl.
  - reflexivity.
  - rewrite contains_cons in Hn.
    destruct (Ascii.eqb_spec x slash) as [->|Hne]; [tauto|].
    rewrite IH by tauto. reflexivity.
Qed.

Lemma segments_single seg : ~ contains slash seg -> segments seg = [seg].
Proof.
  induction seg as [|x seg IH]; simpl; intros Hn; [reflexivity|].
  rewrite contains_cons in Hn.
  destruct (Ascii.eqb_spec x slash) as [->|Hne]; [tauto|].
  rewrite IH by tauto. reflexivity.
Qed.

Lemma segments_nonempty path : segments path <> [].
Proof.
  induction path as [|x p IH]; simpl; [discriminate|].
  destruct (Ascii.eqb x slash); [discriminate|].
  destruct (segments p); [contradiction|discriminate].
Qed.

(** a trailing separator adds one last, empty segment *)
Lemma segments_trailing path :
  segments (path +:+ "/") = segments path ++ [EmptyString].
Proof.
  induction path as [|x p IH]; rewrite ?append_nil, ?append_cons; simpl;
    [reflexivity|].
  destruct (Ascii.eqb x slash); [now rewrite IH|].
  rewrite IH. pose proof (segments_nonempty p).
  destruct (segments p); [contradiction|reflexivity].
Qed.

End LibcFacts.

(** ** Node functions *)

Section NodeFacts.

Implicit Types (h : heap) (p c node root : ptr) (n : QDTNode).
Implicit Types (nm path seg : string) (k : nat).

Lemma deref_Some h p n : h !! p = Some n -> deref h p = Ret n.
Proof. unfold deref. now intros ->. Qed.

Lemma deref_None h p : h !! p = None -> deref h p = Wild.
Proof. unfold deref. now intros ->. Qed.

Lemma store_Some h p f n :
  h !! p = Some n -> store h p f = Ret (<[p := f n]> h).
Proof. unfold store. now intros ->. Qed.

Lemma store_last h z f :
  store (h ++ [z]) (length h) f = Ret (h ++ [f z]).
Proof.
  rewrite (store_Some _ _ _ z) by apply list_lookup_middle, eq_refl.
  f_equal. rewrite insert_app_r_alt by lia.
  now rewrite Nat.sub_diag.
Qed.

Lemma g_assert_slash nm :
  g_assert (negb (bool_decide (is_Some (strchr nm slash)))) =
  match strchr nm slash with Some _ => Abort | None => Ret tt end.
Proof. now destruct (strchr nm slash). Qed.

Lemma qdt_new_node_eq h nm :
  qdt_new_node h nm =
  match strchr nm slash with
  | Some _ => Abort
  | None => Ret (length h, h ++ [mkNode nm None [] []])
  end.
Proof.
  unfold qdt_new_node, g_new0. rewrite g_assert_slash.
  destruct (strchr nm slash); [reflexivity|]. simpl.
  repeat (rewrite store_last; simpl). reflexivity.
Qed.

Lemma qdt_add_subnode_eq h p nm :
  qdt_add_subnode h p nm =
  match strchr nm slash with
  | Some _ => Abort
  | None =>
      match h !! p with
      | Some n =>
          Ret (length h,
               <[p := set_children (children n ++ [length h]) n]>
                 (h ++ [mkNode nm (Some p) [] []]))
      | None => Wild
      end
  end.
Proof.
  unfold qdt_add_subnode. rewrite qdt_new_node_eq.
  destruct (strchr nm slash); [reflexivity|]. simpl.
  rewrite store_last. simpl. unfold deref.
  destruct (h !! p) as [n|] eqn:Hp; [|reflexivity]. simpl.
  rewrite (store_Some _ _ _ n); [reflexivity|].
  now apply lookup_app_l_Some.
Qed.

Lemma qdt_get_node_relative_clause h node path o
    (e : strchr path slash = o) :
  qdt_get_node_relative_unfold_clause_1 h node path (exist _ o e) =
  match o with
  | Some k =>
      match get_subnode h node path k with
      | Ret (Some n) => qdt_get_node_relative h n (advance (k + 1) path)
      | r => r
      end
  | None => get_subnode h node path (strlen path)
  end.
Proof. destruct o; reflexivity. Qed.

(** one turn of the do-while loop *)
Lemma qdt_get_node_relative_step h node path :
  qdt_get_node_relative h node path =
  match strchr path slash with
  | Some k =>
      match get_subnode h node path k with
      | Ret (Some n) => qdt_get_node_relative h n (advance (k + 1) path)
      | r => r
      end
  | None => get_subnode h node path (strlen path)
  end.
Proof.
  simp qdt_get_node_relative. unfold inspect.
  apply qdt_get_node_relative_clause.
Qed.

Lemma closed_children h p n :
  closed h -> h !! p = Some n ->
  Forall (fun c => (c < length h)%nat) (children n).
Proof.
  intros Hc Hp. unfold closed in Hc. rewrite Forall_lookup in Hc. eauto.
Qed.

Lemma child_named_live h cs seg c :
  child_named h cs seg = Some c -> is_Some (h !! c).
Proof.
  induction cs as [|x cs IH]; simpl; [discriminate|].
  destruct (h !! x) as [n|] eqn:Hx; [|discriminate].
  destruct (String.eqb (name n) seg); [|exact IH].
  intros [= <-]. eauto.
Qed.

Lemma lookup_child_live h node seg c :
  lookup_child h node seg = Some c -> is_Some (h !! c).
Proof.
  unfold lookup_child. destruct (h !! node); [|discriminate].
  apply child_named_live.
Qed.

(** the child found is the first one, in list order, with that name *)
Lemma child_named_Some h cs seg c :
  child_named h cs seg = Some c ->
  exists pre post n,
    cs = pre ++ c :: post /\ h !! c = Some n /\ name n = seg /\
    Forall (fun x => exists m, h !! x = Some m /\ name m <> seg) pre.
Proof.
  induction cs as [|x cs IH]; simpl; [discriminate|].
  destruct (h !! x) as [m|] eqn:Hx; [|discriminate].
  destruct (String.eqb_spec (name m) seg) as [He|Hne].
  - intros [= <-]. exists [], cs, m. repeat split; auto.
  - intros Hc. destruct (IH Hc) as (pre & post & n & -> & Hn & Hnm & Hpre).
    exists (x :: pre), post, n. repeat split; auto.
    constructor; eauto.
Qed.

Lemma child_named_None h cs seg :
  Forall (fun c => (c < length h)%nat) cs ->
  child_named h cs seg = None ->
  Forall (fun x => exists m, h !! x = Some m /\ name m <> seg) cs.
Proof.
  induction 1 as [|x cs Hx Hcs IH]; simpl; [constructor|].
  apply lookup_lt_is_Some in Hx. destruct Hx as [m Hm]. rewrite Hm.
  destruct (String.eqb_spec (name m) seg) as [He|Hne]; [discriminate|].
  intros Hn. constructor; eauto.
Qed.

Lemma get_subnode_loop_eq h cs nm k :
  Forall (fun c => (c < length h)%nat) cs -> (k <= strlen nm)%nat ->
  get_subnode_loop h cs nm k = Ret (child_named h cs (prefix k nm)).
Proof.
  intros Hcs Hk. induction Hcs as [|x cs Hx Hcs IH]; simpl; [reflexivity|].
  apply lookup_lt_is_Some in Hx. destruct Hx as [m Hm].
  rewrite (deref_Some _ _ _ Hm), Hm. simpl.
  destruct (Nat.eqb_spec (strlen (name m)) k) as [Hl|Hl]; simpl.
  - pose proof (memcmp_0 (name m) nm k Hl Hk) as Hcmp.
    destruct (Z.eqb_spec (memcmp (name m) nm k) 0) as [Hz|Hz];
      destruct (String.eqb_spec (name m) (prefix k nm)) as [He|He];
      try reflexivity; try exact IH; tauto.
  - destruct (String.eqb_spec (name m) (prefix k nm)) as [He|He];
      [|exact IH].
    exfalso. apply Hl. rewrite He. now apply prefix_length.
Qed.

Lemma get_subnode_eq h node nm k :
  closed h -> is_Some (h !! node) -> (k <= strlen nm)%nat ->
  ~ contains slash (prefix k nm) ->
  get_subnode h node nm k = Ret (lookup_child h node (prefix k nm)).
Proof.
  intros Hc [n Hn] Hk Hs. unfold get_subnode, lookup_child.
  rewrite (memchr_None _ _ _ Hs). simpl.
  rewrite (deref_Some _ _ _ Hn), Hn. simpl.
  apply get_subnode_loop_eq; [|assumption].
  eapply closed_children; eauto.
Qed.

Lemma relative_continue h node seg rest :
  closed h -> is_Some (h !! node) -> ~ contains slash seg ->
  qdt_get_node_relative h node (seg +:+ String slash rest) =
  match lookup_child h node seg with
  | Some c => qdt_get_node_relative h c rest
  | None => Ret None
  end.
Proof.
  intros Hc Hn Hs. rewrite qdt_get_node_relative_step.
  rewrite (strchr_app _ _ _ Hs).
  rewrite get_subnode_eq; auto.
  - rewrite prefix_app, advance_app. reflexivity.
  - apply Nat.lt_le_incl, (strchr_lt _ slash), strchr_app, Hs.
  - now rewrite prefix_app.
Qed.

Lemma relative_last h node seg :
  closed h -> is_Some (h !! node) -> ~ contains slash seg ->
  qdt_get_node_relative h node seg = Ret (lookup_child h node seg).
Proof.
  intros Hc Hn Hs. rewrite qdt_get_node_relative_step.
  apply strchr_None in Hs as Hs'. rewrite Hs'.
  rewrite get_subnode_eq; auto; rewrite prefix_all; auto.
Qed.

Lemma relative_resolve h :
  closed h ->
  forall m path node, (strlen path <= m)%nat -> is_Some (h !! node) ->
  qdt_get_node_relative h node path = Ret (resolve h node (segments path)).
Proof.
  intros Hc. induction m as [|m IH]; intros path node Hm Hn.
  - destruct path; [|simpl in Hm; lia].
    rewrite relative_last by (auto; intros []). simpl.
    now destruct (lookup_child h node "").
  - destruct (strchr path slash) as [k|] eqn:Hs.
    + destruct (strchr_split _ _ _ Hs) as [Hsplit Hno].
      pose proof (strchr_lt _ _ _ Hs) as Hk.
      set (seg := prefix k path) in *.
      set (rest := advance (k + 1) path) in *.
      assert (Hrest : (strlen rest <= m)%nat).
      { unfold rest. rewrite advance_length. lia. }
      rewrite Hsplit, relative_continue, segments_app by auto. simpl.
      destruct (lookup_child h node seg) as [c|] eqn:Hl; [|reflexivity].
      apply IH; [assumption|]. eapply lookup_child_live; eauto.
    + apply strchr_None in Hs.
      rewrite relative_last, segments_single by auto. simpl.
      now destruct (lookup_child h node path).
Qed.

Lemma resolve_snoc h node segs seg :
  resolve h node (segs ++ [seg]) =
  match resolve h node segs with
  | Some n => lookup_child h n seg
  | None => None
  end.
Proof.
  revert node. induction segs as [|s segs IH]; intros node; simpl.
  - now destruct (lookup_child h node seg).
  - destruct (lookup_child h node s); [apply IH|reflexivity].
Qed.

End NodeFacts.

(** ** Property functions *)

Section PropertyFacts.

Implicit Types (h : heap) (node : ptr) (n : QDTNode).
Implicit Types (nm : string) (ps : list QDTProperty) (v : list Z).

(** [qdt_delprop] unlinks the element [getprop_] points at *)
Lemma getprop_loop_remove ps nm :
  match getprop_loop ps nm with
  | Some i => delete i ps
  | None => ps
  end = remove_named nm ps.
Proof.
  induction ps as [|p ps IH]; simpl; [reflexivity|].
  unfold strcmp_eq0. destruct (String.eqb (prop_name p) nm); [reflexivity|].
  destruct (getprop_loop ps nm); simpl; now rewrite <- IH.
Qed.

Lemma getprop_loop_lookup ps nm :
  match getprop_loop ps nm with
  | Some i => ps !! i
  | None => None
  end = head (named nm ps).
Proof.
  induction ps as [|p ps IH]; simpl; [reflexivity|].
  unfold strcmp_eq0, named. rewrite filter_cons.
  destruct (String.eqb_spec (prop_name p) nm) as [He|Hne].
  - rewrite decide_True by assumption. reflexivity.
  - rewrite decide_False by assumption.
    destruct (getprop_loop ps nm); exact IH.
Qed.

Lemma set_properties_id n : set_properties (properties n) n = n.
Proof. now destruct n. Qed.

Lemma set_properties_twice ps ps' n :
  set_properties ps (set_properties ps' n) = set_properties ps n.
Proof. reflexivity. Qed.

Lemma qdt_delprop_eq h node nm :
  qdt_delprop h node nm =
  match h !! node with
  | Some n =>
      Ret (<[node := set_properties (remove_named nm (properties n)) n]> h)
  | None => Wild
  end.
Proof.
  unfold qdt_delprop, getprop_, deref.
  destruct (h !! node) as [n|] eqn:Hn; [|reflexivity]. simpl.
  rewrite <- getprop_loop_remove.
  destruct (getprop_loop (properties n) nm) as [i|].
  - simpl. now apply store_Some.
  - now rewrite set_properties_id, list_insert_id.
Qed.

Lemma qdt_setprop_eq h node nm v :
  qdt_setprop h node nm v =
  match h !! node with
  | Some n =>
      Ret (mkProp nm v,
           <[node := set_properties
                       (remove_named nm (properties n) ++ [mkProp nm v]) n]>
             h)
  | None => Wild
  end.
Proof.
  unfold qdt_setprop. rewrite qdt_delprop_eq.
  destruct (h !! node) as [n|] eqn:Hn; [|reflexivity]. simpl.
  apply lookup_lt_Some in Hn as Hlt.
  unfold deref, store. rewrite list_lookup_insert_eq by assumption. simpl.
  now rewrite list_insert_insert_eq.
Qed.

Lemma qdt_getprop_eq h node nm :
  qdt_getprop h node nm =
  match h !! node with
  | Some n => Ret (head (named nm (properties n)))
  | None => Wild
  end.
Proof.
  unfold qdt_getprop, getprop_, deref.
  destruct (h !! node) as [n|]; [|reflexivity]. simpl.
  now rewrite getprop_loop_lookup.
Qed.

Lemma names_remove_named nm ps x :
  x ∈ names (remove_named nm ps) -> x ∈ names ps.
Proof.
  unfold names. induction ps as [|p ps IH]; simpl; [auto|].
  destruct (String.eqb (prop_name p) nm); simpl.
  - intros Hx. now right.
  - rewrite !elem_of_cons. intros [->|Hx]; auto.
Qed.

Lemma NoDup_remove_named nm ps :
  NoDup (names ps) -> NoDup (names (remove_named nm ps)).
Proof.
  unfold names. induction ps as [|p ps IH]; simpl; [auto|].
  rewrite NoDup_cons. intros [Hp Hps].
  destruct (String.eqb (prop_name p) nm); simpl; [assumption|].
  rewrite NoDup_cons. split; [|auto].
  intros Hx. apply Hp. now apply names_remove_named in Hx.
Qed.

(** with distinct names, nothing called [nm] remains after the removal *)
Lemma remove_named_gone nm ps :
  NoDup (names ps) -> nm ∉ names (remove_named nm ps).
Proof.
  unfold names. induction ps as [|p ps IH]; simpl.
  - intros _ Hx. inversion Hx.
  - rewrite NoDup_cons. intros [Hp Hps].
    destruct (String.eqb_spec (prop_name p) nm) as [He|Hne]; simpl.
    + now rewrite <- He.
    + rewrite not_elem_of_cons. split; [congruence|auto].
Qed.

Lemma remove_named_absent nm ps :
  nm ∉ names ps -> remove_named nm ps = ps.
Proof.
  unfold names. induction ps as [|p ps IH]; simpl; [reflexivity|].
  rewrite not_elem_of_cons. intros [Hp Hps].
  destruct (String.eqb_spec (prop_name p) nm) as [He|Hne]; [congruence|].
  now rewrite IH.
Qed.

Lemma named_absent nm ps : nm ∉ names ps -> named nm ps = [].
Proof.
  unfold names, named. induction ps as [|p ps IH]; simpl; [reflexivity|].
  rewrite not_elem_of_cons. intros [Hp Hps]. rewrite filter_cons.
  rewrite decide_False by congruence. auto.
Qed.

Lemma names_snoc ps p : names (ps ++ [p]) = names ps ++ [prop_name p].
Proof. unfold names. now rewrite fmap_app. Qed.

(** what [qdt_setprop] leaves in the property list *)
Lemma setprop_list nm v ps :
  NoDup (names ps) ->
  let ps' := remove_named nm ps ++ [mkProp nm v] in
  NoDup (names ps') /\ named nm ps' = [mkProp nm v] /\
  last ps' = Some (mkProp nm v).
Proof.
  intros Hnd ps'. subst ps'. repeat split.
  - rewrite names_snoc. apply NoDup_app. repeat split.
    + now apply NoDup_remove_named.
    + intros x Hx. simpl. rewrite list_elem_of_singleton. intros ->.
      now apply (remove_named_gone nm ps).
    + apply NoDup_singleton.
  - unfold named. rewrite filter_app.
    fold (named nm (remove_named nm ps)).
    rewrite named_absent by now apply remove_named_gone.
    simpl. rewrite filter_cons. now rewrite decide_True.
  - apply last_snoc.
Qed.

End PropertyFacts.

(** ** Integers in memory *)

Section Endianness.

Implicit Types (x v m k i : Z).

Lemma byte_of_div x i :
  0 <= i -> byte_of x i = (x / 256 ^ i) mod 256.
Proof.
  intros Hi. unfold byte_of.
  change 255 with (Z.ones 8). rewrite Z.land_ones by lia.
  rewrite Z.shiftr_div_pow2 by lia.
  rewrite Z.pow_mul_r by lia. reflexivity.
Qed.

Lemma testbit_byte_of x i k :
  0 <= i -> 0 <= k ->
  Z.testbit (byte_of x i) k = (k <? 8) && Z.testbit x (k + 8 * i).
Proof.
  intros Hi Hk. unfold byte_of. rewrite Z.land_spec, Z.shiftr_spec by lia.
  change 255 with (Z.ones 8). rewrite Z.testbit_ones_nonneg by lia.
  apply andb_comm.
Qed.

Lemma testbit_255 k : Z.testbit 255 k = (0 <=? k) && (k <? 8).
Proof.
  change 255 with (Z.ones 8). rewrite Z.testbit_ones by lia. reflexivity.
Qed.

Lemma testbit_65280 k : Z.testbit 65280 k = (8 <=? k) && (k <? 16).
Proof.
  change 65280 with (Z.shiftl (Z.ones 8) 8).
  destruct (Z.leb_spec 0 k) as [Hk|Hk].
  - rewrite Z.shiftl_spec, Z.testbit_ones by lia.
    destruct (Z.leb_spec 8 k), (Z.leb_spec 0 (k - 8)),
      (Z.ltb_spec (k - 8) 8), (Z.ltb_spec k 16); simpl; lia || reflexivity.
  - rewrite Z.testbit_neg_r by lia.
    destruct (Z.leb_spec 8 k); [lia|reflexivity].
Qed.

Lemma testbit_4294967295 k :
  Z.testbit 4294967295 k = (0 <=? k) && (k <? 32).
Proof.
  change 4294967295 with (Z.ones 32). rewrite Z.testbit_ones by lia.
  reflexivity.
Qed.

Ltac split_ranges :=
  repeat match goal with
         | |- context [Z.ltb ?a ?b] => destruct (Z.ltb_spec a b)
         | |- context [Z.leb ?a ?b] => destruct (Z.leb_spec a b)
         end;
  try lia; simpl;
  rewrite ?andb_false_r, ?andb_true_r, ?orb_false_r, ?orb_false_l;
  try reflexivity.

Lemma testbit_bswap32 x m :
  0 <= m ->
  Z.testbit (bswap32 x) m =
  if m <? 8 then Z.testbit x (m + 24)
  else if m <? 16 then Z.testbit x (m + 8)
  else if m <? 24 then Z.testbit x (m - 8)
  else if m <? 32 then Z.testbit x (m - 24)
  else false.
Proof.
  intros Hm. unfold bswap32.
  rewrite !Z.lor_spec, !Z.land_spec, !Z.shiftl_spec, !Z.land_spec,
    !Z.shiftr_spec, !testbit_255, !testbit_65280 by lia.
  split_ranges.
Qed.

Lemma testbit_bswap64 x m :
  0 <= m ->
  Z.testbit (bswap64 x) m =
  if m <? 8 then Z.testbit x (m + 56)
  else if m <? 16 then Z.testbit x (m + 40)
  else if m <? 24 then Z.testbit x (m + 24)
  else if m <? 32 then Z.testbit x (m + 8)
  else if m <? 40 then Z.testbit x (m - 8)
  else if m <? 48 then Z.testbit x (m - 24)
  else if m <? 56 then Z.testbit x (m - 40)
  else if m <? 64 then Z.testbit x (m - 56)
  else false.
Proof.
  intros Hm. unfold bswap64.
  rewrite Z.lor_spec, Z.shiftl_spec by lia.
  destruct (Z.ltb_spec m 32) as [Hlt|Hge].
  - rewrite (Z.testbit_neg_r _ (m - 32)) by lia. simpl.
    rewrite testbit_bswap32 by lia.
    rewrite !Z.land_spec, !Z.shiftr_spec, !testbit_4294967295 by lia.
    split_ranges; rewrite ?Z.shiftr_spec by lia; f_equal; lia.
  - rewrite !testbit_bswap32 by lia.
    rewrite !Z.land_spec, !Z.shiftr_spec, !testbit_4294967295 by lia.
    split_ranges; rewrite ?Z.shiftr_spec by lia; f_equal; lia.
Qed.

Lemma byte_of_bswap32 x i :
  0 <= i < 4 -> byte_of (bswap32 x) i = byte_of x (3 - i).
Proof.
  intros Hi. apply Z.bits_inj'. intros k Hk.
  rewrite !testbit_byte_of, testbit_bswap32 by lia.
  assert (i = 0 \/ i = 1 \/ i = 2 \/ i = 3) as [->|[->|[->| ->]]] by lia;
    split_ranges; rewrite ?Z.shiftr_spec by lia; f_equal; lia.
Qed.

Lemma byte_of_bswap64 x i :
  0 <= i < 8 -> byte_of (bswap64 x) i = byte_of x (7 - i).
Proof.
  intros Hi. apply Z.bits_inj'. intros k Hk.
  rewrite !testbit_byte_of, testbit_bswap64 by lia.
  assert (i = 0 \/ i = 1 \/ i = 2 \/ i = 3 \/
          i = 4 \/ i = 5 \/ i = 6 \/ i = 7)
    as [->|[->|[->|[->|[->|[->|[->| ->]]]]]]] by lia;
    split_ranges; rewrite ?Z.shiftr_spec by lia; f_equal; lia.
Qed.

Lemma big_endian_length n v : length (big_endian n v) = n.
Proof. induction n as [|n IH]; simpl; [reflexivity|now rewrite IH]. Qed.

Lemma big_endian_4 v :
  big_endian 4 v = [byte_of v 3; byte_of v 2; byte_of v 1; byte_of v 0].
Proof. rewrite !byte_of_div by lia. reflexivity. Qed.

Lemma big_endian_8 v :
  big_endian 8 v =
  [byte_of v 7; byte_of v 6; byte_of v 5; byte_of v 4;
   byte_of v 3; byte_of v 2; byte_of v 1; byte_of v 0].
Proof. rewrite !byte_of_div by lia. reflexivity. Qed.

(** whatever the host, a converted cell sits in memory most significant
    byte first *)
Lemma mem_u32_cpu_to_fdt32 be v :
  mem_u32 be (cpu_to_fdt32 be v) = big_endian 4 v.
Proof.
  rewrite big_endian_4. unfold mem_u32, cpu_to_fdt32.
  destruct be; simpl; [reflexivity|].
  rewrite !byte_of_bswap32 by lia. reflexivity.
Qed.

Lemma mem_u64_cpu_to_fdt64 be v :
  mem_u64 be (cpu_to_fdt64 be v) = big_endian 8 v.
Proof.
  rewrite big_endian_8. unfold mem_u64, cpu_to_fdt64.
  destruct be; simpl; [reflexivity|].
  rewrite !byte_of_bswap64 by lia. reflexivity.
Qed.

Lemma flat_map_length_const {A B} (f : A -> list B) (l : list A) n :
  (forall a, length (f a) = n) -> length (flat_map f l) = (n * length l)%nat.
Proof.
  intros Hf. induction l as [|a l IH]; simpl; [lia|].
  rewrite length_app, Hf, IH. lia.
Qed.

Lemma cells_bytes be (vs : list Z) :
  flat_map (mem_u32 be) (map (cpu_to_fdt32 be) vs) =
  flat_map (big_endian 4) vs.
Proof.
  induction vs as [|v vs IH]; [reflexivity|]. cbn [map flat_map].
  now rewrite IH, mem_u32_cpu_to_fdt32.
Qed.

Lemma u64s_bytes be (vs : list Z) :
  flat_map (mem_u64 be) (map (cpu_to_fdt64 be) vs) =
  flat_map (big_endian 8) vs.
Proof.
  induction vs as [|v vs IH]; [reflexivity|]. cbn [map flat_map].
  now rewrite IH, mem_u64_cpu_to_fdt64.
Qed.

End Endianness.

(** ** Heaps built through the API *)

Section Invariants.

Implicit Types (h : heap) (p c node : ptr) (n : QDTNode).
Implicit Types (nm : string) (ps : list QDTProperty).

Lemma bind_Ret {A B} (m : result A) (k : A -> result B) b :
  bind m k = Ret b -> exists a, m = Ret a /\ k a = Ret b.
Proof. destruct m; simpl; [eauto|discriminate|discriminate]. Qed.

Lemma forward_closed h : forward h -> closed h.
Proof.
  intros Hf. apply Forall_lookup_2. intros p n Hp.
  eapply Forall_impl; [exact (Hf p n Hp)|]. simpl. lia.
Qed.

Lemma forward_nil : forward [].
Proof. intros p n Hp. discriminate. Qed.

Lemma distinct_nil : distinct_props [].
Proof. intros p n Hp. discriminate. Qed.

Lemma forward_snoc h n : forward h -> children n = [] -> forward (h ++ [n]).
Proof.
  intros Hf Hn p m Hp. rewrite length_app. simpl.
  apply lookup_snoc_Some in Hp as [[_ Hp]|[_ <-]].
  - eapply Forall_impl; [exact (Hf p m Hp)|]. simpl. lia.
  - rewrite Hn. constructor.
Qed.

Lemma distinct_snoc h n :
  distinct_props h -> properties n = [] -> distinct_props (h ++ [n]).
Proof.
  intros Hd Hn p m Hp.
  apply lookup_snoc_Some in Hp as [[_ Hp]|[_ <-]]; [eauto|].
  rewrite Hn. constructor.
Qed.

Lemma forward_set_properties h p n ps :
  forward h -> h !! p = Some n ->
  forward (<[p := set_properties ps n]> h).
Proof.
  intros Hf Hn q m Hq. rewrite length_insert.
  apply list_lookup_insert_Some in Hq as [(<- & <- & _)|[_ Hq]];
    simpl; eauto.
Qed.

Lemma distinct_set_properties h p n ps :
  distinct_props h -> NoDup (names ps) ->
  distinct_props (<[p := set_properties ps n]> h).
Proof.
  intros Hd Hps q m Hq.
  apply list_lookup_insert_Some in Hq as [(<- & <- & _)|[_ Hq]]; eauto.
Qed.

Lemma forward_attach h p n nm :
  forward h -> h !! p = Some n ->
  forward (<[p := set_children (children n ++ [length h]) n]>
             (h ++ [mkNode nm (Some p) [] []])).
Proof.
  intros Hf Hn q m Hq. rewrite length_insert, length_app. simpl.
  apply lookup_lt_Some in Hn as Hlt.
  apply list_lookup_insert_Some in Hq as [(<- & <- & _)|[_ Hq]].
  - simpl. apply Forall_app. split.
    + eapply Forall_impl; [exact (Hf p n Hn)|]. simpl. lia.
    + apply Forall_singleton. lia.
  - apply lookup_snoc_Some in Hq as [[_ Hq]|[_ <-]]; [|constructor].
    eapply Forall_impl; [exact (Hf q m Hq)|]. simpl. lia.
Qed.

Lemma distinct_attach h p n nm :
  distinct_props h -> h !! p = Some n ->
  distinct_props (<[p := set_children (children n ++ [length h]) n]>
                    (h ++ [mkNode nm (Some p) [] []])).
Proof.
  intros Hd Hn q m Hq.
  apply list_lookup_insert_Some in Hq as [(<- & <- & _)|[_ Hq]].
  - simpl. eauto.
  - apply lookup_snoc_Some in Hq as [[_ Hq]|[_ <-]]; [eauto|constructor].
Qed.

Lemma effect_forward h h' : effect h h' -> forward h -> forward h'.
Proof.
  intros [nm|p n nm Hn|p n ps Hn _] Hf.
  - now apply forward_snoc.
  - now apply forward_attach.
  - now apply forward_set_properties.
Qed.

Lemma effect_distinct h h' :
  effect h h' -> distinct_props h -> distinct_props h'.
Proof.
  intros [nm|p n nm Hn|p n ps Hn Hps] Hd.
  - now apply distinct_snoc.
  - now apply distinct_attach.
  - apply distinct_set_properties; eauto.
Qed.

Lemma linked_nil : linked [].
Proof. intros p n Hp. discriminate. Qed.

Lemma effect_linked h h' :
  effect h h' -> forward h -> linked h -> linked h'.
Proof.
  intros [nm|p n nm Hn|p n ps Hn _] Hf Hl q m Hq.
  - apply lookup_snoc_Some in Hq as [[_ Hq]|[_ <-]];
      [|split; constructor].
    destruct (Hl q m Hq) as [Hnd Hback]. split; [exact Hnd|].
    eapply Forall_impl; [exact Hback|]. simpl.
    intros c (y & Hy & Hpar). exists y. split; [|exact Hpar].
    now apply lookup_app_l_Some.
  - apply lookup_lt_Some in Hn as Hlt.
    assert (Hkeep : forall c y, h !! c = Some y ->
              exists y', (<[p := set_children (children n ++ [length h]) n]>
                            (h ++ [mkNode nm (Some p) [] []])) !! c
                         = Some y' /\ parent y' = parent y).
    { intros c y Hy. destruct (decide (p = c)) as [<-|Hne].
      - eexists. split.
        + apply list_lookup_insert_eq. rewrite length_app. simpl. lia.
        + simpl. congruence.
      - exists y. split; [|reflexivity].
        rewrite list_lookup_insert_ne by assumption.
        now apply lookup_app_l_Some. }
    assert (Hold : forall q m, h !! q = Some m ->
              Forall (fun c => exists y,
                (<[p := set_children (children n ++ [length h]) n]>
                   (h ++ [mkNode nm (Some p) [] []])) !! c = Some y /\
                parent y = Some q) (children m)).
    { intros q' m' Hq'. destruct (Hl q' m' Hq') as [_ Hback].
      eapply Forall_impl; [exact Hback|]. simpl.
      intros c (y & Hy & Hpar).
      destruct (Hkeep c y Hy) as (y' & Hy' & Hpar').
      exists y'. split; [exact Hy'|congruence]. }
    apply list_lookup_insert_Some in Hq as [(<- & <- & _)|[Hne Hq]].
    + simpl. destruct (Hl p n Hn) as [Hnd _]. split.
      * apply NoDup_app. repeat split; [exact Hnd| |apply NoDup_singleton].
        intros c Hc. rewrite list_elem_of_singleton. intros ->.
        pose proof (Hf p n Hn) as Hfw. rewrite Forall_forall in Hfw.
        specialize (Hfw _ Hc). lia.
      * apply Forall_app. split; [now apply Hold|].
        apply Forall_singleton. exists (mkNode nm (Some p) [] []).
        split; [|reflexivity].
        rewrite list_lookup_insert_ne by lia.
        apply list_lookup_middle. reflexivity.
    + apply lookup_snoc_Some in Hq as [[_ Hq]|[_ <-]];
        [|split; constructor].
      destruct (Hl q m Hq) as [Hnd _]. split; [exact Hnd|now apply Hold].
  - assert (Hkeep : forall c y, h !! c = Some y ->
              exists y', (<[p := set_properties ps n]> h) !! c = Some y' /\
                         parent y' = parent y).
    { intros c y Hy. destruct (decide (p = c)) as [<-|Hne].
      - eexists. split.
        + apply list_lookup_insert_eq. now apply lookup_lt_Some in Hn.
        + simpl. congruence.
      - exists y. split; [|reflexivity].
        now rewrite list_lookup_insert_ne. }
    assert (Hsame : exists m0, h !! q = Some m0 /\
                               children m0 = children m).
    { apply list_lookup_insert_Some in Hq as [(<- & <- & _)|[_ Hq]];
        eauto. }
    destruct Hsame as (m0 & Hm0 & <-).
    destruct (Hl q m0 Hm0) as [Hnd Hback]. split; [exact Hnd|].
    eapply Forall_impl; [exact Hback|]. simpl.
    intros c (y & Hy & Hpar).
    destruct (Hkeep c y Hy) as (y' & Hy' & Hpar').
    exists y'. split; [exact Hy'|congruence].
Qed.

Lemma qdt_new_node_effect h nm p h' :
  qdt_new_node h nm = Ret (p, h') -> effect h h'.
Proof.
  rewrite qdt_new_node_eq. destruct (strchr nm slash); [discriminate|].
  intros [= <- <-]. constructor.
Qed.

Lemma qdt_add_subnode_effect h node nm p h' :
  qdt_add_subnode h node nm = Ret (p, h') -> effect h h'.
Proof.
  rewrite qdt_add_subnode_eq. destruct (strchr nm slash); [discriminate|].
  destruct (h !! node) as [n|] eqn:Hn; [|discriminate].
  intros [= <- <-]. now constructor.
Qed.

Lemma qdt_delprop_effect h node nm h' :
  qdt_delprop h node nm = Ret h' -> effect h h'.
Proof.
  rewrite qdt_delprop_eq. destruct (h !! node) as [n|] eqn:Hn;
    [|discriminate].
  intros [= <-]. constructor; [assumption|]. apply NoDup_remove_named.
Qed.

Lemma qdt_setprop_effect h node nm v r h' :
  qdt_setprop h node nm v = Ret (r, h') -> effect h h'.
Proof.
  rewrite qdt_setprop_eq. destruct (h !! node) as [n|] eqn:Hn;
    [|discriminate].
  intros [= <- <-]. constructor; [assumption|]. apply setprop_list.
Qed.

Lemma exec_effect be (op : call) h h' :
  exec be op h = Ret h' -> rtc effect h h'.
Proof.
  destruct op; simpl; intros Hr;
    try (apply bind_Ret in Hr as ([r h1] & Hr & [= <-]); apply rtc_once).
  - eapply qdt_new_node_effect; eauto.
  - eapply qdt_add_subnode_effect; eauto.
  - eapply qdt_setprop_effect; eauto.
  - eapply qdt_setprop_effect; eauto.
  - eapply qdt_setprop_effect; eauto.
  - eapply qdt_setprop_effect; eauto.
  - unfold qdt_set_phandle, qdt_setprop_cells, qdt_setprop_cells_ in Hr.
    apply bind_Ret in Hr as (_ & _ & Hr).
    apply bind_Ret in Hr as ([r1 h1] & H1 & Hr).
    apply bind_Ret in Hr as ([r2 h2] & H2 & [= <-]).
    eapply rtc_l; [eapply qdt_setprop_effect; exact H1|].
    apply rtc_once. eapply qdt_setprop_effect; exact H2.
  - apply rtc_once. eapply qdt_delprop_effect; eauto.
Qed.

Lemma run_effect be (ops : list call) h h' :
  run be ops h = Ret h' -> rtc effect h h'.
Proof.
  revert h. induction ops as [|op ops IH]; simpl; intros h.
  - intros [= <-]. apply rtc_refl.
  - intros Hr. apply bind_Ret in Hr as (h1 & H1 & Hr).
    etrans; [eapply exec_effect; exact H1|]. now apply IH.
Qed.

Lemma effects_forward h h' : rtc effect h h' -> forward h -> forward h'.
Proof. induction 1; eauto using effect_forward. Qed.

Lemma effects_distinct h h' :
  rtc effect h h' -> distinct_props h -> distinct_props h'.
Proof. induction 1; eauto using effect_distinct. Qed.

Lemma effects_linked h h' :
  rtc effect h h' -> forward h -> linked h -> linked h'.
Proof.
  induction 1 as [|h h1 h2 He _ IH]; [auto|]. intros Hf Hl.
  apply IH; [eapply effect_forward|eapply effect_linked]; eauto.
Qed.

Lemma reachable_linked h : reachable h -> linked h.
Proof.
  intros (be & ops & Hr). apply run_effect in Hr.
  eapply effects_linked; [exact Hr|apply forward_nil|apply linked_nil].
Qed.

(** a node has at most one parent *)
Lemma linked_one_parent h p1 p2 n1 n2 c :
  linked h -> h !! p1 = Some n1 -> h !! p2 = Some n2 ->
  c ∈ children n1 -> c ∈ children n2 -> p1 = p2.
Proof.
  intros Hl H1 H2 Hc1 Hc2.
  destruct (Hl p1 n1 H1) as [_ Hb1]. destruct (Hl p2 n2 H2) as [_ Hb2].
  rewrite Forall_forall in Hb1, Hb2.
  destruct (Hb1 c Hc1) as (m1 & Hm1 & Hp1).
  destruct (Hb2 c Hc2) as (m2 & Hm2 & Hp2). congruence.
Qed.

Lemma reachable_shaped h : reachable h -> shaped h.
Proof.
  intros (be & ops & Hr). apply run_effect in Hr. split.
  - eapply effects_forward; [exact Hr|apply forward_nil].
  - eapply effects_distinct; [exact Hr|apply distinct_nil].
Qed.

End Invariants.

(** ** Flattening *)

Section FlattenFacts.

Context {fdt : Type} `{Libfdt fdt}.

Implicit Types (h : heap) (p c : ptr) (n : QDTNode) (t : tree).
Implicit Types (b : fdt) (cs : list fdt_call) (fuel k : nat).

Lemma run_calls_app cs1 cs2 b :
  run_calls (cs1 ++ cs2) b =
  match run_calls cs1 b with
  | (b', None) => run_calls cs2 b'
  | r => r
  end.
Proof.
  revert b. induction cs1 as [|c cs1 IH]; intros b; simpl; [reflexivity|].
  destruct (do_call c b) as [ret b']. destruct (ret <? 0); auto.
Qed.

Lemma run_calls_app_ok cs1 cs2 b :
  snd (run_calls (cs1 ++ cs2) b) = None ->
  exists b', run_calls cs1 b = (b', None) /\ snd (run_calls cs2 b') = None.
Proof.
  rewrite run_calls_app. destruct (run_calls cs1 b) as [b' [e|]]; simpl;
    [discriminate|eauto].
Qed.

Lemma flatten_properties_eq b ps :
  flatten_properties b ps = run_calls (map property_call ps) b.
Proof.
  revert b. induction ps as [|q ps IH]; intros b; simpl; [reflexivity|].
  destruct (fdt_property b (prop_name q) (val q) (len q)) as [ret b'].
  destruct (ret <? 0); auto.
Qed.

Lemma flatten_children_eq (rec : fdt -> ptr -> flat) b (ps : list ptr) ts :
  Forall2 (fun c t => forall b, rec b c = Some (Ret (run_calls (emission t) b)))
    ps ts ->
  flatten_children rec b ps =
  Some (Ret (run_calls (flat_map emission ts) b)).
Proof.
  intros HF. revert b. induction HF as [|c t ps ts Hc _ IH]; intros b;
    simpl; [reflexivity|].
  rewrite Hc, run_calls_app.
  destruct (run_calls (emission t) b) as [b' [e|]]; simpl; auto.
Qed.

(** with a budget that covers the tree, the traversal is the preorder
    emission, fed to the encoder until a call fails *)
Lemma flatten_node_eq k :
  forall h p t, tree_of k h p = Some t ->
  forall fuel b, (height t <= fuel)%nat ->
  qdt_flatten_node fuel h b p = Some (Ret (run_calls (emission t) b)).
Proof.
  induction k as [|k IH]; intros h p t Ht fuel b Hfuel; simpl in Ht;
    [discriminate|].
  destruct (h !! p) as [n|] eqn:Hp; [|discriminate].
  destruct (mapM (tree_of k h) (children n)) as [ts|] eqn:Hts;
    [|discriminate].
  injection Ht as <-. apply mapM_Some_1 in Hts.
  destruct fuel as [|fuel]; [simpl in Hfuel; lia|].
  cbn [height] in Hfuel. apply le_S_n in Hfuel.
  assert (Hkids : Forall2 (fun c t => forall b,
            qdt_flatten_node fuel h b c =
            Some (Ret (run_calls (emission t) b))) (children n) ts).
  { clear Hp. induction Hts as [|c t cs ts Hc _ IHts]; constructor.
    - intros b'. apply IH; [exact Hc|]. simpl in Hfuel. lia.
    - apply IHts. simpl in Hfuel. lia. }
  cbn [qdt_flatten_node emission run_calls do_call].
  unfold deref. rewrite Hp.
  destruct (fdt_begin_node b (name n)) as [ret b1].
  destruct (ret <? 0); [reflexivity|].
  rewrite flatten_properties_eq, run_calls_app.
  destruct (run_calls (map property_call (properties n)) b1) as [b2 [e|]];
    [reflexivity|]. cbn [and_then].
  rewrite (flatten_children_eq _ _ _ ts Hkids), run_calls_app.
  destruct (run_calls (flat_map emission ts) b2) as [b3 [e|]];
    [reflexivity|]. cbn [and_then run_calls do_call].
  destruct (fdt_end_node b3) as [ret' b4]. now destruct (ret' <? 0).
Qed.

(** a complete traversal needs a budget as large as the tree is deep *)
Lemma flatten_node_starved k :
  forall h p t, tree_of k h p = Some t ->
  forall fuel b, (fuel < height t)%nat ->
  snd (run_calls (emission t) b) = None ->
  qdt_flatten_node fuel h b p = None.
Proof.
  induction k as [|k IH]; intros h p t Ht fuel b Hfuel Hok; simpl in Ht;
    [discriminate|].
  destruct (h !! p) as [n|] eqn:Hp; [|discriminate].
  destruct (mapM (tree_of k h) (children n)) as [ts|] eqn:Hts;
    [|discriminate].
  injection Ht as <-. apply mapM_Some_1 in Hts.
  destruct fuel as [|fuel]; [reflexivity|].
  cbn [height] in Hfuel. apply Nat.succ_lt_mono in Hfuel.
  cbn [qdt_flatten_node]. unfold deref. rewrite Hp.
  cbn [emission run_calls do_call] in Hok.
  destruct (fdt_begin_node b (name n)) as [ret b1].
  destruct (ret <? 0); [discriminate|].
  apply run_calls_app_ok in Hok as (b2 & Hprops & Hok).
  rewrite flatten_properties_eq, Hprops. cbn [and_then].
  apply run_calls_app_ok in Hok as (b3 & Hkids & _).
  assert (Hk : snd (run_calls (flat_map emission ts) b2) = None)
    by now rewrite Hkids.
  assert (Hnone : flatten_children (qdt_flatten_node fuel h) b2
                    (children n) = None); [|now rewrite Hnone].
  clear Hp Hprops Hkids. revert b2 Hk.
  induction Hts as [|c t cs ts Hc Hts IHts]; intros b2 Hk;
    [simpl in Hfuel; lia|].
  cbn [flat_map] in Hk.
  apply run_calls_app_ok in Hk as (b' & Hone & Hrest).
  cbn [flatten_children].
  destruct (Nat.lt_ge_cases fuel (height t)) as [Hdeep|Hshallow].
  - rewrite (IH h c t Hc fuel b2 Hdeep) by now rewrite Hone.
    reflexivity.
  - rewrite (flatten_node_eq k h c t Hc fuel b2 Hshallow), Hone.
    cbn [and_then]. apply IHts; [|exact Hrest].
    simpl in Hfuel. lia.
Qed.

Lemma tree_of_exists h :
  forward h ->
  forall d p, (length h - p <= d)%nat -> (p < length h)%nat ->
  is_Some (tree_of d h p).
Proof.
  intros Hf. induction d as [|d IH]; intros p Hd Hp; [lia|].
  simpl. apply lookup_lt_is_Some in Hp as Hn. destruct Hn as [n Hn].
  rewrite Hn.
  assert (Hkids : is_Some (mapM (tree_of d h) (children n))).
  { apply mapM_is_Some_2. eapply Forall_impl; [exact (Hf p n Hn)|].
    intros c Hc. simpl in Hc. apply IH; lia. }
  destruct Hkids as [ts ->]. eauto.
Qed.

Lemma represents_exists h p :
  forward h -> (p < length h)%nat -> exists t, represents h p t.
Proof.
  intros Hf Hp.
  destruct (tree_of_exists h Hf (length h - p) p) as [t Ht]; [lia..|].
  exists t. eexists. exact Ht.
Qed.

(** *** What the encoder sees *)

Lemma do_call_journal (c : fdt_call) b (log : list fdt_call) :
  do_call (H := journal) c (b, log) =
  let '(ret, b') := do_call c b in (ret, (b', log ++ [c])).
Proof. destruct c; reflexivity. Qed.

Lemma run_calls_journal cs b (log : list fdt_call) :
  run_calls (H := journal) cs (b, log) =
  ((fst (run_calls cs b), log ++ issued cs b), snd (run_calls cs b)).
Proof.
  revert b log. induction cs as [|c cs IH]; intros b log; simpl.
  - now rewrite app_nil_r.
  - rewrite do_call_journal. destruct (do_call c b) as [ret b'].
    destruct (ret <? 0); [reflexivity|].
    rewrite IH, <- app_assoc. reflexivity.
Qed.

Lemma issued_complete cs b :
  snd (run_calls cs b) = None -> issued cs b = cs.
Proof.
  revert b. induction cs as [|c cs IH]; intros b; simpl; [reflexivity|].
  destruct (do_call c b) as [ret b']. destruct (ret <? 0);
    [discriminate|].
  intros Hok. now rewrite IH.
Qed.

(** a failed run stops right behind the call that failed, and the error
    names that call *)
Lemma run_calls_failure cs b b' e :
  run_calls cs b = (b', Some e) ->
  exists pre (c : fdt_call) post b1 ret,
    cs = pre ++ c :: post /\ run_calls pre b = (b1, None) /\
    do_call c b1 = (ret, b') /\ ret < 0 /\
    e = error_setg (call_name c) ret /\ issued cs b = pre ++ [c].
Proof.
  revert b. induction cs as [|c cs IH]; intros b; simpl; [discriminate|].
  destruct (do_call c b) as [ret b1] eqn:Hc.
  destruct (Z.ltb_spec ret 0) as [Hneg|Hpos].
  - intros [= <- <-]. exists [], c, cs, b, ret. simpl. auto 10.
  - intros Hr.
    destruct (IH _ Hr) as (pre & c' & post & b2 & ret' & -> & Hpre & Hc'
                           & Hneg & -> & Hiss).
    exists (c :: pre), c', post, b2, ret'. simpl. rewrite Hc.
    destruct (Z.ltb_spec ret 0); [lia|]. rewrite Hiss. auto 10.
Qed.

End FlattenFacts.

(** * The specification, claim by claim *)

(** ** Node store and path resolution *)

(** C8.  [qdt_new_node] fails its assertion exactly when the name contains
    the separator '/'.  Otherwise it returns a fresh node that carries the
    name and has no parent, no property and no child, every other node being
    left as it was.  [qdt_add_subnode] obtains its node from [qdt_new_node],
    hence fails on the same names; on a live parent it records the parent in
    the new node and links the new node at the tail of the parent's child
    list: afterwards the parent has its old children followed by the new
    node, and its name, parent and properties are as before. *)
Theorem qdt_new_node_separator (h : heap) (nm : string) :
  (qdt_new_node h nm = Abort <-> contains slash nm) /\
  (~ contains slash nm ->
   qdt_new_node h nm = Ret (length h, h ++ [mkNode nm None [] []])) /\
  (forall p, contains slash nm -> qdt_add_subnode h p nm = Abort) /\
  (forall p n, ~ contains slash nm -> h !! p = Some n ->
   exists child h1 h',
     qdt_new_node h nm = Ret (child, h1) /\
     qdt_add_subnode h p nm = Ret (child, h') /\
     length h' = S (length h) /\
     h' !! child = Some (mkNode nm (Some p) [] []) /\
     child = length h /\
     h' !! p = Some (mkNode (name n) (parent n) (properties n)
                       (children n ++ [child])) /\
     (forall q, q <> p -> q <> child -> h' !! q = h !! q)).
Proof.
  rewrite qdt_new_node_eq. repeat split.
  - destruct (strchr nm slash) eqn:Hs; [|discriminate].
    intros _. apply strchr_is_Some. rewrite Hs. eauto.
  - intros Hc. apply strchr_is_Some in Hc as [k ->]. reflexivity.
  - intros Hn. apply strchr_None in Hn. now rewrite Hn.
  - intros p Hc. rewrite qdt_add_subnode_eq.
    apply strchr_is_Some in Hc as [k ->]. reflexivity.
  - intros p n Hn Hp. rewrite qdt_add_subnode_eq.
    apply strchr_None in Hn. rewrite Hn, Hp.
    apply lookup_lt_Some in Hp as Hlt.
    eexists _, _, _. repeat split.
    + rewrite length_insert, length_app. simpl. lia.
    + rewrite list_lookup_insert_ne by lia.
      apply list_lookup_middle. reflexivity.
    + change (mkNode (name n) (parent n) (properties n)
                (children n ++ [length h]))
        with (set_children (children n ++ [length h]) n).
      apply list_lookup_insert_eq. rewrite length_app. simpl. lia.
    + intros q Hqp Hqc. rewrite list_lookup_insert_ne by auto.
      destruct (Nat.lt_ge_cases q (length h)) as [Hq|Hq].
      * now apply lookup_app_l.
      * rewrite (lookup_ge_None_2 h) by assumption.
        apply lookup_ge_None_2. rewrite length_app. simpl. lia.
Qed.

Lemma qdt_new_node_separator_witness :
  qdt_new_node [] "soc/uart" = Abort /\
  qdt_new_node [] "soc" = Ret (0%nat, [mkNode "soc" None [] []]) /\
  qdt_add_subnode [mkNode "" None [] []] 0%nat "soc/uart" = Abort /\
  exists child h1 h',
    qdt_new_node Sample.board "chosen" = Ret (child, h1) /\
    qdt_add_subnode Sample.board 0%nat "chosen" = Ret (child, h') /\
    length h' = 5%nat /\
    h' !! child = Some (mkNode "chosen" (Some 0%nat) [] []) /\
    child = 4%nat /\
    h' !! 0%nat =
      Some (mkNode "" None [mkProp "model" [113; 100; 116; 0]]
              [1%nat; 3%nat; 4%nat]).
Proof.
  pose proof (qdt_new_node_separator [] "soc/uart") as (Ha & _ & _ & _).
  pose proof (qdt_new_node_separator [] "soc") as (_ & Hb & _ & _).
  pose proof (qdt_new_node_separator [mkNode "" None [] []] "soc/uart")
    as (_ & _ & Hc & _).
  pose proof (qdt_new_node_separator Sample.board "chosen")
    as (_ & _ & _ & Hd).
  split; [|split; [|split]].
  - apply Ha. unfold contains. simpl. tauto.
  - apply Hb. unfold contains, slash. simpl.
    intros [|[|[|[]]]]; discriminate.
  - apply Hc. unfold contains. simpl. tauto.
  - assert (Hns : ~ contains slash "chosen").
    { unfold contains, slash. simpl.
      intros [|[|[|[|[|[|[]]]]]]]; discriminate. }
    destruct (Hd 0%nat _ Hns eq_refl)
      as (child & h1 & h' & H1 & H2 & H3 & H4 & H5 & H6 & _).
    exists child, h1, h'. rewrite H5 in H6. auto 10.
Defined.

(** C4.  On a heap without dangling child pointers, [qdt_get_node_relative]
    walks the path one separator-delimited segment at a time, each time
    taking the first child whose name is exactly the segment: the result is
    [resolve] over the segments.  A matched segment carries the search on
    from the child with the rest of the path; an unmatched one ends it with
    not-found whatever follows; a trailing separator makes the last lookup
    ask for the empty name. *)
Theorem qdt_get_node_relative_segments (h : heap) (node : ptr)
    (path : string) :
  closed h -> is_Some (h !! node) ->
  qdt_get_node_relative h node path = Ret (resolve h node (segments path)) /\
  (forall seg rest, path = seg +:+ String slash rest ->
     ~ contains slash seg ->
     match lookup_child h node seg with
     | Some c =>
         qdt_get_node_relative h node path = qdt_get_node_relative h c rest
     | None => qdt_get_node_relative h node path = Ret None
     end) /\
  (~ contains slash path ->
     qdt_get_node_relative h node path = Ret (lookup_child h node path)) /\
  (forall p, path = p +:+ "/" ->
     qdt_get_node_relative h node path =
     Ret (match resolve h node (segments p) with
          | Some n => lookup_child h n ""
          | None => None
          end)) /\
  (forall seg c, lookup_child h node seg = Some c ->
     exists n pre post m,
       h !! node = Some n /\ children n = pre ++ c :: post /\
       h !! c = Some m /\ name m = seg /\
       Forall (fun x => exists y, h !! x = Some y /\ name y <> seg) pre).
Proof.
  intros Hc Hn.
  assert (Hres : forall q, qdt_get_node_relative h node q =
                           Ret (resolve h node (segments q))).
  { intros q. now apply (relative_resolve h Hc (strlen q)). }
  repeat split.
  - apply Hres.
  - intros seg rest -> Hs. rewrite relative_continue by assumption.
    now destruct (lookup_child h node seg).
  - intros Hs. now apply relative_last.
  - intros p ->. now rewrite Hres, segments_trailing, resolve_snoc.
  - intros seg c Hl. unfold lookup_child in Hl.
    destruct (h !! node) as [n|]; [|discriminate].
    apply child_named_Some in Hl as (pre & post & m & ? & ? & ? & ?).
    eauto 10.
Qed.

Lemma board_closed : closed Sample.board.
Proof. repeat constructor. Defined.

Lemma qdt_get_node_relative_segments_witness :
  closed Sample.board /\ is_Some (Sample.board !! 0%nat) /\
  qdt_get_node_relative Sample.board 0%nat "cpus/cpu@0" =
  Ret (resolve Sample.board 0%nat ["cpus"; "cpu@0"]) /\
  qdt_get_node_relative Sample.board 0%nat "cpus/cpu@0" = Ret (Some 2%nat).
Proof.
  assert (Hl : is_Some (Sample.board !! 0%nat)) by (eexists; reflexivity).
  split; [exact board_closed|]. split; [exact Hl|].
  pose proof (qdt_get_node_relative_segments Sample.board 0%nat "cpus/cpu@0"
                board_closed Hl) as (Hr & _).
  split; exact Hr.
Defined.

Lemma child_named_unnamed (h : heap) (cs : list ptr) (seg : string) :
  Forall (fun x => exists m, h !! x = Some m /\ name m <> seg) cs ->
  child_named h cs seg = None.
Proof.
  induction 1 as [|x cs (m & Hm & Hne) _ IH]; simpl; [reflexivity|].
  rewrite Hm. now destruct (String.eqb_spec (name m) seg).
Qed.

Lemma board_reachable : reachable Sample.board.
Proof. exists false, Sample.program. reflexivity. Defined.

(** C10.  For a root without parent, [qdt_get_node (root, "/")] strips the
    separator and is left with the empty path: it searches the children of
    the root for one whose name is empty.  As children are distinct from
    their parent the root itself is never returned, and not-found is
    returned whenever no child has the empty name, as in a tree that was
    just created. *)
Theorem qdt_get_node_root_path (h : heap) (root : ptr) (r : QDTNode) :
  reachable h -> h !! root = Some r -> parent r = None ->
  qdt_get_node h root "/" = Ret (lookup_child h root "") /\
  qdt_get_node h root "/" <> Ret (Some root) /\
  (Forall (fun c => exists m, h !! c = Some m /\ name m <> "") (children r) ->
   qdt_get_node h root "/" = Ret None) /\
  (forall h0 fresh h1, qdt_new_tree h0 = Ret (fresh, h1) ->
   qdt_get_node h1 fresh "/" = Ret None).
Proof.
  intros Hr Hroot Hpar. apply reachable_shaped in Hr as [Hf _].
  assert (Hget : qdt_get_node h root "/" = Ret (lookup_child h root "")).
  { unfold qdt_get_node. rewrite (deref_Some _ _ _ Hroot). simpl.
    rewrite Hpar. simpl.
    apply relative_last; [now apply forward_closed|eauto|intros []]. }
  repeat split.
  - exact Hget.
  - rewrite Hget. intros [= Hl]. unfold lookup_child in Hl.
    rewrite Hroot in Hl.
    apply child_named_Some in Hl as (pre & post & m & Hcs & _).
    pose proof (Hf root r Hroot) as Hfw. rewrite Hcs in Hfw.
    apply Forall_app in Hfw as [_ Hfw]. inversion Hfw; subst. lia.
  - intros Hnone. rewrite Hget. unfold lookup_child. rewrite Hroot.
    now rewrite child_named_unnamed.
  - intros h0 fresh h1. unfold qdt_new_tree. rewrite qdt_new_node_eq. simpl.
    intros [= <- <-]. unfold qdt_get_node.
    rewrite (deref_Some _ _ (mkNode "" None [] []))
      by (apply list_lookup_middle; reflexivity). simpl.
    rewrite qdt_get_node_relative_step. simpl. unfold get_subnode. simpl.
    rewrite (deref_Some _ _ (mkNode "" None [] []))
      by (apply list_lookup_middle; reflexivity). reflexivity.
Qed.

Lemma qdt_get_node_root_path_witness :
  reachable Sample.board /\
  Sample.board !! 0%nat =
    Some (mkNode "" None [mkProp "model" [113; 100; 116; 0]]
            [1%nat; 3%nat]) /\
  qdt_get_node Sample.board 0%nat "/" <> Ret (Some 0%nat).
Proof.
  split; [exact board_reachable|]. split; [reflexivity|].
  exact (proj1 (proj2 (qdt_get_node_root_path Sample.board 0%nat _
                         board_reachable eq_refl eq_refl))).
Defined.

(** ** Property store *)

Lemma remove_named_snoc_same (nm : string) (v : list Z)
    (ps : list QDTProperty) :
  nm ∉ names ps -> remove_named nm (ps ++ [mkProp nm v]) = ps.
Proof.
  unfold names. induction ps as [|p ps IH]; simpl; intros Hn.
  - now rewrite String.eqb_refl.
  - apply not_elem_of_cons in Hn as [Hp Hps].
    destruct (String.eqb_spec (prop_name p) nm); [congruence|].
    now rewrite IH.
Qed.

Lemma remove_named_snoc_other (nm : string) (q : QDTProperty)
    (ps : list QDTProperty) :
  prop_name q <> nm ->
  remove_named nm (ps ++ [q]) = remove_named nm ps ++ [q].
Proof.
  intros Hq. induction ps as [|p ps IH]; simpl.
  - now destruct (String.eqb_spec (prop_name q) nm).
  - destruct (String.eqb (prop_name p) nm); [reflexivity|].
    now rewrite IH.
Qed.

(** C3.  Setting the same name twice on a node of an API-built heap leaves
    exactly one property of that name; it holds the second value and is the
    last of the node's property list, hence the last property record that
    flattening emits for the node.  The properties of other names keep their
    order in front of it. *)
Theorem qdt_setprop_twice (h : heap) (node : ptr) (n : QDTNode)
    (nm : string) (b1 b2 : list Z) :
  reachable h -> h !! node = Some n ->
  exists h1 h2 n2,
    qdt_setprop h node nm b1 = Ret (mkProp nm b1, h1) /\
    qdt_setprop h1 node nm b2 = Ret (mkProp nm b2, h2) /\
    h2 !! node = Some n2 /\
    named nm (properties n2) = [mkProp nm b2] /\
    last (properties n2) = Some (mkProp nm b2) /\
    properties n2 = remove_named nm (properties n) ++ [mkProp nm b2] /\
    last (map property_call (properties n2)) =
      Some (Property nm b2 (length b2)) /\
    qdt_getprop h2 node nm = Ret (Some (mkProp nm b2)).
Proof.
  intros Hr Hn. apply reachable_shaped in Hr as [_ Hd].
  pose proof (Hd node n Hn) as Hnd.
  apply lookup_lt_Some in Hn as Hlt.
  set (ps1 := remove_named nm (properties n) ++ [mkProp nm b1]).
  set (h1 := <[node := set_properties ps1 n]> h).
  assert (H1 : h1 !! node = Some (set_properties ps1 n))
    by now apply list_lookup_insert_eq.
  destruct (setprop_list nm b1 (properties n) Hnd) as (Hnd1 & _ & _).
  fold ps1 in Hnd1.
  destruct (setprop_list nm b2 ps1 Hnd1) as (Hnd2 & Hnamed & Hlast).
  set (ps2 := remove_named nm ps1 ++ [mkProp nm b2]) in *.
  exists h1, (<[node := set_properties ps2 (set_properties ps1 n)]> h1),
    (set_properties ps2 (set_properties ps1 n)).
  repeat split.
  - rewrite qdt_setprop_eq, Hn. reflexivity.
  - rewrite qdt_setprop_eq, H1. reflexivity.
  - apply list_lookup_insert_eq. unfold h1. now rewrite length_insert.
  - exact Hnamed.
  - exact Hlast.
  - simpl. unfold ps2, ps1. rewrite remove_named_snoc_same; [reflexivity|].
    now apply remove_named_gone.
  - simpl. unfold ps2. rewrite map_app. apply last_snoc.
  - rewrite qdt_getprop_eq, list_lookup_insert_eq
      by (unfold h1; now rewrite length_insert).
    simpl. now rewrite Hnamed.
Qed.

Lemma qdt_setprop_twice_witness :
  reachable Sample.board /\
  Sample.board !! 2%nat =
    Some (mkNode "cpu@0" (Some 1%nat) [mkProp "reg" [0; 0; 0; 0]] []) /\
  exists h1 h2 n2,
    qdt_setprop Sample.board 2%nat "reg" [1] = Ret (mkProp "reg" [1], h1) /\
    qdt_setprop h1 2%nat "reg" [2; 3] = Ret (mkProp "reg" [2; 3], h2) /\
    h2 !! 2%nat = Some n2 /\
    named "reg" (properties n2) = [mkProp "reg" [2; 3]] /\
    last (properties n2) = Some (mkProp "reg" [2; 3]).
Proof.
  split; [exact board_reachable|]. split; [reflexivity|].
  destruct (qdt_setprop_twice Sample.board 2%nat _ "reg" [1] [2; 3]
              board_reachable eq_refl)
    as (h1 & h2 & n2 & Ha & Hb & Hc & Hd & He & _).
  exists h1, h2, n2. auto.
Defined.

(** C7.  Property names are pairwise distinct within every node: a new node
    has no property, each operation of the API hands back a heap with
    distinct names if it was given one, and so no program over the API,
    started from nothing, ever builds a node holding two properties of the
    same name. *)
Theorem properties_pairwise_distinct :
  (forall h nm p h', qdt_new_node h nm = Ret (p, h') ->
     exists n, h' !! p = Some n /\ properties n = []) /\
  (forall be op h h',
     distinct_props h -> exec be op h = Ret h' -> distinct_props h') /\
  (forall be ops h,
     run be ops [] = Ret h ->
     forall p n, h !! p = Some n -> NoDup (names (properties n))).
Proof.
  repeat split.
  - intros h nm p h'. rewrite qdt_new_node_eq.
    destruct (strchr nm slash); [discriminate|]. intros [= <- <-].
    eexists. split; [apply list_lookup_middle; reflexivity|reflexivity].
  - intros be op h h' Hd He. eapply effects_distinct; [|exact Hd].
    eapply exec_effect. exact He.
  - intros be ops h Hr. eapply effects_distinct; [|apply distinct_nil].
    eapply run_effect. exact Hr.
Qed.

Lemma properties_pairwise_distinct_witness :
  run false Sample.program [] = Ret Sample.board /\
  NoDup (names [mkProp "model" [113; 100; 116; 0]]).
Proof.
  split; [reflexivity|].
  exact (proj2 (proj2 properties_pairwise_distinct) false Sample.program
           Sample.board eq_refl 0%nat _ eq_refl).
Defined.

Lemma qdt_setprop_cells_eq (be : bool) (h : heap) (node : ptr) (nm : string)
    (vs : list Z) :
  qdt_setprop_cells_ be h node nm vs =
  qdt_setprop h node nm (flat_map (big_endian 4) vs).
Proof. unfold qdt_setprop_cells_. now rewrite cells_bytes. Qed.

Lemma qdt_setprop_u64s_eq (be : bool) (h : heap) (node : ptr) (nm : string)
    (vs : list Z) :
  qdt_setprop_u64s_ be h node nm vs =
  qdt_setprop h node nm (flat_map (big_endian 8) vs).
Proof. unfold qdt_setprop_u64s_. now rewrite u64s_bytes. Qed.

Lemma flat_map_one {A B} (f : A -> list B) (a : A) : flat_map f [a] = f a.
Proof. simpl. apply app_nil_r. Qed.

(** C5.  [qdt_setprop_cells_] hands [qdt_setprop] the concatenation, in
    sequence order, of the 4-byte big-endian encodings of its values, and
    [qdt_setprop_u64s_] that of the 8-byte big-endian encodings, on a
    big-endian and on a little-endian host alike: 4, respectively 8, bytes
    per value, which end up in the last property of a live node. *)
Theorem qdt_setprop_cells_big_endian (be : bool) (h : heap) (node : ptr)
    (nm : string) (vs : list Z) :
  qdt_setprop_cells_ be h node nm vs =
    qdt_setprop h node nm (flat_map (big_endian 4) vs) /\
  qdt_setprop_u64s_ be h node nm vs =
    qdt_setprop h node nm (flat_map (big_endian 8) vs) /\
  length (flat_map (big_endian 4) vs) = (4 * length vs)%nat /\
  length (flat_map (big_endian 8) vs) = (8 * length vs)%nat /\
  match h !! node with
  | Some n =>
      exists h4 n4 h8 n8,
        qdt_setprop_cells_ be h node nm vs =
          Ret (mkProp nm (flat_map (big_endian 4) vs), h4) /\
        h4 !! node = Some n4 /\
        last (properties n4) = Some (mkProp nm (flat_map (big_endian 4) vs)) /\
        qdt_setprop_u64s_ be h node nm vs =
          Ret (mkProp nm (flat_map (big_endian 8) vs), h8) /\
        h8 !! node = Some n8 /\
        last (properties n8) = Some (mkProp nm (flat_map (big_endian 8) vs))
  | None =>
      qdt_setprop_cells_ be h node nm vs = Wild /\
      qdt_setprop_u64s_ be h node nm vs = Wild
  end.
Proof.
  pose proof (qdt_setprop_cells_eq be h node nm vs) as H4.
  pose proof (qdt_setprop_u64s_eq be h node nm vs) as H8.
  split; [exact H4|]. split; [exact H8|].
  split; [apply flat_map_length_const, big_endian_length|].
  split; [apply flat_map_length_const, big_endian_length|].
  rewrite H4, H8, !qdt_setprop_eq.
  destruct (h !! node) as [n|] eqn:Hn; [|split; reflexivity].
  apply lookup_lt_Some in Hn.
  eexists _, _, _, _. repeat split.
  - now apply list_lookup_insert_eq.
  - apply last_snoc.
  - now apply list_lookup_insert_eq.
  - apply last_snoc.
Qed.

Lemma uint32_t_range (v : Z) : 0 <= v < 2 ^ 32 -> uint32_t v = v.
Proof. intros Hv. unfold uint32_t. now apply Z.mod_small. Qed.

Lemma uint32_t_idem (z : Z) : uint32_t (uint32_t z) = uint32_t z.
Proof. unfold uint32_t. apply Z.mod_mod. lia. Qed.

Lemma qdt_set_phandle_converts (be : bool) (h : heap) (node : ptr) (z : Z) :
  qdt_set_phandle be h node z = qdt_set_phandle be h node (uint32_t z).
Proof. unfold qdt_set_phandle. now rewrite uint32_t_idem. Qed.

Lemma qdt_set_phandle_abort (be : bool) (h : heap) (node : ptr) (z : Z) :
  uint32_t z = 0 \/ uint32_t z = 4294967295 ->
  qdt_set_phandle be h node z = Abort.
Proof. unfold qdt_set_phandle. cbv zeta. intros [-> | ->]; reflexivity. Qed.

Lemma qdt_set_phandle_eq (be : bool) (h : heap) (node : ptr) (n : QDTNode)
    (z : Z) :
  h !! node = Some n -> uint32_t z <> 0 -> uint32_t z <> 4294967295 ->
  qdt_set_phandle be h node z =
  Ret (<[node := set_properties
                   (remove_named "phandle"
                      (remove_named "linux,phandle" (properties n))
                    ++ [mkProp "linux,phandle" (big_endian 4 (uint32_t z));
                        mkProp "phandle" (big_endian 4 (uint32_t z))]) n]> h).
Proof.
  intros Hn Hz Ho. apply lookup_lt_Some in Hn as Hlt.
  unfold qdt_set_phandle, qdt_setprop_cells. cbv zeta.
  destruct (Z.eqb_spec (uint32_t z) 0); [contradiction|].
  change (uint32_t (-1)) with 4294967295.
  destruct (Z.eqb_spec (uint32_t z) 4294967295); [contradiction|].
  cbn [negb andb g_assert bind].
  rewrite qdt_setprop_cells_eq, flat_map_one, qdt_setprop_eq, Hn.
  cbn [bind].
  rewrite qdt_setprop_cells_eq, flat_map_one, qdt_setprop_eq.
  rewrite list_lookup_insert_eq by assumption.
  cbn [bind properties set_properties].
  rewrite list_insert_insert_eq.
  rewrite remove_named_snoc_other by discriminate.
  rewrite <- app_assoc. reflexivity.
Qed.

(** C6.  The parameter of [qdt_set_phandle] is a [uint32_t].  For every
    32-bit value the assertion fails exactly for the two reserved values, 0
    and the all-ones value 0xFFFFFFFF.  For any other 32-bit value the call
    returns and replaces, on a node of an API-built heap, the properties
    "linux,phandle" and "phandle" by new ones at the end of the list: the
    node then has exactly one property of each name, each 4 bytes long and
    holding the big-endian encoding of the value, on either host byte
    order.  An argument of a wider or signed type is converted to
    [uint32_t] first, so that -1 is the all-ones value. *)
Theorem qdt_set_phandle_reserved (be : bool) (h : heap) (node : ptr)
    (n : QDTNode) (v : Z) :
  reachable h -> h !! node = Some n -> 0 <= v < 2 ^ 32 ->
  (qdt_set_phandle be h node v = Abort <-> v = 0 \/ v = 4294967295) /\
  (v <> 0 -> v <> 4294967295 ->
   exists h' n',
     qdt_set_phandle be h node v = Ret h' /\
     h' !! node = Some n' /\
     properties n' =
       remove_named "phandle" (remove_named "linux,phandle" (properties n))
       ++ [mkProp "linux,phandle" (big_endian 4 v);
           mkProp "phandle" (big_endian 4 v)] /\
     length (big_endian 4 v) = 4%nat /\
     named "phandle" (properties n') =
       [mkProp "phandle" (big_endian 4 v)] /\
     named "linux,phandle" (properties n') =
       [mkProp "linux,phandle" (big_endian 4 v)] /\
     qdt_getprop h' node "phandle" =
       Ret (Some (mkProp "phandle" (big_endian 4 v))) /\
     qdt_getprop h' node "linux,phandle" =
       Ret (Some (mkProp "linux,phandle" (big_endian 4 v)))) /\
  (forall z, uint32_t z = v ->
     qdt_set_phandle be h node z = qdt_set_phandle be h node v).
Proof.
  intros Hr Hn Hv. apply reachable_shaped in Hr as [_ Hd].
  pose proof (Hd node n Hn) as Hnd.
  apply lookup_lt_Some in Hn as Hlt.
  pose proof (uint32_t_range v Hv) as Hu.
  set (L := mkProp "linux,phandle" (big_endian 4 v)).
  set (P := mkProp "phandle" (big_endian 4 v)).
  set (base := remove_named "phandle"
                 (remove_named "linux,phandle" (properties n))).
  assert (Hrun : v <> 0 -> v <> 4294967295 ->
                 qdt_set_phandle be h node v =
                 Ret (<[node := set_properties (base ++ [L; P]) n]> h)).
  { intros Hz Ho.
    rewrite (qdt_set_phandle_eq be h node n v Hn) by now rewrite Hu.
    now rewrite Hu. }
  assert (HL : "linux,phandle" ∉ names base).
  { intros Hin. apply names_remove_named in Hin.
    now apply (remove_named_gone "linux,phandle" (properties n)). }
  assert (HP : "phandle" ∉ names base).
  { apply remove_named_gone. now apply NoDup_remove_named. }
  assert (HnP : named "phandle" (base ++ [L; P]) = [P]).
  { unfold named. rewrite filter_app.
    fold (named "phandle" base). now rewrite named_absent. }
  assert (HnL : named "linux,phandle" (base ++ [L; P]) = [L]).
  { unfold named. rewrite filter_app.
    fold (named "linux,phandle" base). now rewrite named_absent. }
  split; [|split].
  - split.
    + intros Ha. destruct (Z.eq_dec v 0) as [|Hz]; [now left|].
      destruct (Z.eq_dec v 4294967295) as [|Ho]; [now right|].
      rewrite Hrun in Ha by assumption. discriminate.
    + intros Hres. apply qdt_set_phandle_abort. now rewrite Hu.
  - intros Hz Ho. exists (<[node := set_properties (base ++ [L; P]) n]> h),
      (set_properties (base ++ [L; P]) n).
    assert (H2 : <[node := set_properties (base ++ [L; P]) n]> h !! node =
                 Some (set_properties (base ++ [L; P]) n))
      by now apply list_lookup_insert_eq.
    split; [now apply Hrun|]. split; [exact H2|].
    split; [reflexivity|]. split; [reflexivity|].
    split; [exact HnP|]. split; [exact HnL|]. split.
    + rewrite qdt_getprop_eq, H2. cbn [bind properties set_properties].
      now rewrite HnP.
    + rewrite qdt_getprop_eq, H2. cbn [bind properties set_properties].
      now rewrite HnL.
  - intros z <-. apply qdt_set_phandle_converts.
Qed.

Lemma qdt_set_phandle_reserved_witness :
  reachable Sample.board /\
  Sample.board !! 3%nat = Some (mkNode "memory" (Some 0%nat) [] []) /\
  qdt_set_phandle false Sample.board 3%nat 0 = Abort /\
  qdt_set_phandle true Sample.board 3%nat 4294967295 = Abort /\
  qdt_set_phandle true Sample.board 3%nat (-1) = Abort /\
  qdt_set_phandle true Sample.board 3%nat 4294967296 = Abort /\
  exists h' n',
    qdt_set_phandle false Sample.board 3%nat 5 = Ret h' /\
    h' !! 3%nat = Some n' /\
    properties n' = [mkProp "linux,phandle" [0; 0; 0; 5];
                     mkProp "phandle" [0; 0; 0; 5]].
Proof.
  pose proof (qdt_set_phandle_reserved true Sample.board 3%nat _ 0
                board_reachable eq_refl ltac:(lia)) as (Hz & _ & Hz').
  pose proof (qdt_set_phandle_reserved true Sample.board 3%nat _ 4294967295
                board_reachable eq_refl ltac:(lia)) as (Ho & _ & Ho').
  pose proof (qdt_set_phandle_reserved false Sample.board 3%nat _ 0
                board_reachable eq_refl ltac:(lia)) as (Hf & _ & _).
  pose proof (qdt_set_phandle_reserved false Sample.board 3%nat _ 5
                board_reachable eq_refl ltac:(lia)) as (_ & Hs & _).
  split; [exact board_reachable|]. split; [reflexivity|].
  split; [|split; [|split; [|split]]].
  - apply Hf. now left.
  - apply Ho. now right.
  - rewrite (Ho' (-1) eq_refl). apply Ho. now right.
  - rewrite (Hz' 4294967296 eq_refl). apply Hz. now left.
  - destruct Hs as (h' & n' & Ha & Hb & Hc & _); [discriminate..|].
    exists h', n'. auto.
Defined.

Lemma qdt_setprop_cells_big_endian_witness :
  exists h',
    qdt_setprop_cells_ false [mkNode "" None [] []] 0%nat "reg"
      [287454020; 1] =
    Ret (mkProp "reg" [17; 34; 51; 68; 0; 0; 0; 1], h').
Proof.
  eexists.
  rewrite (proj1 (qdt_setprop_cells_big_endian false [mkNode "" None [] []]
                    0%nat "reg" [287454020; 1])).
  reflexivity.
Defined.

(** ** Flattening *)

Lemma represents_inv (h : heap) (p : ptr) (t : tree) :
  represents h p t ->
  exists n ts,
    h !! p = Some n /\ t = Tree (name n) (properties n) ts /\
    Forall2 (represents h) (children n) ts.
Proof.
  intros [[|k] Hk]; simpl in Hk; [discriminate|].
  destruct (h !! p) as [n|]; [|discriminate].
  destruct (mapM (tree_of k h) (children n)) as [ts|] eqn:Hts;
    [|discriminate].
  injection Hk as <-. exists n, ts. repeat split.
  apply mapM_Some_1 in Hts. eapply Forall2_impl; [exact Hts|].
  intros c t Hc. now exists k.
Qed.

Lemma run_calls_quiet (cs : list fdt_call) :
  run_calls (H := Sample.quiet) cs tt = (tt, None).
Proof.
  induction cs as [|c cs IH]; simpl; [reflexivity|].
  now destruct c.
Qed.

Lemma issued_quiet (cs : list fdt_call) :
  issued (H := Sample.quiet) cs tt = cs.
Proof. apply issued_complete. now rewrite run_calls_quiet. Qed.

Section FlattenRuns.

Context {fdt : Type} (H : Libfdt fdt).

Lemma flatten_node_journal (h : heap) (p : ptr) (t : tree) (fuel : nat)
    (b : fdt) :
  represents h p t -> (height t <= fuel)%nat ->
  qdt_flatten_node (H := journal) fuel h (b, []) p =
  Some (Ret ((fst (run_calls (emission t) b), issued (emission t) b),
             snd (run_calls (emission t) b))).
Proof.
  intros [k Hk] Hfuel.
  rewrite (flatten_node_eq (H := journal) k h p t Hk fuel _ Hfuel).
  now rewrite run_calls_journal.
Qed.

Lemma qdt_flatten_eq (h : heap) (root : ptr) (r : QDTNode) (t : tree)
    (bufsize : Z) (fuel : nat) :
  h !! root = Some r -> parent r = None -> represents h root t ->
  (height t <= fuel)%nat ->
  qdt_flatten fuel h root bufsize =
  Some (Ret match run_calls (flatten_calls bufsize t) (g_malloc0 bufsize)
            with
            | (b, None) => mkFlattened (Some b) None false
            | (_, Some e) => fail e
            end).
Proof.
  intros Hroot Hpar [k Hk] Hfuel. unfold qdt_flatten, flatten_calls.
  rewrite (deref_Some _ _ _ Hroot), Hpar.
  cbn [bool_decide decide_rel run_calls do_call].
  rewrite bool_decide_eq_false_2 by (intros [? ?]; discriminate).
  destruct (fdt_create (g_malloc0 bufsize) bufsize) as [ret b1].
  destruct (ret <? 0); [reflexivity|].
  destruct (fdt_finish_reservemap b1) as [ret2 b2].
  destruct (ret2 <? 0); [reflexivity|].
  rewrite (flatten_node_eq k h root t Hk fuel b2 Hfuel), run_calls_app.
  destruct (run_calls (emission t) b2) as [b3 [e|]]; [reflexivity|].
  cbn [run_calls do_call].
  destruct (fdt_finish b3) as [ret3 b4]. now destruct (ret3 <? 0).
Qed.

End FlattenRuns.

Section FlattenClaims.

Context {fdt : Type} (H : Libfdt fdt).

(** C1.  On a node that heads a tree, [qdt_flatten_node] feeds the encoder
    the depth-first preorder emission of that tree: node-begin with the
    node's name, one property record for each property in list order, the
    emission of each child's subtree in child-list order, and node-end.
    The calls reach the encoder in that very order, none repeated or
    skipped, up to the first one that fails if one does; an encoder that
    accepts every call receives the whole emission. *)
Theorem qdt_flatten_node_preorder (h : heap) (p : ptr) (t : tree)
    (fuel : nat) (b : fdt) :
  represents h p t -> (height t <= fuel)%nat ->
  (exists n ts,
     h !! p = Some n /\ Forall2 (represents h) (children n) ts /\
     emission t =
       BeginNode (name n) :: map property_call (properties n)
         ++ flat_map emission ts ++ [EndNode]) /\
  qdt_flatten_node fuel h b p = Some (Ret (run_calls (emission t) b)) /\
  qdt_flatten_node (H := journal) fuel h (b, []) p =
    Some (Ret ((fst (run_calls (emission t) b), issued (emission t) b),
               snd (run_calls (emission t) b))) /\
  (snd (run_calls (emission t) b) = None ->
   issued (emission t) b = emission t) /\
  qdt_flatten_node (H := journal (H := Sample.quiet)) fuel h (tt, []) p =
    Some (Ret ((tt, emission t), None)).
Proof.
  intros Hrep Hfuel. repeat split.
  - destruct (represents_inv h p t Hrep) as (n & ts & Hn & -> & Hts).
    exists n, ts. auto.
  - destruct Hrep as [k Hk]. now apply (flatten_node_eq k).
  - now apply flatten_node_journal.
  - apply issued_complete.
  - rewrite (flatten_node_journal Sample.quiet h p t fuel tt Hrep Hfuel).
    now rewrite run_calls_quiet, issued_quiet.
Qed.

(** C2.  [qdt_flatten] on a parentless root issues fdt_create,
    fdt_finish_reservemap, the emission of the tree and fdt_finish.  If all
    succeed the buffer is returned, no error is set and nothing is freed.
    If any of them fails, no later call is issued, NULL is returned, the
    buffer is released and the error that is set reads
    "Error flattening device tree: <step>(): <reason>", where <step> is
    the libfdt function that failed and <reason> is what [fdt_strerror]
    makes of its status; whatever the reason, the message tells which
    step failed.  This holds in particular for a failure inside the
    traversal, after which neither a sibling nor a parent emits
    anything. *)
Theorem qdt_flatten_all_or_nothing (h : heap) (root : ptr) (r : QDTNode)
    (t : tree) (bufsize : Z) (fuel : nat) :
  h !! root = Some r -> parent r = None -> represents h root t ->
  (height t <= fuel)%nat ->
  let calls := flatten_calls bufsize t in
  let b0 := g_malloc0 bufsize in
  let step (c : fdt_call) : string :=
    match c with
    | Create _ => "fdt_create"
    | FinishReservemap => "fdt_finish_reservemap"
    | BeginNode _ => "fdt_begin_node"
    | Property _ _ _ => "fdt_property"
    | EndNode => "fdt_end_node"
    | Finish => "fdt_finish"
    end in
  let message (c : fdt_call) (ret : Z) : string :=
    "Error flattening device tree: " +:+ step c +:+ "(): "
    +:+ fdt_strerror ret in
  (forall b, run_calls calls b0 = (b, None) ->
     qdt_flatten fuel h root bufsize =
     Some (Ret (mkFlattened (Some b) None false))) /\
  (forall b e, run_calls calls b0 = (b, Some e) ->
     qdt_flatten fuel h root bufsize =
       Some (Ret (mkFlattened None (Some e) true)) /\
     exists pre c post b1 ret,
       calls = pre ++ c :: post /\ run_calls pre b0 = (b1, None) /\
       do_call c b1 = (ret, b) /\ ret < 0 /\
       e = error_setg (call_name c) ret /\
       error_get_pretty e = message c ret /\
       issued calls b0 = pre ++ [c]) /\
  (exists out,
     qdt_flatten fuel h root bufsize = Some (Ret out) /\
     (returned out = None <-> is_Some (errp out)) /\
     (returned out = None <-> freed out = true)) /\
  (forall b b' e, run_calls (emission t) b = (b', Some e) ->
     exists pre c post ret,
       emission t = pre ++ c :: post /\ ret < 0 /\
       e = error_setg (call_name c) ret /\
       error_get_pretty e = message c ret /\
       qdt_flatten_node (H := journal) fuel h (b, []) root =
         Some (Ret ((b', pre ++ [c]), Some e))) /\
  (forall c1 c2 ret1 ret2,
     message c1 ret1 = message c2 ret2 -> step c1 = step c2).
Proof.
  intros Hroot Hpar Hrep Hfuel calls b0 step message.
  pose proof (qdt_flatten_eq H h root r t bufsize fuel Hroot Hpar Hrep
                Hfuel) as Heq.
  fold calls b0 in Heq.
  assert (Hmsg : forall c ret,
            error_get_pretty (error_setg (call_name c) ret) =
            message c ret) by (intros [] ret; reflexivity).
  split; [|split; [|split; [|split]]].
  - intros b Hr. now rewrite Heq, Hr.
  - intros b e Hr. split; [now rewrite Heq, Hr|].
    apply run_calls_failure in Hr
      as (pre & c & post & b1 & ret & ? & ? & ? & ? & He & ?).
    exists pre, c, post, b1, ret.
    repeat (split; [assumption|]).
    split; [|assumption]. rewrite He. apply Hmsg.
  - rewrite Heq. destruct (run_calls calls b0) as [b [e|]].
    + eexists. split; [reflexivity|]. simpl. split; split; eauto.
    + eexists. split; [reflexivity|]. simpl.
      split; split; try discriminate. intros [? ?]. discriminate.
  - intros b b' e Hr.
    rewrite (flatten_node_journal H h root t fuel b Hrep Hfuel), Hr.
    apply run_calls_failure in Hr
      as (pre & c & post & b1 & ret & ? & ? & ? & ? & He & Hiss).
    exists pre, c, post, ret. rewrite Hiss.
    repeat (split; [assumption|]).
    split; [|reflexivity]. rewrite He. apply Hmsg.
  - intros c1 c2 ret1 ret2 Hm. unfold message, step in Hm.
    destruct c1, c2; try reflexivity; exfalso;
      cbv [String.append] in Hm; discriminate Hm.
Qed.

End FlattenClaims.

Lemma board_represents : represents Sample.board 0%nat Sample.board_tree.
Proof. exists 3%nat. reflexivity. Defined.

Lemma qdt_flatten_node_preorder_witness :
  represents Sample.board 0%nat Sample.board_tree /\
  (height Sample.board_tree <= 3)%nat /\
  qdt_flatten_node (H := Sample.tape) 3 Sample.board 100 0%nat =
    Some (Ret (90, None)) /\
  qdt_flatten_node (H := journal (H := Sample.tape)) 3 Sample.board
    (100, []) 0%nat =
    Some (Ret ((90, emission Sample.board_tree), None)).
Proof.
  assert (Hh : (height Sample.board_tree <= 3)%nat) by (simpl; lia).
  split; [exact board_represents|]. split; [exact Hh|].
  destruct (qdt_flatten_node_preorder Sample.tape Sample.board 0%nat
              Sample.board_tree 3 100 board_represents Hh)
    as (_ & Ha & Hb & _ & _).
  split; [exact Ha|exact Hb].
Defined.

Lemma qdt_flatten_all_or_nothing_witness :
  Sample.board !! 0%nat =
    Some (mkNode "" None [mkProp "model" [113; 100; 116; 0]]
            [1%nat; 3%nat]) /\
  represents Sample.board 0%nat Sample.board_tree /\
  (height Sample.board_tree <= 3)%nat /\
  qdt_flatten (H := Sample.tape) 3 Sample.board 0%nat 100 =
    Some (Ret (mkFlattened (Some 87) None false)) /\
  qdt_flatten (H := Sample.tape) 3 Sample.board 0%nat 0 =
    Some (Ret (mkFlattened None
                 (Some (mkError "Error flattening device tree: fdt_create(): FDT_ERR_NOSPACE"))
                 true)) /\
  qdt_flatten (H := Sample.tape) 3 Sample.board 0%nat 1 =
    Some (Ret (mkFlattened None
                 (Some (mkError "Error flattening device tree: fdt_finish_reservemap(): FDT_ERR_NOSPACE"))
                 true)) /\
  qdt_flatten (H := Sample.tape) 3 Sample.board 0%nat 3 =
    Some (Ret (mkFlattened None
                 (Some (mkError "Error flattening device tree: fdt_property(): FDT_ERR_NOSPACE"))
                 true)) /\
  qdt_flatten (H := Sample.tape) 3 Sample.board 0%nat 5 =
    Some (Ret (mkFlattened None
                 (Some (mkError "Error flattening device tree: fdt_begin_node(): FDT_ERR_NOSPACE"))
                 true)) /\
  qdt_flatten (H := Sample.tape) 3 Sample.board 0%nat 7 =
    Some (Ret (mkFlattened None
                 (Some (mkError "Error flattening device tree: fdt_end_node(): FDT_ERR_NOSPACE"))
                 true)) /\
  qdt_flatten (H := Sample.tape) 3 Sample.board 0%nat 12 =
    Some (Ret (mkFlattened None
                 (Some (mkError "Error flattening device tree: fdt_finish(): FDT_ERR_NOSPACE"))
                 true)).
Proof.
  assert (Hh : (height Sample.board_tree <= 3)%nat) by (simpl; lia).
  pose proof (fun bufsize =>
                proj1 (proj2 (qdt_flatten_all_or_nothing Sample.tape
                  Sample.board 0%nat _ Sample.board_tree bufsize 3 eq_refl
                  eq_refl board_represents Hh)) 0) as Hfail.
  split; [reflexivity|]. split; [exact board_represents|].
  split; [exact Hh|]. split.
  - apply (qdt_flatten_all_or_nothing Sample.tape Sample.board 0%nat _
             Sample.board_tree 100 3 eq_refl eq_refl board_represents Hh).
    reflexivity.
  - repeat split; apply Hfail; reflexivity.
Defined.

(** C9.  In a heap built through the API the child relation is a strict
    tree: children are younger than their parent, no parent lists a node
    twice and every listed node points back at the one parent that lists
    it.  Each node therefore heads a finite tree, and on it
    [qdt_flatten_node] returns: a recursion budget equal to
    the depth of the tree is enough whatever the encoder does, and the
    traversal uses exactly that depth when it runs to its end, as it does
    with an encoder that accepts every call. *)
Theorem qdt_flatten_node_terminates (h : heap) (p : ptr) :
  reachable h -> (p < length h)%nat ->
  (forward h /\ linked h) /\
  (exists t, represents h p t) /\
  (forall t, represents h p t ->
   recursion_depth (H := Sample.quiet) h tt p (height t) /\
   forall (fdt : Type) (H : Libfdt fdt) (b : fdt),
     (forall fuel, (height t <= fuel)%nat ->
        exists out, qdt_flatten_node fuel h b p = Some (Ret out)) /\
     (snd (run_calls (emission t) b) = None ->
        recursion_depth h b p (height t))).
Proof.
  intros Hr Hp. pose proof (reachable_linked h Hr) as Hl.
  apply reachable_shaped in Hr as [Hf _]. split; [now split|]. split.
  - now apply represents_exists.
  - intros t [k Hk].
    assert (Hdepth : forall (fdt : Type) (H : Libfdt fdt) (b : fdt),
              snd (run_calls (emission t) b) = None ->
              recursion_depth h b p (height t)).
    { intros fdt H b Hok. split.
      - rewrite (flatten_node_eq k h p t Hk (height t) b (le_n _)).
        discriminate.
      - intros d Hd. now apply (flatten_node_starved k h p t). }
    split.
    + apply Hdepth. now rewrite run_calls_quiet.
    + intros fdt H b. split; [|apply Hdepth].
      intros fuel Hfuel. eexists.
      exact (flatten_node_eq k h p t Hk fuel b Hfuel).
Qed.

Lemma qdt_flatten_node_terminates_witness :
  reachable Sample.board /\ (0 < length Sample.board)%nat /\
  (exists out,
     qdt_flatten_node (H := Sample.tape) 3 Sample.board 2 0%nat =
     Some (Ret out)) /\
  recursion_depth (H := Sample.tape) Sample.board 100 0%nat 3.
Proof.
  assert (Hl : (0 < length Sample.board)%nat) by (simpl; lia).
  split; [exact board_reachable|]. split; [exact Hl|].
  pose proof (proj2 (proj2 (proj2 (qdt_flatten_node_terminates Sample.board
                                     0%nat board_reachable Hl))
                       Sample.board_tree board_represents) Z Sample.tape)
    as Ht.
  split.
  - apply (proj1 (Ht 2) 3%nat). simpl. lia.
  - apply (proj2 (Ht 100)). reflexivity.
Defined.

(** * Further properties of the code *)

(** ** Property store *)

Lemma named_remove_named_other (nm nm' : string) (ps : list QDTProperty) :
  nm' <> nm -> named nm' (remove_named nm ps) = named nm' ps.
Proof.
  intros Hne. unfold named. induction ps as [|p ps IH]; simpl; [reflexivity|].
  destruct (String.eqb_spec (prop_name p) nm) as [He|Hn].
  - rewrite filter_cons, decide_False by congruence. reflexivity.
  - rewrite !filter_cons. destruct (decide (prop_name p = nm')); now rewrite IH.
Qed.

Lemma named_snoc_other (nm nm' : string) (v : list Z)
    (ps : list QDTProperty) :
  nm' <> nm -> named nm' (ps ++ [mkProp nm v]) = named nm' ps.
Proof.
  intros Hne. unfold named. rewrite filter_app, filter_cons.
  rewrite decide_False by (simpl; congruence). apply app_nil_r.
Qed.

Lemma named_head_absent (nm : string) (ps : list QDTProperty) :
  nm ∉ names ps <-> head (named nm ps) = None.
Proof.
  unfold names, named. induction ps as [|p ps IH]; simpl.
  - split; [reflexivity|]. intros _ Hin. inversion Hin.
  - rewrite filter_cons, not_elem_of_cons.
    destruct (decide (prop_name p = nm)) as [He|Hne]; simpl.
    + split; [intros [Hn _]; congruence|discriminate].
    + rewrite <- IH. split; [tauto|]. split; [congruence|assumption].
Qed.

(** X1.  After [qdt_setprop] on a node whose property names are distinct,
    [qdt_getprop] of that name returns the property just built, with
    exactly the bytes that were passed. *)
Theorem qdt_setprop_then_getprop (h : heap) (node : ptr) (n : QDTNode)
    (nm : string) (v : list Z) :
  h !! node = Some n -> NoDup (names (properties n)) ->
  exists h',
    qdt_setprop h node nm v = Ret (mkProp nm v, h') /\
    qdt_getprop h' node nm = Ret (Some (mkProp nm v)) /\
    len (mkProp nm v) = length v.
Proof.
  intros Hn Hnd. apply lookup_lt_Some in Hn as Hlt.
  rewrite qdt_setprop_eq, Hn. eexists. split; [reflexivity|].
  split; [|reflexivity].
  rewrite qdt_getprop_eq, list_lookup_insert_eq by assumption. simpl.
  destruct (setprop_list nm v (properties n) Hnd) as (_ & -> & _).
  reflexivity.
Qed.

Lemma qdt_setprop_then_getprop_witness :
  Sample.board !! 2%nat =
    Some (mkNode "cpu@0" (Some 1%nat) [mkProp "reg" [0; 0; 0; 0]] []) /\
  NoDup (names [mkProp "reg" [0; 0; 0; 0]]) /\
  exists h',
    qdt_setprop Sample.board 2%nat "reg" [7] = Ret (mkProp "reg" [7], h') /\
    qdt_getprop h' 2%nat "reg" = Ret (Some (mkProp "reg" [7])).
Proof.
  assert (Hnd : NoDup (names [mkProp "reg" [0; 0; 0; 0]]))
    by (apply NoDup_singleton).
  split; [reflexivity|]. split; [exact Hnd|].
  destruct (qdt_setprop_then_getprop Sample.board 2%nat _ "reg" [7]
              eq_refl Hnd) as (h' & Ha & Hb & _).
  exists h'. auto.
Defined.

(** X2.  [qdt_delprop] of a name the node does not hold changes nothing and
    is no error.  On a node with distinct property names, after
    [qdt_delprop] the name is no longer found by [qdt_getprop], and deleting
    it again changes nothing. *)
Theorem qdt_delprop_then_getprop (h : heap) (node : ptr) (n : QDTNode)
    (nm : string) :
  h !! node = Some n -> NoDup (names (properties n)) ->
  (nm ∉ names (properties n) -> qdt_delprop h node nm = Ret h) /\
  exists h',
    qdt_delprop h node nm = Ret h' /\
    qdt_getprop h' node nm = Ret None /\
    qdt_delprop h' node nm = Ret h'.
Proof.
  intros Hn Hnd. apply lookup_lt_Some in Hn as Hlt. split.
  - intros Habs. rewrite qdt_delprop_eq, Hn, remove_named_absent by assumption.
    now rewrite set_properties_id, list_insert_id.
  - pose proof (remove_named_gone nm (properties n) Hnd) as Hgone.
    rewrite qdt_delprop_eq, Hn. eexists. split; [reflexivity|]. split.
    + rewrite qdt_getprop_eq, list_lookup_insert_eq by assumption. simpl.
      f_equal. now apply named_head_absent.
    + rewrite qdt_delprop_eq, list_lookup_insert_eq by assumption. simpl.
      rewrite remove_named_absent by assumption.
      now rewrite list_insert_insert_eq.
Qed.

Lemma qdt_delprop_then_getprop_witness :
  Sample.board !! 2%nat =
    Some (mkNode "cpu@0" (Some 1%nat) [mkProp "reg" [0; 0; 0; 0]] []) /\
  NoDup (names [mkProp "reg" [0; 0; 0; 0]]) /\
  qdt_delprop Sample.board 2%nat "missing" = Ret Sample.board /\
  exists h',
    qdt_delprop Sample.board 2%nat "reg" = Ret h' /\
    qdt_getprop h' 2%nat "reg" = Ret None.
Proof.
  assert (Hnd : NoDup (names [mkProp "reg" [0; 0; 0; 0]]))
    by (apply NoDup_singleton).
  split; [reflexivity|]. split; [exact Hnd|]. split.
  - apply (qdt_delprop_then_getprop Sample.board 2%nat _ "missing" eq_refl
             Hnd).
    unfold names. simpl. rewrite list_elem_of_singleton. discriminate.
  - destruct (proj2 (qdt_delprop_then_getprop Sample.board 2%nat _ "reg"
                       eq_refl Hnd)) as (h' & Ha & Hb & _).
    exists h'. auto.
Defined.

Lemma property_update_frame (h : heap) (node : ptr) (n : QDTNode)
    (nm : string) (ps' : list QDTProperty) :
  h !! node = Some n ->
  (forall nm', nm' <> nm -> named nm' ps' = named nm' (properties n)) ->
  let h' := <[node := set_properties ps' n]> h in
  length h' = length h /\
  (forall q, q <> node -> h' !! q = h !! q) /\
  (forall nm', nm' <> nm -> qdt_getprop h' node nm' = qdt_getprop h node nm') /\
  exists n', h' !! node = Some n' /\ name n' = name n /\
             parent n' = parent n /\ children n' = children n.
Proof.
  intros Hn Hps h'. apply lookup_lt_Some in Hn as Hlt. unfold h'.
  repeat split.
  - apply length_insert.
  - intros q Hq. now rewrite list_lookup_insert_ne.
  - intros nm' Hne.
    rewrite !qdt_getprop_eq, list_lookup_insert_eq, Hn by assumption.
    simpl. now rewrite Hps.
  - eexists. split; [now apply list_lookup_insert_eq|]. auto.
Qed.

(** X3.  [qdt_setprop] and [qdt_delprop] touch nothing but the property of
    that name on that node: the heap keeps its size, every other node is
    unchanged, the node keeps its name, parent and children, and
    [qdt_getprop] of any other name answers as before. *)
Theorem property_update_is_local (h h' : heap) (node : ptr) (nm : string) :
  (exists v r, qdt_setprop h node nm v = Ret (r, h')) \/
  qdt_delprop h node nm = Ret h' ->
  length h' = length h /\
  (forall q, q <> node -> h' !! q = h !! q) /\
  (forall nm', nm' <> nm -> qdt_getprop h' node nm' = qdt_getprop h node nm') /\
  exists n n',
    h !! node = Some n /\ h' !! node = Some n' /\ name n' = name n /\
    parent n' = parent n /\ children n' = children n.
Proof.
  intros [(v & r & Hs)|Hd].
  - rewrite qdt_setprop_eq in Hs.
    destruct (h !! node) as [n|] eqn:Hn; [|discriminate].
    injection Hs as _ <-.
    destruct (property_update_frame h node n nm
                (remove_named nm (properties n) ++ [mkProp nm v]) Hn)
      as (Ha & Hb & Hc & n' & Hd).
    { intros nm' Hne.
      now rewrite named_snoc_other, named_remove_named_other. }
    repeat split; auto. exists n, n'. tauto.
  - rewrite qdt_delprop_eq in Hd.
    destruct (h !! node) as [n|] eqn:Hn; [|discriminate].
    injection Hd as <-.
    destruct (property_update_frame h node n nm
                (remove_named nm (properties n)) Hn)
      as (Ha & Hb & Hc & n' & Hd).
    { intros nm' Hne. now apply named_remove_named_other. }
    repeat split; auto. exists n, n'. tauto.
Qed.

Lemma property_update_is_local_witness :
  (exists v r,
     qdt_setprop Sample.board 0%nat "model" v =
     Ret (r, <[0%nat := mkNode "" None [mkProp "model" [1]] [1%nat; 3%nat]]>
               Sample.board)) /\
  qdt_getprop
    (<[0%nat := mkNode "" None [mkProp "model" [1]] [1%nat; 3%nat]]>
       Sample.board) 2%nat "reg" =
  qdt_getprop Sample.board 2%nat "reg".
Proof.
  assert (Hs : exists v r,
     qdt_setprop Sample.board 0%nat "model" v =
     Ret (r, <[0%nat := mkNode "" None [mkProp "model" [1]] [1%nat; 3%nat]]>
               Sample.board))
    by (exists [1], (mkProp "model" [1]); reflexivity).
  split; [exact Hs|].
  destruct (property_update_is_local Sample.board _ 0%nat "model"
              (or_introl Hs)) as (_ & Hb & _).
  unfold qdt_getprop, getprop_, deref. rewrite (Hb 2%nat) by discriminate.
  reflexivity.
Defined.

(** X4.  Properties set under names that are new to the node and distinct
    from one another are appended in the order of the calls: the property
    list, which is the order flattening emits them in, ends with them in
    call order. *)
Theorem qdt_setprop_insertion_order (be : bool) (h : heap) (node : ptr)
    (n : QDTNode) (kvs : list (string * list Z)) :
  h !! node = Some n -> NoDup (fst <$> kvs) ->
  (forall nm, nm ∈ fst <$> kvs -> nm ∉ names (properties n)) ->
  exists h' n',
    run be (set_all node kvs) h = Ret h' /\
    h' !! node = Some n' /\
    properties n' =
      properties n ++ map (fun kv => mkProp (fst kv) (snd kv)) kvs /\
    map property_call (properties n') =
      map property_call (properties n)
      ++ map (fun kv => Property (fst kv) (snd kv) (length (snd kv))) kvs.
Proof.
  revert h n. induction kvs as [|[nm v] kvs IH]; intros h n Hn Hnd Hnew.
  - exists h, n. simpl. rewrite !app_nil_r. auto.
  - rewrite fmap_cons in Hnd, Hnew. apply NoDup_cons in Hnd as [Hnm Hnd].
    apply lookup_lt_Some in Hn as Hlt.
    assert (Habs : nm ∉ names (properties n))
      by (apply Hnew; simpl; left).
    cbn [set_all map run exec fst snd].
    rewrite qdt_setprop_eq, Hn, remove_named_absent by assumption.
    cbn [bind].
    destruct (IH (<[node := set_properties (properties n ++ [mkProp nm v]) n]>
                    h)
                (set_properties (properties n ++ [mkProp nm v]) n))
      as (h' & n' & Hrun & Hn' & Hps & _).
    { now apply list_lookup_insert_eq. }
    { exact Hnd. }
    { intros x Hx. simpl. rewrite names_snoc, not_elem_of_app. split.
      - apply Hnew. now right.
      - simpl. rewrite list_elem_of_singleton. intros ->. contradiction. }
    exists h', n'. fold (set_all node kvs). rewrite Hrun.
    split; [reflexivity|]. split; [exact Hn'|].
    assert (Hall : properties n' =
              properties n ++ map (fun kv => mkProp (fst kv) (snd kv))
                                ((nm, v) :: kvs)).
    { rewrite Hps. simpl. now rewrite <- app_assoc. }
    split; [exact Hall|].
    rewrite Hall, map_app, map_map. reflexivity.
Qed.

Lemma qdt_setprop_insertion_order_witness :
  Sample.board !! 3%nat = Some (mkNode "memory" (Some 0%nat) [] []) /\
  NoDup (fst <$> [("device_type", [109]); ("reg", [0; 1])]) /\
  exists h' n',
    run false (set_all 3%nat [("device_type", [109]); ("reg", [0; 1])])
      Sample.board = Ret h' /\
    h' !! 3%nat = Some n' /\
    properties n' = [mkProp "device_type" [109]; mkProp "reg" [0; 1]].
Proof.
  assert (Hnd : NoDup (fst <$> [("device_type", [109]); ("reg", [0; 1])])).
  { simpl. apply NoDup_cons. split; [|apply NoDup_singleton].
    rewrite list_elem_of_singleton. discriminate. }
  split; [reflexivity|]. split; [exact Hnd|].
  destruct (qdt_setprop_insertion_order false Sample.board 3%nat _
              [("device_type", [109]); ("reg", [0; 1])] eq_refl Hnd)
    as (h' & n' & Ha & Hb & Hc & _).
  { intros nm _ Hin. inversion Hin. }
  exists h', n'. auto.
Defined.

(** ** Path resolution *)

Section ResolutionFacts.

Implicit Types (h : heap) (p c node : ptr) (n : QDTNode).
Implicit Types (nm path seg : string) (k : nat).

Lemma memchr_is_Some s (a : ascii) k :
  is_Some (memchr s a k) <-> contains a (prefix k s).
Proof.
  split.
  - revert s. induction k as [|k IH]; intros [|x s]; simpl;
      try (intros [? ?]; discriminate).
    rewrite contains_cons.
    destruct (Ascii.eqb_spec x a) as [->|Hne]; [now left|].
    intros Hs. right. apply IH.
    destruct (memchr s a k); [eauto|destruct Hs; discriminate].
  - intros Hc. destruct (memchr s a k) eqn:E; [eauto|].
    exfalso. revert s Hc E.
    induction k as [|k IH]; intros [|x s]; cbn [memchr prefix];
      [intros []..|].
    rewrite contains_cons.
    destruct (Ascii.eqb_spec x a) as [->|Hne]; [discriminate|].
    intros [?|Hc]; [contradiction|].
    destruct (memchr s a k) eqn:E; [discriminate|]. intros _.
    now apply (IH s).
Qed.

Lemma get_subnode_loop_not_abort h (cs : list ptr) nm k :
  get_subnode_loop h cs nm k <> Abort.
Proof.
  induction cs as [|x cs IH]; simpl; [discriminate|].
  unfold deref. destruct (h !! x); simpl; [|discriminate].
  now destruct (_ && _).
Qed.

Lemma get_subnode_Abort h node nm k :
  get_subnode h node nm k = Abort <-> contains slash (prefix k nm).
Proof.
  rewrite <- memchr_is_Some. unfold get_subnode.
  destruct (memchr nm slash k) eqn:E; simpl.
  - split; eauto.
  - split; [|intros [? ?]; discriminate].
    unfold deref. destruct (h !! node); simpl; [|discriminate].
    intros Ha. now apply get_subnode_loop_not_abort in Ha.
Qed.

Lemma relative_not_abort h :
  forall m path node, (strlen path <= m)%nat ->
  qdt_get_node_relative h node path <> Abort.
Proof.
  induction m as [|m IH]; intros path node Hm;
    rewrite qdt_get_node_relative_step.
  - destruct path; [|simpl in Hm; lia]. simpl.
    rewrite get_subnode_Abort. intros [].
  - destruct (strchr path slash) as [k|] eqn:Hs.
    + destruct (strchr_split _ _ _ Hs) as [_ Hno].
      pose proof (strchr_lt _ _ _ Hs) as Hk.
      destruct (get_subnode h node path k) as [[x|]| |] eqn:Hg;
        try discriminate.
      * apply IH. rewrite advance_length. lia.
      * now apply get_subnode_Abort in Hg.
    + rewrite get_subnode_Abort, prefix_all. now apply strchr_None.
Qed.

Lemma segments_join (p1 p2 : string) :
  segments (p1 +:+ String slash p2) = segments p1 ++ segments p2.
Proof.
  induction p1 as [|x p1 IH]; rewrite ?append_nil, ?append_cons; simpl;
    [reflexivity|].
  rewrite IH. destruct (Ascii.eqb x slash); [reflexivity|].
  pose proof (segments_nonempty p1).
  destruct (segments p1); [contradiction|reflexivity].
Qed.

Lemma resolve_app h node (l1 l2 : list string) :
  resolve h node (l1 ++ l2) =
  match resolve h node l1 with
  | Some x => resolve h x l2
  | None => None
  end.
Proof.
  revert node. induction l1 as [|s l1 IH]; intros node; simpl;
    [reflexivity|].
  destruct (lookup_child h node s); [apply IH|reflexivity].
Qed.

Lemma resolve_live h node (l : list string) x :
  is_Some (h !! node) -> resolve h node l = Some x -> is_Some (h !! x).
Proof.
  revert node. induction l as [|s l IH]; intros node Hn; simpl.
  - now intros [= <-].
  - destruct (lookup_child h node s) as [c|] eqn:Hc; [|discriminate].
    apply IH. eapply lookup_child_live; eauto.
Qed.

Lemma relative_is_resolve h node path :
  closed h -> is_Some (h !! node) ->
  qdt_get_node_relative h node path = Ret (resolve h node (segments path)).
Proof. intros Hc Hn. now apply (relative_resolve h Hc (strlen path)). Qed.

(** the name of a node decides what [child_named] does with it *)
Lemma child_named_ext h h' (cs : list ptr) seg :
  Forall (fun x => name <$> h' !! x = name <$> h !! x) cs ->
  child_named h' cs seg = child_named h cs seg.
Proof.
  induction 1 as [|x cs Hx _ IH]; simpl; [reflexivity|].
  destruct (h !! x) as [y|], (h' !! x) as [y'|]; simpl in Hx;
    try discriminate; [|reflexivity].
  injection Hx as ->. now rewrite IH.
Qed.

Lemma child_named_app_found h (l1 l2 : list ptr) seg x :
  child_named h l1 seg = Some x -> child_named h (l1 ++ l2) seg = Some x.
Proof.
  induction l1 as [|y l1 IH]; simpl; [discriminate|].
  destruct (h !! y) as [m|]; [|discriminate].
  destruct (String.eqb (name m) seg); auto.
Qed.

Lemma child_named_app_missed h (l1 l2 : list ptr) seg :
  Forall (fun c => (c < length h)%nat) l1 ->
  child_named h l1 seg = None ->
  child_named h (l1 ++ l2) seg = child_named h l2 seg.
Proof.
  induction 1 as [|y l1 Hy _ IH]; simpl; [reflexivity|].
  apply lookup_lt_is_Some in Hy as [m ->].
  destruct (String.eqb (name m) seg); [discriminate|auto].
Qed.

Lemma child_named_first h (pre post : list ptr) c m :
  h !! c = Some m ->
  Forall (fun x => exists y, h !! x = Some y /\ name y <> name m) pre ->
  child_named h (pre ++ c :: post) (name m) = Some c.
Proof.
  intros Hc. induction 1 as [|x pre (y & Hy & Hne) _ IH]; simpl.
  - now rewrite Hc, String.eqb_refl.
  - rewrite Hy. now destruct (String.eqb_spec (name y) (name m)).
Qed.

Lemma extends_refl h : extends h h.
Proof. intros p n Hn. exists n. repeat split; auto. Qed.

Lemma extends_trans h1 h2 h3 : extends h1 h2 -> extends h2 h3 -> extends h1 h3.
Proof.
  intros H12 H23 p n Hn.
  destruct (H12 p n Hn) as (n2 & Hn2 & Ha & Hb & Hc).
  destruct (H23 p n2 Hn2) as (n3 & Hn3 & Ha' & Hb' & Hc').
  exists n3. repeat split; try congruence. now transitivity (children n2).
Qed.

Lemma effect_extends h h' : effect h h' -> extends h h'.
Proof.
  intros [nm|p n nm Hn|p n ps Hn _] q m Hq.
  - exists m. split; [now apply lookup_app_l_Some|]. auto.
  - apply lookup_lt_Some in Hn as Hlt.
    destruct (decide (p = q)) as [<-|Hne].
    + rewrite Hn in Hq. injection Hq as <-. eexists. split.
      * apply list_lookup_insert_eq. rewrite length_app. simpl. lia.
      * simpl. repeat split. now apply prefix_app_r.
    + exists m. split; [|auto].
      rewrite list_lookup_insert_ne by assumption.
      now apply lookup_app_l_Some.
  - apply lookup_lt_Some in Hn as Hlt.
    destruct (decide (p = q)) as [<-|Hne].
    + rewrite Hn in Hq. injection Hq as <-. eexists.
      split; [now apply list_lookup_insert_eq|]. simpl. auto.
    + exists m. split; [|auto]. now rewrite list_lookup_insert_ne.
Qed.

Lemma effects_extends h h' : rtc effect h h' -> extends h h'.
Proof.
  induction 1 as [|h1 h2 h3 He _ IH]; [apply extends_refl|].
  eapply extends_trans; [apply effect_extends; exact He|exact IH].
Qed.

Lemma effect_length h h' : effect h h' -> (length h <= length h')%nat.
Proof.
  intros [nm|p n nm Hn|p n ps Hn _];
    rewrite ?length_insert, ?length_app; simpl; lia.
Qed.

Lemma effects_length h h' : rtc effect h h' -> (length h <= length h')%nat.
Proof.
  induction 1 as [|h1 h2 h3 He _ IH]; [lia|].
  apply effect_length in He. lia.
Qed.

Lemma closed_lookup h p n c :
  closed h -> h !! p = Some n -> c ∈ children n -> (c < length h)%nat.
Proof.
  intros Hc Hn Hin. pose proof (closed_children h p n Hc Hn) as Hf.
  rewrite Forall_forall in Hf. auto.
Qed.

Lemma closed_intro h :
  (forall p n c, h !! p = Some n -> c ∈ children n -> (c < length h)%nat) ->
  closed h.
Proof.
  intros Hall. apply Forall_lookup_2. intros p n Hn.
  apply Forall_forall. eauto.
Qed.

Lemma effect_closed h h' : effect h h' -> closed h -> closed h'.
Proof.
  intros He Hc. pose proof (effect_length h h' He) as Hlen.
  apply closed_intro. destruct He as [nm|p n nm Hn|p n ps Hn _];
    intros q m c Hq Hin.
  - apply lookup_snoc_Some in Hq as [[_ Hq]|[_ <-]]; [|inversion Hin].
    pose proof (closed_lookup h q m c Hc Hq Hin). lia.
  - rewrite length_insert, length_app in *. simpl in *.
    apply list_lookup_insert_Some in Hq as [(<- & <- & _)|[_ Hq]].
    + simpl in Hin. apply elem_of_app in Hin as [Hin|Hin].
      * pose proof (closed_lookup h p n c Hc Hn Hin). lia.
      * apply list_elem_of_singleton in Hin. lia.
    + apply lookup_snoc_Some in Hq as [[_ Hq]|[_ <-]]; [|inversion Hin].
      pose proof (closed_lookup h q m c Hc Hq Hin). lia.
  - rewrite length_insert in *.
    apply list_lookup_insert_Some in Hq as [(<- & <- & _)|[_ Hq]].
    + simpl in Hin. exact (closed_lookup h p n c Hc Hn Hin).
    + exact (closed_lookup h q m c Hc Hq Hin).
Qed.

Lemma effects_closed h h' : rtc effect h h' -> closed h -> closed h'.
Proof. induction 1; eauto using effect_closed. Qed.

(** what a lookup found it keeps finding in a heap that extends *)
Lemma extends_lookup_child h h' q seg x :
  extends h h' -> closed h ->
  lookup_child h q seg = Some x -> lookup_child h' q seg = Some x.
Proof.
  intros He Hc. unfold lookup_child.
  destruct (h !! q) as [n|] eqn:Hn; [|discriminate].
  destruct (He q n Hn) as (n' & -> & _ & _ & k & ->).
  intros Hf. apply child_named_app_found. rewrite <- Hf.
  apply child_named_ext.
  eapply Forall_impl; [exact (closed_children h q n Hc Hn)|].
  intros y Hy. simpl in Hy. apply lookup_lt_is_Some in Hy as [m Hm].
  destruct (He y m Hm) as (m' & Hm' & Hnm & _).
  rewrite Hm', Hm. simpl. now rewrite Hnm.
Qed.

Lemma extends_resolve h h' (l : list string) :
  extends h h' -> closed h ->
  forall node x, resolve h node l = Some x -> resolve h' node l = Some x.
Proof.
  intros He Hc. induction l as [|s l IH]; intros node x; simpl; [auto|].
  destruct (lookup_child h node s) as [c|] eqn:Hl; [|discriminate].
  rewrite (extends_lookup_child h h' node s c He Hc Hl). apply IH.
Qed.

Lemma same_shape_refl h : same_shape h h.
Proof. split; [reflexivity|]. intros p n Hn. exists n. auto. Qed.

Lemma same_shape_trans h1 h2 h3 :
  same_shape h1 h2 -> same_shape h2 h3 -> same_shape h1 h3.
Proof.
  intros [L12 H12] [L23 H23]. split; [congruence|]. intros p n Hn.
  destruct (H12 p n Hn) as (n2 & Hn2 & ? & ? & ?).
  destruct (H23 p n2 Hn2) as (n3 & Hn3 & ? & ? & ?).
  exists n3. repeat split; congruence.
Qed.

Lemma same_shape_set_properties h p n (ps : list QDTProperty) :
  h !! p = Some n -> same_shape h (<[p := set_properties ps n]> h).
Proof.
  intros Hn. split; [apply length_insert|]. intros q m Hq.
  apply lookup_lt_Some in Hn as Hlt.
  destruct (decide (p = q)) as [<-|Hne].
  - rewrite Hn in Hq. injection Hq as <-. eexists.
    split; [now apply list_lookup_insert_eq|]. auto.
  - exists m. split; [|auto]. now rewrite list_lookup_insert_ne.
Qed.

Lemma qdt_setprop_same_shape h node nm (v : list Z) r h' :
  qdt_setprop h node nm v = Ret (r, h') -> same_shape h h'.
Proof.
  rewrite qdt_setprop_eq. destruct (h !! node) as [n|] eqn:Hn;
    [|discriminate].
  intros [= _ <-]. now apply same_shape_set_properties.
Qed.

Lemma qdt_delprop_same_shape h node nm h' :
  qdt_delprop h node nm = Ret h' -> same_shape h h'.
Proof.
  rewrite qdt_delprop_eq. destruct (h !! node) as [n|] eqn:Hn;
    [|discriminate].
  intros [= <-]. now apply same_shape_set_properties.
Qed.

Lemma exec_same_shape be (op : call) h h' :
  is_property_call op = true -> exec be op h = Ret h' -> same_shape h h'.
Proof.
  destruct op; simpl; try discriminate; intros _ Hr;
    try (apply bind_Ret in Hr as ([r h1] & Hr & [= <-]);
         eapply qdt_setprop_same_shape; exact Hr).
  - unfold qdt_set_phandle, qdt_setprop_cells, qdt_setprop_cells_ in Hr.
    apply bind_Ret in Hr as (_ & _ & Hr).
    apply bind_Ret in Hr as ([r1 h1] & H1 & Hr).
    apply bind_Ret in Hr as ([r2 h2] & H2 & [= <-]).
    eapply same_shape_trans; eapply qdt_setprop_same_shape; eauto.
  - eapply qdt_delprop_same_shape; eauto.
Qed.

Lemma same_shape_names h h' x :
  same_shape h h' -> name <$> h' !! x = name <$> h !! x.
Proof.
  intros [Hlen Hs]. destruct (h !! x) as [m|] eqn:Hm.
  - destruct (Hs x m Hm) as (m' & Hm' & Hnm & _).
    rewrite Hm'. simpl. now rewrite Hnm.
  - apply lookup_ge_None in Hm. rewrite lookup_ge_None_2 by lia.
    reflexivity.
Qed.

Lemma same_shape_lookup_child h h' q seg :
  same_shape h h' -> lookup_child h' q seg = lookup_child h q seg.
Proof.
  intros Hs. unfold lookup_child. destruct (h !! q) as [n|] eqn:Hn.
  - destruct (proj2 Hs q n Hn) as (n' & -> & _ & _ & ->).
    apply child_named_ext. apply Forall_forall. intros y _.
    now apply same_shape_names.
  - apply lookup_ge_None in Hn. destruct Hs as [Hlen _].
    rewrite lookup_ge_None_2 by lia. reflexivity.
Qed.

Lemma same_shape_resolve h h' (l : list string) node :
  same_shape h h' -> resolve h' node l = resolve h node l.
Proof.
  intros Hs. revert node. induction l as [|s l IH]; intros node; simpl;
    [reflexivity|].
  rewrite (same_shape_lookup_child h h' node s Hs).
  destruct (lookup_child h node s); auto.
Qed.

Lemma same_shape_closed h h' : same_shape h h' -> closed h -> closed h'.
Proof.
  intros [Hlen Hs] Hc. apply closed_intro. intros p n' c Hp Hin.
  apply lookup_lt_Some in Hp as Hlt. rewrite Hlen in Hlt.
  apply lookup_lt_is_Some in Hlt as [n Hn].
  destruct (Hs p n Hn) as (n2 & Hn2 & _ & _ & Hch).
  rewrite Hp in Hn2. injection Hn2 as <-. rewrite Hch in Hin.
  rewrite Hlen. exact (closed_lookup h p n c Hc Hn Hin).
Qed.

End ResolutionFacts.

(** X5.  [qdt_get_node] on a live node fails an assertion exactly when the
    node has a parent or the path does not start with '/'; on a parentless
    node it resolves what follows the leading '/' relative to that node. *)
Theorem qdt_get_node_asserts (h : heap) (root : ptr) (r : QDTNode)
    (path : string) :
  h !! root = Some r ->
  (qdt_get_node h root path = Abort <->
   is_Some (parent r) \/ forall tail, path <> String slash tail) /\
  (parent r = None ->
   forall tail,
     qdt_get_node h root (String slash tail) =
     qdt_get_node_relative h root tail).
Proof.
  intros Hr. unfold qdt_get_node. rewrite (deref_Some _ _ _ Hr).
  cbn [bind]. split.
  - destruct (parent r) as [q|]; cbn [bool_decide decide_rel negb g_assert bind].
    + rewrite bool_decide_eq_true_2 by eauto. simpl. split; eauto.
    + rewrite bool_decide_eq_false_2 by (intros [? ?]; discriminate).
      simpl. destruct path as [|c s]; simpl.
      * split; [|reflexivity]. intros _. right. discriminate.
      * destruct (Ascii.eqb_spec c slash) as [->|Hne]; simpl.
        -- split.
           ++ intros Ha.
              now apply (relative_not_abort h (strlen s) s root) in Ha.
           ++ intros [[? ?]|Hn]; [discriminate|]. now destruct (Hn s).
        -- split; [|reflexivity]. intros _. right. congruence.
  - intros -> tail.
    rewrite bool_decide_eq_false_2 by (intros [? ?]; discriminate).
    reflexivity.
Qed.

Lemma qdt_get_node_asserts_witness :
  Sample.board !! 1%nat = Some (mkNode "cpus" (Some 0%nat) [] [2%nat]) /\
  qdt_get_node Sample.board 1%nat "/cpu@0" = Abort /\
  qdt_get_node Sample.board 0%nat "cpus" = Abort /\
  qdt_get_node Sample.board 0%nat "/cpus/cpu@0" =
    qdt_get_node_relative Sample.board 0%nat "cpus/cpu@0".
Proof.
  split; [reflexivity|]. split; [|split].
  - apply (qdt_get_node_asserts Sample.board 1%nat _ "/cpu@0" eq_refl).
    left. eauto.
  - apply (qdt_get_node_asserts Sample.board 0%nat _ "cpus" eq_refl).
    right. discriminate.
  - apply (qdt_get_node_asserts Sample.board 0%nat _ "" eq_refl).
    reflexivity.
Defined.

(** X6.  The assertion of [get_subnode] fails exactly when a '/' lies among
    the [namelen] bytes it is given, and [qdt_get_node_relative] never gives
    it such a segment: path resolution never aborts, on any heap, node and
    path. *)
Theorem qdt_get_node_relative_never_aborts (h : heap) (node : ptr)
    (path : string) :
  qdt_get_node_relative h node path <> Abort /\
  forall nm k,
    get_subnode h node nm k = Abort <-> contains slash (prefix k nm).
Proof.
  split.
  - now apply (relative_not_abort h (strlen path)).
  - intros nm k. apply get_subnode_Abort.
Qed.

(** X7.  Resolution composes along the separator: resolving [p1/p2] from a
    node is resolving [p1] from it and then [p2] from the node found, and
    not-found as soon as [p1] is not found. *)
Theorem qdt_get_node_relative_composes (h : heap) (node : ptr)
    (p1 p2 : string) :
  closed h -> is_Some (h !! node) ->
  qdt_get_node_relative h node (p1 +:+ String slash p2) =
  match qdt_get_node_relative h node p1 with
  | Ret (Some n) => qdt_get_node_relative h n p2
  | r => r
  end.
Proof.
  intros Hc Hn.
  rewrite !relative_is_resolve, segments_join, resolve_app by assumption.
  destruct (resolve h node (segments p1)) as [x|] eqn:Hx; [|reflexivity].
  rewrite relative_is_resolve; [reflexivity|assumption|].
  eapply resolve_live; eauto.
Qed.

Lemma qdt_get_node_relative_composes_witness :
  closed Sample.board /\ is_Some (Sample.board !! 0%nat) /\
  qdt_get_node_relative Sample.board 0%nat "cpus/cpu@0" =
  qdt_get_node_relative Sample.board 1%nat "cpu@0".
Proof.
  assert (Hl : is_Some (Sample.board !! 0%nat)) by (eexists; reflexivity).
  split; [exact board_closed|]. split; [exact Hl|].
  exact (qdt_get_node_relative_composes Sample.board 0%nat "cpus" "cpu@0"
           board_closed Hl).
Defined.

(** X8.  Looking up, under its parent, the name just given to
    [qdt_add_subnode] finds the new node if no older child bears that name,
    and the oldest child of that name otherwise: a later sibling of the same
    name cannot be reached by path. *)
Theorem qdt_add_subnode_then_lookup (h h' : heap) (p c : ptr) (n : QDTNode)
    (nm : string) :
  closed h -> h !! p = Some n -> qdt_add_subnode h p nm = Ret (c, h') ->
  qdt_get_node_relative h' p nm =
  Ret (Some match lookup_child h p nm with
            | Some older => older
            | None => c
            end).
Proof.
  intros Hc Hn Hadd.
  pose proof (qdt_add_subnode_effect h p nm c h' Hadd) as He.
  pose proof (effect_closed h h' He Hc) as Hc'.
  pose proof (effect_extends h h' He) as Hx.
  rewrite qdt_add_subnode_eq, Hn in Hadd.
  destruct (strchr nm slash) eqn:Hs; [discriminate|].
  injection Hadd as <- <-. apply strchr_None in Hs.
  apply lookup_lt_Some in Hn as Hlt.
  set (h' := <[p := set_children (children n ++ [length h]) n]>
               (h ++ [mkNode nm (Some p) [] []])) in *.
  assert (Hp' : h' !! p = Some (set_children (children n ++ [length h]) n)).
  { apply list_lookup_insert_eq. rewrite length_app. simpl. lia. }
  assert (Hnew : h' !! length h = Some (mkNode nm (Some p) [] [])).
  { unfold h'. rewrite list_lookup_insert_ne by lia.
    apply list_lookup_middle. reflexivity. }
  assert (Hold : child_named h' (children n) nm =
                 child_named h (children n) nm).
  { apply child_named_ext.
    eapply Forall_impl; [exact (closed_children h p n Hc Hn)|].
    intros y Hy. simpl in Hy. apply lookup_lt_is_Some in Hy as [m Hm].
    destruct (Hx y m Hm) as (m' & Hm' & Hnm & _).
    rewrite Hm', Hm. simpl. now rewrite Hnm. }
  rewrite relative_last by eauto. f_equal.
  unfold lookup_child. rewrite Hp', Hn. simpl.
  destruct (child_named h (children n) nm) as [older|] eqn:Hfound.
  - apply child_named_app_found. now rewrite Hold.
  - rewrite child_named_app_missed.
    + simpl. now rewrite Hnew, String.eqb_refl.
    + eapply Forall_impl; [exact (closed_children h p n Hc Hn)|].
      intros y Hy. simpl in Hy. pose proof (effect_length h h' He). lia.
    + now rewrite Hold.
Qed.

Lemma qdt_add_subnode_then_lookup_witness :
  closed Sample.board /\
  Sample.board !! 0%nat =
    Some (mkNode "" None [mkProp "model" [113; 100; 116; 0]]
            [1%nat; 3%nat]) /\
  (exists h', qdt_add_subnode Sample.board 0%nat "memory" = Ret (4%nat, h') /\
              qdt_get_node_relative h' 0%nat "memory" = Ret (Some 3%nat)) /\
  (exists h', qdt_add_subnode Sample.board 0%nat "chosen" = Ret (4%nat, h') /\
              qdt_get_node_relative h' 0%nat "chosen" = Ret (Some 4%nat)).
Proof.
  split; [exact board_closed|]. split; [reflexivity|]. split.
  - eexists. split; [reflexivity|].
    exact (qdt_add_subnode_then_lookup Sample.board _ 0%nat 4%nat _ "memory"
             board_closed eq_refl eq_refl).
  - eexists. split; [reflexivity|].
    exact (qdt_add_subnode_then_lookup Sample.board _ 0%nat 4%nat _ "chosen"
             board_closed eq_refl eq_refl).
Defined.

(** X9.  No program over the API ever removes a node, renames it or gives
    it another parent, and child lists only grow, at their end: each node of
    the heap before is found after with the same name and parent and with
    its former children as a prefix of its children. *)
Theorem api_never_alters_nodes (be : bool) (ops : list call) (h h' : heap) :
  run be ops h = Ret h' ->
  (length h <= length h')%nat /\
  forall p n, h !! p = Some n ->
    exists n', h' !! p = Some n' /\ name n' = name n /\
               parent n' = parent n /\
               exists added, children n' = children n ++ added.
Proof.
  intros Hr. apply run_effect in Hr. split.
  - now apply effects_length.
  - intros p n Hn.
    destruct (effects_extends h h' Hr p n Hn) as (n' & ? & ? & ? & k & ?).
    exists n'. eauto 10.
Qed.

Lemma api_never_alters_nodes_witness :
  run false (tail Sample.program) [mkNode "" None [] []] = Ret Sample.board /\
  exists n', Sample.board !! 0%nat = Some n' /\ name n' = "" /\
             parent n' = None /\ exists added, children n' = [] ++ added.
Proof.
  split; [reflexivity|].
  exact (proj2 (api_never_alters_nodes false (tail Sample.program)
                  [mkNode "" None [] []] Sample.board eq_refl)
           0%nat _ eq_refl).
Defined.

(** X10.  A path that resolves to a node keeps resolving to that node
    whatever is done through the API afterwards: nodes added later never
    shadow it. *)
Theorem resolved_paths_persist (be : bool) (ops : list call) (h h' : heap)
    (node x : ptr) (path : string) :
  closed h -> is_Some (h !! node) -> run be ops h = Ret h' ->
  qdt_get_node_relative h node path = Ret (Some x) ->
  qdt_get_node_relative h' node path = Ret (Some x).
Proof.
  intros Hc Hn Hr. apply run_effect in Hr.
  pose proof (effects_extends h h' Hr) as Hx.
  pose proof (effects_closed h h' Hr Hc) as Hc'.
  assert (Hn' : is_Some (h' !! node)).
  { destruct Hn as [m Hm]. destruct (Hx node m Hm) as (m' & Hm' & _). eauto. }
  rewrite !relative_is_resolve by assumption. intros [= Hres].
  f_equal. now apply (extends_resolve h h').
Qed.

Lemma resolved_paths_persist_witness :
  closed Sample.board /\ is_Some (Sample.board !! 0%nat) /\
  (exists h',
     run false [AddSubnode 0%nat "cpus"; AddSubnode 1%nat "cpu@0"]
       Sample.board = Ret h' /\
     qdt_get_node_relative h' 0%nat "cpus/cpu@0" = Ret (Some 2%nat)).
Proof.
  assert (Hl : is_Some (Sample.board !! 0%nat)) by (eexists; reflexivity).
  split; [exact board_closed|]. split; [exact Hl|].
  eexists. split; [reflexivity|].
  exact (resolved_paths_persist false
           [AddSubnode 0%nat "cpus"; AddSubnode 1%nat "cpu@0"]
           Sample.board _ 0%nat 2%nat "cpus/cpu@0" board_closed Hl eq_refl
           eq_refl).
Defined.

(** X11.  Property operations ([qdt_setprop] and its string, cells, u64s and
    phandle variants, [qdt_delprop]) leave path resolution as it was: every
    path resolves, from every live node, to what it resolved to before. *)
Theorem property_calls_keep_paths (be : bool) (op : call) (h h' : heap)
    (node : ptr) (path : string) :
  closed h -> is_Some (h !! node) -> is_property_call op = true ->
  exec be op h = Ret h' ->
  qdt_get_node_relative h' node path = qdt_get_node_relative h node path.
Proof.
  intros Hc Hn Hop Hr.
  pose proof (exec_same_shape be op h h' Hop Hr) as Hs.
  pose proof (same_shape_closed h h' Hs Hc) as Hc'.
  assert (Hn' : is_Some (h' !! node)).
  { destruct Hn as [m Hm]. destruct (proj2 Hs node m Hm) as (m' & Hm' & _).
    eauto. }
  rewrite !relative_is_resolve by assumption. f_equal.
  now apply same_shape_resolve.
Qed.

Lemma property_calls_keep_paths_witness :
  closed Sample.board /\ is_Some (Sample.board !! 0%nat) /\
  exists h',
    exec true (SetPhandle 2%nat 7) Sample.board = Ret h' /\
    qdt_get_node_relative h' 0%nat "cpus/cpu@0" =
    qdt_get_node_relative Sample.board 0%nat "cpus/cpu@0".
Proof.
  assert (Hl : is_Some (Sample.board !! 0%nat)) by (eexists; reflexivity).
  split; [exact board_closed|]. split; [exact Hl|].
  eexists. split; [reflexivity|].
  exact (property_calls_keep_paths true (SetPhandle 2%nat 7) Sample.board _
           0%nat "cpus/cpu@0" board_closed Hl eq_refl eq_refl).
Defined.

Lemma slashfree_nil : slashfree [].
Proof. intros p n Hp. discriminate. Qed.

Lemma exec_slashfree (be : bool) (op : call) (h h' : heap) :
  exec be op h = Ret h' -> slashfree h -> slashfree h'.
Proof.
  intros Hr Hs.
  destruct (is_property_call op) eqn:Hop.
  - pose proof (exec_same_shape be op h h' Hop Hr) as [Hlen Hsh].
    intros p n' Hp. apply lookup_lt_Some in Hp as Hlt. rewrite Hlen in Hlt.
    apply lookup_lt_is_Some in Hlt as [n Hn].
    destruct (Hsh p n Hn) as (n2 & Hn2 & Hnm & _).
    rewrite Hp in Hn2. injection Hn2 as <-. rewrite Hnm. eauto.
  - destruct op; try discriminate; simpl in Hr;
      apply bind_Ret in Hr as ([r h1] & Hr & [= <-]).
    + rewrite qdt_new_node_eq in Hr.
      destruct (strchr nm slash) eqn:Hc; [discriminate|].
      injection Hr as _ <-. apply strchr_None in Hc. intros p n Hp.
      apply lookup_snoc_Some in Hp as [[_ Hp]|[_ <-]]; eauto.
    + rewrite qdt_add_subnode_eq in Hr.
      destruct (strchr nm slash) eqn:Hc; [discriminate|].
      destruct (h !! parent_) as [pn|] eqn:Hpn; [|discriminate].
      injection Hr as _ <-. apply strchr_None in Hc. intros p n Hp.
      apply list_lookup_insert_Some in Hp as [(<- & <- & _)|[_ Hp]].
      * simpl. eauto.
      * apply lookup_snoc_Some in Hp as [[_ Hp]|[_ <-]]; eauto.
Qed.

Lemma run_slashfree (be : bool) (ops : list call) (h h' : heap) :
  run be ops h = Ret h' -> slashfree h -> slashfree h'.
Proof.
  revert h. induction ops as [|op ops IH]; simpl; intros h.
  - now intros [= <-].
  - intros Hr Hs. apply bind_Ret in Hr as (h1 & H1 & Hr).
    eapply IH; [exact Hr|]. eapply exec_slashfree; eauto.
Qed.

(** X12.  In a heap built through the API no node name contains '/', and a
    child is found under its parent by its own name as soon as no child
    listed before it has the same name. *)
Theorem children_found_by_name (h : heap) :
  reachable h ->
  (forall p n, h !! p = Some n -> ~ contains slash (name n)) /\
  (forall p n pre c post m,
     h !! p = Some n -> children n = pre ++ c :: post -> h !! c = Some m ->
     Forall (fun x => exists y, h !! x = Some y /\ name y <> name m) pre ->
     qdt_get_node_relative h p (name m) = Ret (Some c)).
Proof.
  intros Hr. pose proof (reachable_shaped h Hr) as [Hf _].
  destruct Hr as (be & ops & Hr).
  pose proof (run_slashfree be ops [] h Hr slashfree_nil) as Hs.
  split; [exact Hs|].
  intros p n pre c post m Hp Hch Hc Hpre.
  rewrite relative_last; eauto using forward_closed. f_equal.
  unfold lookup_child. rewrite Hp, Hch. now apply child_named_first.
Qed.

Lemma children_found_by_name_witness :
  reachable Sample.board /\
  qdt_get_node_relative Sample.board 0%nat "memory" = Ret (Some 3%nat).
Proof.
  split; [exact board_reachable|].
  apply (proj2 (children_found_by_name Sample.board board_reachable)
           0%nat _ [1%nat] 3%nat [] (mkNode "memory" (Some 0%nat) [] [])
           eq_refl eq_refl eq_refl).
  apply Forall_singleton. eexists. split; [reflexivity|discriminate].
Defined.

(** ** Flattening *)

Lemma tree_induction (P : tree -> Prop) :
  (forall nm ps ts, Forall P ts -> P (Tree nm ps ts)) -> forall t, P t.
Proof.
  intros HP.
  assert (Hn : forall n t, (height t <= n)%nat -> P t).
  { induction n as [|n IH]; intros [nm ps ts] Hh; simpl in Hh; [lia|].
    apply HP. apply le_S_n in Hh.
    induction ts as [|t ts IHts]; constructor; simpl in Hh.
    - apply IH. lia.
    - apply IHts. lia. }
  intros t. now apply (Hn (height t)).
Qed.

Lemma backlinked_nil : backlinked [].
Proof. intros c m q Hc. discriminate. Qed.

Lemma effect_backlinked (h h' : heap) :
  effect h h' -> backlinked h -> backlinked h'.
Proof.
  intros He Hb c m q Hc Hpar.
  pose proof (effect_extends h h' He) as Hx.
  destruct (h !! c) as [m0|] eqn:Hc0.
  - destruct (Hx c m0 Hc0) as (m' & Hm' & _ & Hp' & _).
    rewrite Hc in Hm'. injection Hm' as <-. rewrite Hpar in Hp'.
    destruct (Hb c m0 q Hc0 (eq_sym Hp')) as (n & Hn & Hin).
    destruct (Hx q n Hn) as (n' & Hn' & _ & _ & k & Hk).
    exists n'. split; [exact Hn'|]. rewrite Hk. apply elem_of_app. now left.
  - apply lookup_ge_None in Hc0.
    destruct He as [nm|p n nm Hn|p n ps Hn _].
    + apply lookup_snoc_Some in Hc as [[Hlt _]|[_ <-]]; [lia|discriminate].
    + apply lookup_lt_Some in Hn as Hlt.
      rewrite list_lookup_insert_ne in Hc by lia.
      apply lookup_snoc_Some in Hc as [[Hlt' _]|[-> <-]]; [lia|].
      simpl in Hpar. injection Hpar as <-. eexists. split.
      * apply list_lookup_insert_eq. rewrite length_app. simpl. lia.
      * simpl. apply elem_of_app. right. now apply list_elem_of_singleton.
    + apply lookup_lt_Some in Hc. rewrite length_insert in Hc. lia.
Qed.

Lemma reachable_backlinked (h : heap) : reachable h -> backlinked h.
Proof.
  intros (be & ops & Hr). apply run_effect in Hr.
  assert (Hall : forall a b, rtc effect a b -> backlinked a -> backlinked b)
    by (induction 1; eauto using effect_backlinked).
  exact (Hall _ _ Hr backlinked_nil).
Qed.

Section FlattenEdges.

Context {fdt : Type} (H : Libfdt fdt).

Lemma flatten_children_not_abort (rec : fdt -> ptr -> flat) (b : fdt)
    (cs : list ptr) :
  (forall b c, rec b c <> Some Abort) ->
  flatten_children rec b cs <> Some Abort.
Proof.
  intros Hrec. revert b. induction cs as [|c cs IH]; intros b; simpl;
    [discriminate|].
  pose proof (Hrec b c) as Hc.
  destruct (rec b c) as [[[b' [e|]]| |]|]; simpl; auto; discriminate.
Qed.

Lemma flatten_node_not_abort (fuel : nat) (h : heap) (b : fdt) (p : ptr) :
  qdt_flatten_node fuel h b p <> Some Abort.
Proof.
  revert b p. induction fuel as [|fuel IH]; intros b p; simpl;
    [discriminate|].
  unfold deref. destruct (h !! p) as [n|]; [|discriminate].
  destruct (fdt_begin_node b (name n)) as [ret b1].
  destruct (ret <? 0); [discriminate|].
  destruct (flatten_properties b1 (properties n)) as [b2 [e|]]; simpl;
    [discriminate|].
  pose proof (flatten_children_not_abort (qdt_flatten_node fuel h) b2
                (children n) IH) as Hk.
  destruct (flatten_children (qdt_flatten_node fuel h) b2 (children n))
    as [[[b3 [e|]]| |]|]; simpl; try discriminate; [|contradiction].
  destruct (fdt_end_node b3) as [ret' b4]. now destruct (ret' <? 0).
Qed.

Lemma qdt_flatten_Abort (fuel : nat) (h : heap) (p : ptr) (n : QDTNode)
    (bufsize : Z) :
  h !! p = Some n ->
  qdt_flatten fuel h p bufsize = Some Abort <-> is_Some (parent n).
Proof.
  intros Hn. unfold qdt_flatten. rewrite (deref_Some _ _ _ Hn).
  destruct (parent n) as [q|].
  - rewrite bool_decide_eq_true_2 by eauto. split; eauto.
  - rewrite bool_decide_eq_false_2 by (intros [? ?]; discriminate).
    split; [|intros [? ?]; discriminate].
    destruct (fdt_create (g_malloc0 bufsize) bufsize) as [ret b1].
    destruct (ret <? 0); [discriminate|].
    destruct (fdt_finish_reservemap b1) as [ret2 b2].
    destruct (ret2 <? 0); [discriminate|].
    pose proof (flatten_node_not_abort fuel h b2 p) as Hk.
    destruct (qdt_flatten_node fuel h b2 p) as [[[b3 [e|]]| |]|];
      try discriminate; [|contradiction].
    destruct (fdt_finish b3) as [ret3 b4].
    destruct (ret3 <? 0); discriminate.
Qed.

End FlattenEdges.

(** X13.  In a heap built through the API a node has a parent exactly when
    some node lists it as a child, and [qdt_flatten] fails its assertion on
    exactly those nodes, whatever the encoder and the capacity: only a node
    that was never attached can be flattened. *)
Theorem qdt_flatten_only_roots (h : heap) (p : ptr) (n : QDTNode) :
  reachable h -> h !! p = Some n ->
  (is_Some (parent n) <-> exists q m, h !! q = Some m /\ p ∈ children m) /\
  forall (fdt : Type) (H : Libfdt fdt) (fuel : nat) (bufsize : Z),
    qdt_flatten fuel h p bufsize = Some Abort <->
    exists q m, h !! q = Some m /\ p ∈ children m.
Proof.
  intros Hr Hn.
  assert (Hpar : is_Some (parent n) <->
                 exists q m, h !! q = Some m /\ p ∈ children m).
  { split.
    - intros [q Hq].
      destruct (reachable_backlinked h Hr p n q Hn Hq) as (m & Hm & Hin).
      eauto.
    - intros (q & m & Hm & Hin).
      destruct (reachable_linked h Hr q m Hm) as [_ Hback].
      rewrite Forall_forall in Hback.
      destruct (Hback p Hin) as (n' & Hn' & Hq).
      rewrite Hn in Hn'. injection Hn' as <-. eauto. }
  split; [exact Hpar|]. intros fdt H fuel bufsize.
  now rewrite (qdt_flatten_Abort H fuel h p n bufsize Hn).
Qed.

Lemma qdt_flatten_only_roots_witness :
  reachable Sample.board /\
  Sample.board !! 1%nat = Some (mkNode "cpus" (Some 0%nat) [] [2%nat]) /\
  qdt_flatten (H := Sample.tape) 3 Sample.board 1%nat 100 = Some Abort.
Proof.
  split; [exact board_reachable|]. split; [reflexivity|].
  apply (proj2 (qdt_flatten_only_roots Sample.board 1%nat _ board_reachable
                  eq_refl) Z Sample.tape 3%nat 100).
  exists 0%nat. eexists. split; [reflexivity|].
  simpl. apply list_elem_of_here.
Defined.

Lemma nesting_properties (ps : list QDTProperty) (rest : list fdt_call)
    (d : nat) :
  nesting (map property_call ps ++ rest) (S d) = nesting rest (S d).
Proof. induction ps as [|p ps IH]; simpl; auto. Qed.

Lemma nesting_emission (t : tree) :
  forall rest d, nesting (emission t ++ rest) d = nesting rest d.
Proof.
  induction t as [nm ps ts IH] using tree_induction. intros rest d.
  cbn [emission]. rewrite <- !app_comm_cons, <- !app_assoc.
  cbn [nesting]. rewrite nesting_properties.
  induction IH as [|t ts Ht _ IHts]; simpl; [reflexivity|].
  rewrite <- app_assoc, Ht. exact IHts.
Qed.

Lemma length_emission (t : tree) :
  length (emission t) = (2 * nodes t + all_properties t)%nat.
Proof.
  induction t as [nm ps ts IH] using tree_induction.
  cbn [emission nodes all_properties length].
  rewrite !length_app, length_map. cbn [length].
  assert (Hk : length (flat_map emission ts) =
               (2 * list_sum (map nodes ts)
                + list_sum (map all_properties ts))%nat).
  { induction IH as [|t ts Ht _ IHts]; simpl; [reflexivity|].
    rewrite length_app, Ht, IHts. lia. }
  rewrite Hk. lia.
Qed.

Lemma qdt_flatten_quiet (h : heap) (root : ptr) (r : QDTNode) (t : tree)
    (bufsize : Z) (fuel : nat) :
  h !! root = Some r -> parent r = None -> represents h root t ->
  (height t <= fuel)%nat ->
  qdt_flatten (H := journal (H := Sample.quiet)) fuel h root bufsize =
  Some (Ret (mkFlattened (Some (tt, flatten_calls bufsize t)) None false)).
Proof.
  intros Hr Hp Hrep Hfuel.
  rewrite (qdt_flatten_eq (journal (H := Sample.quiet)) h root r t bufsize
             fuel Hr Hp Hrep Hfuel).
  change (g_malloc0 (Libfdt := journal (H := Sample.quiet)) bufsize)
    with (tt, @nil fdt_call).
  now rewrite run_calls_journal, run_calls_quiet, issued_quiet.
Qed.

(** X14.  A complete run of [qdt_flatten] issues a well-nested sequence:
    the framing calls stand outside of every node, each property stands
    inside of one, every node-begin is closed by its node-end and nothing is
    open at the end.  It counts three framing calls, two calls for each node
    and one for each property. *)
Theorem qdt_flatten_well_nested (h : heap) (root : ptr) (r : QDTNode)
    (t : tree) (bufsize : Z) (fuel : nat) :
  h !! root = Some r -> parent r = None -> represents h root t ->
  (height t <= fuel)%nat ->
  exists log,
    qdt_flatten (H := journal (H := Sample.quiet)) fuel h root bufsize =
      Some (Ret (mkFlattened (Some (tt, log)) None false)) /\
    nesting log 0 = Some 0%nat /\
    length log = (3 + 2 * nodes t + all_properties t)%nat.
Proof.
  intros Hr Hp Hrep Hfuel. exists (flatten_calls bufsize t).
  split; [now apply (qdt_flatten_quiet h root r)|]. split.
  - unfold flatten_calls. cbn [nesting]. now rewrite nesting_emission.
  - unfold flatten_calls. cbn [length].
    rewrite length_app, length_emission. simpl. lia.
Qed.

Lemma qdt_flatten_well_nested_witness :
  Sample.board !! 0%nat =
    Some (mkNode "" None [mkProp "model" [113; 100; 116; 0]]
            [1%nat; 3%nat]) /\
  represents Sample.board 0%nat Sample.board_tree /\
  (height Sample.board_tree <= 3)%nat /\
  exists log,
    qdt_flatten (H := journal (H := Sample.quiet)) 3 Sample.board 0%nat 64 =
      Some (Ret (mkFlattened (Some (tt, log)) None false)) /\
    nesting log 0 = Some 0%nat /\ length log = 13%nat.
Proof.
  assert (Hh : (height Sample.board_tree <= 3)%nat) by (simpl; lia).
  split; [reflexivity|]. split; [exact board_represents|].
  split; [exact Hh|].
  exact (qdt_flatten_well_nested Sample.board 0%nat _ Sample.board_tree 64 3
           eq_refl eq_refl board_represents Hh).
Defined.

Lemma parse_props_emission (ps : list QDTProperty) (rest : list fdt_call) :
  match rest with
  | Property _ _ _ :: _ => False
  | _ => True
  end ->
  parse_props (map property_call ps ++ rest) = (ps, rest).
Proof.
  intros Hrest. induction ps as [|[nm v] ps IH]; simpl.
  - destruct rest as [|[] rest]; try reflexivity. contradiction.
  - now rewrite IH.
Qed.

Lemma parse_kids_stop (fuel : nat) (rest : list fdt_call) :
  match rest with
  | BeginNode _ :: _ => False
  | _ => True
  end ->
  parse_kids (S fuel) rest = Some ([], rest).
Proof. destruct rest as [|[] rest]; simpl; try reflexivity. intros []. Qed.

Lemma emission_positive (t : tree) : (1 <= length (emission t))%nat.
Proof. destruct t. simpl. lia. Qed.

(** the decoder reads back what the traversal emits *)
Lemma parse_node_emission (t : tree) :
  forall fuel rest, (length (emission t) <= fuel)%nat ->
  parse_node fuel (emission t ++ rest) = Some (t, rest).
Proof.
  induction t as [nm ps ts IH] using tree_induction. intros fuel rest Hfuel.
  destruct fuel as [|fuel]; [simpl in Hfuel; lia|].
  cbn [emission] in *. rewrite <- app_comm_cons, <- !app_assoc.
  cbn [parse_node]. cbn [length] in Hfuel.
  rewrite !length_app in Hfuel. cbn [length] in Hfuel.
  assert (Hk : forall f rest',
             match rest' with
             | BeginNode _ :: _ => False
             | _ => True
             end ->
             (length (flat_map emission ts) + 1 <= f)%nat ->
             parse_kids f (flat_map emission ts ++ rest') = Some (ts, rest')).
  { clear Hfuel. induction IH as [|t ts Ht _ IHts]; intros f rest' Hr Hf.
    - destruct f as [|f]; [lia|]. now apply parse_kids_stop.
    - destruct f as [|f]; [lia|]. cbn [flat_map] in *.
      rewrite length_app in Hf. pose proof (emission_positive t) as Hpos.
      rewrite <- app_assoc.
      assert (Hone : parse_node f (emission t ++ flat_map emission ts ++ rest')
                     = Some (t, flat_map emission ts ++ rest'))
        by (apply Ht; lia).
      destruct t as [nm' ps' ts']. cbn [emission] in *.
      rewrite <- app_comm_cons in *. cbn [parse_kids].
      rewrite Hone, IHts by (auto; lia). reflexivity. }
  rewrite parse_props_emission.
  - rewrite Hk by (simpl; auto; lia). reflexivity.
  - destruct ts as [|[nm' ps' ts'] ts]; simpl; exact I.
Qed.

Lemma parse_emission (t : tree) : parse (emission t) = Some t.
Proof.
  unfold parse.
  rewrite <- (app_nil_r (emission t)) at 2.
  now rewrite parse_node_emission.
Qed.

(** X15.  Nothing of a tree is lost in flattening: the calls a complete
    traversal issues decode back to the tree under the node, with the names,
    the properties with their bytes and order, and the children in order.
    Hence two nodes whose traversals issue the same calls head equal
    trees. *)
Theorem qdt_flatten_node_decodes (h : heap) (p : ptr) (t : tree)
    (fuel : nat) :
  represents h p t -> (height t <= fuel)%nat ->
  exists log,
    qdt_flatten_node (H := journal (H := Sample.quiet)) fuel h (tt, []) p =
      Some (Ret ((tt, log), None)) /\
    parse log = Some t /\
    forall h2 p2 t2 fuel2,
      represents h2 p2 t2 -> (height t2 <= fuel2)%nat ->
      qdt_flatten_node (H := journal (H := Sample.quiet)) fuel2 h2 (tt, []) p2
        = Some (Ret ((tt, log), None)) ->
      t2 = t.
Proof.
  intros Hrep Hfuel.
  assert (Hlog : forall h p t fuel, represents h p t ->
            (height t <= fuel)%nat ->
            qdt_flatten_node (H := journal (H := Sample.quiet)) fuel h
              (tt, []) p = Some (Ret ((tt, emission t), None))).
  { intros h0 p0 t0 fuel0 Hr0 Hf0.
    rewrite (flatten_node_journal Sample.quiet h0 p0 t0 fuel0 tt Hr0 Hf0).
    now rewrite run_calls_quiet, issued_quiet. }
  exists (emission t). split; [now apply Hlog|].
  split; [apply parse_emission|].
  intros h2 p2 t2 fuel2 Hrep2 Hfuel2 Hsame.
  rewrite (Hlog h2 p2 t2 fuel2 Hrep2 Hfuel2) in Hsame.
  injection Hsame as Hem.
  pose proof (parse_emission t2) as Hp2. rewrite Hem in Hp2.
  rewrite parse_emission in Hp2. now injection Hp2.
Qed.

Lemma qdt_flatten_node_decodes_witness :
  represents Sample.board 0%nat Sample.board_tree /\
  (height Sample.board_tree <= 3)%nat /\
  exists log,
    qdt_flatten_node (H := journal (H := Sample.quiet)) 3 Sample.board
      (tt, []) 0%nat = Some (Ret ((tt, log), None)) /\
    parse log = Some Sample.board_tree.
Proof.
  assert (Hh : (height Sample.board_tree <= 3)%nat) by (simpl; lia).
  split; [exact board_represents|]. split; [exact Hh|].
  destruct (qdt_flatten_node_decodes Sample.board 0%nat Sample.board_tree 3
              board_represents Hh) as (log & Ha & Hb & _).
  exists log. auto.
Defined.

(** ** Stored values *)

Lemma fold_big_endian (n : nat) (v a : Z) :
  fold_left (fun x b => x * 256 + b) (big_endian n v) a =
  a * 256 ^ Z.of_nat n + v mod 256 ^ Z.of_nat n.
Proof.
  revert a. induction n as [|n IH]; intros a.
  - simpl. rewrite Z.mod_1_r. lia.
  - cbn [big_endian fold_left]. rewrite IH.
    rewrite Nat2Z.inj_succ, Z.pow_succ_r by lia.
    rewrite (Z.mul_comm 256 (256 ^ Z.of_nat n)).
    rewrite (Z.rem_mul_r v (256 ^ Z.of_nat n) 256) by lia.
    ring.
Qed.

Lemma decode_big_endian (n : nat) (v : Z) :
  decode_be (big_endian n v) = v mod 256 ^ Z.of_nat n.
Proof. unfold decode_be. rewrite fold_big_endian. lia. Qed.

Lemma decode_words_big_endian (w : nat) (vs : list Z) :
  decode_words w (length vs) (flat_map (big_endian w) vs) =
  map (fun v => v mod 256 ^ Z.of_nat w) vs.
Proof.
  induction vs as [|v vs IH]; [reflexivity|].
  cbn [length flat_map decode_words map].
  rewrite take_app_length', drop_app_length'
    by (now rewrite big_endian_length).
  now rewrite decode_big_endian, IH.
Qed.

Lemma map_mod_id (m : Z) (vs : list Z) :
  Forall (fun v => 0 <= v < m) vs -> map (fun v => v mod m) vs = vs.
Proof.
  induction 1 as [|v vs Hv _ IH]; simpl; [reflexivity|].
  now rewrite IH, Z.mod_small.
Qed.

Lemma big_endian_bytes (n : nat) (v : Z) :
  Forall (fun b => 0 <= b < 256) (big_endian n v).
Proof.
  induction n as [|n IH]; simpl; constructor; [|exact IH].
  apply Z.mod_pos_bound. lia.
Qed.

(** X16.  The cells [qdt_setprop_cells_] stores read back, four bytes at a
    time and most significant byte first, as the values it was given,
    reduced to 32 bits; likewise [qdt_setprop_u64s_] with eight bytes and 64
    bits.  Values within range are read back unchanged, on either host byte
    order, and every stored byte lies in 0..255. *)
Theorem cells_read_back (be : bool) (h : heap) (node : ptr) (n : QDTNode)
    (nm : string) (vs : list Z) :
  h !! node = Some n ->
  exists h4 p4 h8 p8,
    qdt_setprop_cells_ be h node nm vs = Ret (p4, h4) /\
    qdt_setprop_u64s_ be h node nm vs = Ret (p8, h8) /\
    decode_words 4 (length vs) (val p4) = map (fun v => v mod 2 ^ 32) vs /\
    decode_words 8 (length vs) (val p8) = map (fun v => v mod 2 ^ 64) vs /\
    (Forall (fun v => 0 <= v < 2 ^ 32) vs ->
     decode_words 4 (length vs) (val p4) = vs) /\
    (Forall (fun v => 0 <= v < 2 ^ 64) vs ->
     decode_words 8 (length vs) (val p8) = vs) /\
    Forall (fun b => 0 <= b < 256) (val p4) /\
    Forall (fun b => 0 <= b < 256) (val p8).
Proof.
  intros Hn.
  rewrite qdt_setprop_cells_eq, qdt_setprop_u64s_eq, !qdt_setprop_eq, Hn.
  eexists _, _, _, _. split; [reflexivity|]. split; [reflexivity|].
  cbn [val]. rewrite !decode_words_big_endian.
  change (256 ^ Z.of_nat 4) with (2 ^ 32).
  change (256 ^ Z.of_nat 8) with (2 ^ 64).
  repeat split.
  - apply map_mod_id.
  - apply map_mod_id.
  - apply Forall_flat_map, Forall_forall. intros v _. apply big_endian_bytes.
  - apply Forall_flat_map, Forall_forall. intros v _. apply big_endian_bytes.
Qed.

Lemma cells_read_back_witness :
  Sample.board !! 3%nat = Some (mkNode "memory" (Some 0%nat) [] []) /\
  exists h4 p4,
    qdt_setprop_cells_ false Sample.board 3%nat "reg" [0; 1073741824] =
      Ret (p4, h4) /\
    decode_words 4 2 (val p4) = [0; 1073741824].
Proof.
  split; [reflexivity|].
  destruct (cells_read_back false Sample.board 3%nat _ "reg" [0; 1073741824]
              eq_refl) as (h4 & p4 & _ & _ & Ha & _ & _ & _ & Hb & _).
  exists h4, p4. split; [exact Ha|]. apply Hb.
  repeat constructor; lia.
Defined.

Lemma bytes_with_nul_length (s : string) :
  length (bytes_with_nul s) = S (strlen s).
Proof. induction s as [|a s IH]; simpl; [reflexivity|now rewrite IH]. Qed.

Lemma bytes_with_nul_last (s : string) : last (bytes_with_nul s) = Some 0.
Proof.
  induction s as [|a s IH]; [reflexivity|].
  cbn [bytes_with_nul]. destruct (bytes_with_nul s) eqn:E; [discriminate|].
  exact IH.
Qed.

Lemma cstring_of_bytes_with_nul (s : string) :
  ~ contains Ascii.zero s -> cstring_of_bytes (bytes_with_nul s) = s.
Proof.
  induction s as [|a s IH]; intros Hz; [reflexivity|].
  rewrite contains_cons in Hz. cbn [bytes_with_nul cstring_of_bytes].
  destruct (Z.eqb_spec (uchar a) 0) as [He|Hne].
  - exfalso. apply Hz. left. apply uchar_inj. now rewrite He.
  - unfold uchar. rewrite N2Z.id, ascii_N_embedding, IH by tauto.
    reflexivity.
Qed.

(** X17.  [qdt_setprop_string] stores the characters of the string followed
    by one terminating zero byte, [strlen + 1] bytes in all, so that the
    value read as a C string is the string that was given. *)
Theorem qdt_setprop_string_stores_cstring (h : heap) (node : ptr)
    (n : QDTNode) (nm s : string) :
  h !! node = Some n -> ~ contains Ascii.zero s ->
  exists h' p,
    qdt_setprop_string h node nm s = Ret (p, h') /\
    prop_name p = nm /\
    len p = S (strlen s) /\
    last (val p) = Some 0 /\
    cstring_of_bytes (val p) = s.
Proof.
  intros Hn Hz. unfold qdt_setprop_string. rewrite qdt_setprop_eq, Hn.
  eexists _, _. split; [reflexivity|]. unfold len. cbn [val prop_name].
  split; [reflexivity|]. split; [apply bytes_with_nul_length|].
  split; [apply bytes_with_nul_last|]. now apply cstring_of_bytes_with_nul.
Qed.

Lemma qdt_setprop_string_stores_cstring_witness :
  Sample.board !! 3%nat = Some (mkNode "memory" (Some 0%nat) [] []) /\
  ~ contains Ascii.zero "memory" /\
  exists h' p,
    qdt_setprop_string Sample.board 3%nat "device_type" "memory" =
      Ret (p, h') /\
    len p = 7%nat /\ cstring_of_bytes (val p) = "memory".
Proof.
  assert (Hz : ~ contains Ascii.zero "memory").
  { unfold contains. simpl. intros [|[|[|[|[|[|[]]]]]]]; discriminate. }
  split; [reflexivity|]. split; [exact Hz|].
  destruct (qdt_setprop_string_stores_cstring Sample.board 3%nat _
              "device_type" "memory" eq_refl Hz)
    as (h' & p & Ha & _ & Hb & _ & Hc).
  exists h', p. auto.
Defined.

(** X18.  [qdt_new_tree] never fails and gives a root that [qdt_flatten]
    accepts: flattening the fresh tree asks the encoder for exactly
    fdt_create, fdt_finish_reservemap, node-begin with the empty name,
    node-end and fdt_finish, and returns the buffer if these five
    succeed. *)
Theorem qdt_new_tree_flattens (fdt : Type) (H : Libfdt fdt) (h : heap)
    (bufsize : Z) (fuel : nat) :
  exists root h',
    qdt_new_tree h = Ret (root, h') /\
    h' !! root = Some (mkNode "" None [] []) /\
    qdt_flatten (S fuel) h' root bufsize =
    Some (Ret match run_calls [Create bufsize; FinishReservemap;
                               BeginNode ""; EndNode; Finish]
                      (g_malloc0 bufsize) with
              | (b, None) => mkFlattened (Some b) None false
              | (_, Some e) => fail e
              end).
Proof.
  unfold qdt_new_tree. rewrite qdt_new_node_eq. simpl strchr. cbv iota.
  eexists _, _. split; [reflexivity|].
  assert (Hroot : (h ++ [mkNode "" None [] []]) !! length h =
                  Some (mkNode "" None [] []))
    by (apply list_lookup_middle; reflexivity).
  split; [exact Hroot|].
  apply (qdt_flatten_eq H _ _ _ (Tree "" [] []) bufsize (S fuel) Hroot
           eq_refl).
  - exists 1%nat. simpl. now rewrite Hroot.
  - simpl. lia.
Qed.

(** ** Composition and pointer safety *)

Lemma remove_named_app_absent (nm : string) (l1 l2 : list QDTProperty) :
  nm ∉ names l1 -> remove_named nm (l1 ++ l2) = l1 ++ remove_named nm l2.
Proof.
  unfold names. induction l1 as [|p l1 IH]; simpl; [reflexivity|].
  rewrite not_elem_of_cons. intros [Hp Hl].
  destruct (String.eqb_spec (prop_name p) nm); [congruence|].
  now rewrite IH.
Qed.

(** X19.  For [qdt_set_phandle] the last call wins.  On a node with
    distinct property names and for 32-bit values other than the two
    reserved ones, setting a phandle and then another leaves the heap that
    setting the second alone would have left; the node then has exactly one
    "linux,phandle" and one "phandle" property, both holding the big-endian
    encoding of the second value, and nothing of the first. *)
Theorem qdt_set_phandle_last_wins (be : bool) (h : heap) (node : ptr)
    (n : QDTNode) (v1 v2 : Z) :
  h !! node = Some n -> NoDup (names (properties n)) ->
  0 < v1 < 4294967295 -> 0 < v2 < 4294967295 ->
  exists h1 h2 n2,
    qdt_set_phandle be h node v1 = Ret h1 /\
    qdt_set_phandle be h1 node v2 = Ret h2 /\
    qdt_set_phandle be h node v2 = Ret h2 /\
    h2 !! node = Some n2 /\
    properties n2 =
      remove_named "phandle" (remove_named "linux,phandle" (properties n))
      ++ [mkProp "linux,phandle" (big_endian 4 v2);
          mkProp "phandle" (big_endian 4 v2)] /\
    named "linux,phandle" (properties n2) =
      [mkProp "linux,phandle" (big_endian 4 v2)] /\
    named "phandle" (properties n2) = [mkProp "phandle" (big_endian 4 v2)].
Proof.
  intros Hn Hnd Hv1 Hv2. apply lookup_lt_Some in Hn as Hlt.
  assert (Hu1 : uint32_t v1 = v1) by (apply uint32_t_range; lia).
  assert (Hu2 : uint32_t v2 = v2) by (apply uint32_t_range; lia).
  set (base := remove_named "phandle"
                 (remove_named "linux,phandle" (properties n))).
  assert (HL : "linux,phandle" ∉ names base).
  { intros Hin. apply names_remove_named in Hin.
    now apply (remove_named_gone "linux,phandle" (properties n)). }
  assert (HP : "phandle" ∉ names base).
  { apply remove_named_gone. now apply NoDup_remove_named. }
  rewrite !(qdt_set_phandle_eq be h node n)
    by (try assumption; rewrite ?Hu1, ?Hu2; lia).
  rewrite Hu1, Hu2. fold base.
  eexists _, _, _. split; [reflexivity|].
  assert (Hrm : remove_named "phandle"
                  (remove_named "linux,phandle"
                     (base ++ [mkProp "linux,phandle" (big_endian 4 v1);
                               mkProp "phandle" (big_endian 4 v1)])) = base).
  { rewrite (remove_named_app_absent "linux,phandle" base) by assumption.
    change (remove_named "linux,phandle"
              [mkProp "linux,phandle" (big_endian 4 v1);
               mkProp "phandle" (big_endian 4 v1)])
      with [mkProp "phandle" (big_endian 4 v1)].
    now apply remove_named_snoc_same. }
  split.
  { erewrite qdt_set_phandle_eq;
      [|now apply list_lookup_insert_eq|rewrite Hu2; lia..].
    cbn [properties set_properties].
    now rewrite list_insert_insert_eq, Hrm, Hu2. }
  split; [reflexivity|].
  split; [now apply list_lookup_insert_eq|].
  cbn [properties set_properties]. split; [reflexivity|].
  unfold named. rewrite !filter_app.
  fold (named "linux,phandle" base) (named "phandle" base).
  rewrite !named_absent by assumption. split; reflexivity.
Qed.

Lemma qdt_set_phandle_last_wins_witness :
  Sample.board !! 3%nat = Some (mkNode "memory" (Some 0%nat) [] []) /\
  exists h1 h2 n2,
    qdt_set_phandle false Sample.board 3%nat 1 = Ret h1 /\
    qdt_set_phandle false h1 3%nat 2 = Ret h2 /\
    qdt_set_phandle false Sample.board 3%nat 2 = Ret h2 /\
    h2 !! 3%nat = Some n2 /\
    properties n2 = [mkProp "linux,phandle" [0; 0; 0; 2];
                     mkProp "phandle" [0; 0; 0; 2]].
Proof.
  split; [reflexivity|].
  destruct (qdt_set_phandle_last_wins false Sample.board 3%nat _ 1 2 eq_refl)
    as (h1 & h2 & n2 & Ha & Hb & Hc & Hd & He & _);
    [apply NoDup_nil_2|lia..|].
  exists h1, h2, n2. auto.
Defined.

Section PointerSafety.

Context {fdt : Type} (H : Libfdt fdt).

Lemma flatten_children_not_wild (rec : fdt -> ptr -> flat) (b : fdt)
    (cs : list ptr) :
  (forall b c, c ∈ cs -> rec b c <> Some Wild) ->
  flatten_children rec b cs <> Some Wild.
Proof.
  revert b. induction cs as [|c cs IH]; intros b Hrec; simpl;
    [discriminate|].
  pose proof (Hrec b c (list_elem_of_here _ _)) as Hc.
  destruct (rec b c) as [[[b' [e|]]| |]|]; simpl; try discriminate;
    [|contradiction].
  apply IH. intros b0 c0 Hin. apply Hrec. now apply list_elem_of_further.
Qed.

Lemma flatten_node_not_wild (h : heap) :
  closed h ->
  forall fuel b p, (p < length h)%nat ->
  qdt_flatten_node fuel h b p <> Some Wild.
Proof.
  intros Hc. induction fuel as [|fuel IH]; intros b p Hp; simpl;
    [discriminate|].
  apply lookup_lt_is_Some in Hp as [n Hn]. unfold deref. rewrite Hn.
  destruct (fdt_begin_node b (name n)) as [ret b1].
  destruct (ret <? 0); [discriminate|].
  destruct (flatten_properties b1 (properties n)) as [b2 [e|]]; simpl;
    [discriminate|].
  assert (Hk : flatten_children (qdt_flatten_node fuel h) b2 (children n)
               <> Some Wild).
  { apply flatten_children_not_wild. intros b0 c Hin. apply IH.
    eapply closed_lookup; eauto. }
  destruct (flatten_children (qdt_flatten_node fuel h) b2 (children n))
    as [[[b3 [e|]]| |]|]; simpl; try discriminate; [|contradiction].
  destruct (fdt_end_node b3) as [ret' b4]. now destruct (ret' <? 0).
Qed.

Lemma qdt_flatten_not_wild (h : heap) (fuel : nat) (p : ptr)
    (bufsize : Z) :
  closed h -> (p < length h)%nat ->
  qdt_flatten fuel h p bufsize <> Some Wild.
Proof.
  intros Hc Hp. pose proof (flatten_node_not_wild h Hc fuel) as Hk.
  apply lookup_lt_is_Some in Hp as Hn. destruct Hn as [n Hn].
  unfold qdt_flatten. rewrite (deref_Some _ _ _ Hn).
  destruct (bool_decide (is_Some (parent n))); [discriminate|].
  destruct (fdt_create (g_malloc0 bufsize) bufsize) as [ret b1].
  destruct (ret <? 0); [discriminate|].
  destruct (fdt_finish_reservemap b1) as [ret2 b2].
  destruct (ret2 <? 0); [discriminate|].
  specialize (Hk b2 p Hp).
  destruct (qdt_flatten_node fuel h b2 p) as [[[b3 [e|]]| |]|];
    try discriminate; [|contradiction].
  destruct (fdt_finish b3) as [ret3 b4]. destruct (ret3 <? 0); discriminate.
Qed.

End PointerSafety.

Lemma exec_not_wild (be : bool) (op : call) (h : heap) (p : ptr) :
  (p < length h)%nat -> target op = None \/ target op = Some p ->
  exec be op h <> Wild.
Proof.
  intros Hp Ht. apply lookup_lt_is_Some in Hp as Hn. destruct Hn as [n Hn].
  destruct op; simpl in Ht; destruct Ht as [Ht|Ht]; try discriminate;
    try (injection Ht as ->); simpl.
  - rewrite qdt_new_node_eq. now destruct (strchr nm slash).
  - rewrite qdt_add_subnode_eq, Hn. now destruct (strchr nm slash).
  - now rewrite qdt_setprop_eq, Hn.
  - unfold qdt_setprop_string. now rewrite qdt_setprop_eq, Hn.
  - now rewrite qdt_setprop_cells_eq, qdt_setprop_eq, Hn.
  - now rewrite qdt_setprop_u64s_eq, qdt_setprop_eq, Hn.
  - destruct (Z.eq_dec (uint32_t phandle) 0) as [Hz|Hz];
      [rewrite qdt_set_phandle_abort by (now left); discriminate|].
    destruct (Z.eq_dec (uint32_t phandle) 4294967295) as [Ho|Ho];
      [rewrite qdt_set_phandle_abort by (now right); discriminate|].
    now rewrite (qdt_set_phandle_eq be h p n).
  - now rewrite qdt_delprop_eq, Hn.
Qed.

(** X20.  Node pointers stay live.  In a heap built through the API every
    child entry and every parent link designates a node of the heap.  Given
    a live node, each API call fails an assertion or returns a heap that
    still holds every node; [qdt_getprop] and path resolution return, the
    latter a live node or NULL; [qdt_get_node] fails an assertion or returns
    likewise; and [qdt_flatten], once the recursion budget covers the tree
    under the node, fails its root assertion or returns, whatever the
    encoder does.  None of them reaches a node that is not there.  Names
    and byte sequences are arguments passed by value here: nothing is said
    of a caller whose argument points into a property being replaced. *)
Theorem node_pointers_stay_live (be : bool) (h : heap) (p : ptr) :
  reachable h -> (p < length h)%nat ->
  (forall q n, h !! q = Some n ->
     (forall c, c ∈ children n -> is_Some (h !! c)) /\
     (forall x, parent n = Some x -> is_Some (h !! x))) /\
  (forall op, target op = None \/ target op = Some p ->
     exec be op h = Abort \/
     exists h', exec be op h = Ret h' /\ (length h <= length h')%nat) /\
  (forall nm, exists r, qdt_getprop h p nm = Ret r) /\
  (forall path, exists r,
     qdt_get_node_relative h p path = Ret r /\
     forall c, r = Some c -> is_Some (h !! c)) /\
  (forall path,
     qdt_get_node h p path = Abort \/
     exists r, qdt_get_node h p path = Ret r /\
               forall c, r = Some c -> is_Some (h !! c)) /\
  (exists t, represents h p t) /\
  (forall t, represents h p t ->
   forall (fdt : Type) (H : Libfdt fdt) (bufsize : Z) (fuel : nat),
     (height t <= fuel)%nat ->
     qdt_flatten fuel h p bufsize = Some Abort \/
     exists out, qdt_flatten fuel h p bufsize = Some (Ret out)).
Proof.
  intros Hr Hp. pose proof (reachable_backlinked h Hr) as Hb.
  apply reachable_shaped in Hr as [Hf _].
  pose proof (forward_closed h Hf) as Hc.
  apply lookup_lt_is_Some in Hp as Hn. destruct Hn as [n Hn].
  assert (Hrel : forall q path, is_Some (h !! q) -> exists r,
            qdt_get_node_relative h q path = Ret r /\
            forall c, r = Some c -> is_Some (h !! c)).
  { intros q path Hq. rewrite relative_is_resolve by assumption.
    eexists. split; [reflexivity|]. intros c Hres.
    now apply (resolve_live h q (segments path)). }
  split; [|split; [|split; [|split; [|split; [|split]]]]].
  - intros q m Hq. split.
    + intros c Hin. apply lookup_lt_is_Some. eapply closed_lookup; eauto.
    + intros x Hx. destruct (Hb q m x Hq Hx) as (y & Hy & _). eauto.
  - intros op Ht. pose proof (exec_not_wild be op h p Hp Ht) as Hw.
    destruct (exec be op h) as [h'| |] eqn:He; [right|now left|contradiction].
    exists h'. split; [reflexivity|].
    apply effects_length. eapply exec_effect. exact He.
  - intros nm. rewrite qdt_getprop_eq, Hn. eauto.
  - intros path. apply Hrel. eauto.
  - intros path. unfold qdt_get_node. rewrite (deref_Some _ _ _ Hn).
    cbn [bind]. unfold g_assert.
    destruct (negb (bool_decide (is_Some (parent n)))); cbn [bind];
      [|now left].
    destruct path as [|a tail]; cbn [bind]; [now left|].
    destruct (Ascii.eqb a slash); cbn [bind]; [|now left].
    right. apply Hrel. eauto.
  - now apply represents_exists.
  - intros t Ht fdt H bufsize fuel Hfuel.
    destruct (parent n) as [x|] eqn:Hpar.
    + left. unfold qdt_flatten. rewrite (deref_Some _ _ _ Hn), Hpar.
      rewrite bool_decide_eq_true_2 by eauto. reflexivity.
    + right. eexists.
      exact (qdt_flatten_eq H h p n t bufsize fuel Hn Hpar Ht Hfuel).
Qed.

Lemma node_pointers_stay_live_witness :
  reachable Sample.board /\ (0 < length Sample.board)%nat /\
  (exists h',
     exec false (AddSubnode 0%nat "chosen") Sample.board = Ret h' /\
     (length Sample.board <= length h')%nat) /\
  (exists r,
     qdt_get_node Sample.board 0%nat "/cpus/cpu@0" = Ret r /\
     forall c, r = Some c -> is_Some (Sample.board !! c)) /\
  (exists out,
     qdt_flatten (H := Sample.tape) 3 Sample.board 0%nat 16 =
     Some (Ret out)).
Proof.
  assert (Hl : (0 < length Sample.board)%nat) by (simpl; lia).
  assert (Hh : (height Sample.board_tree <= 3)%nat) by (simpl; lia).
  split; [exact board_reachable|]. split; [exact Hl|].
  destruct (node_pointers_stay_live false Sample.board 0%nat
              board_reachable Hl) as (_ & Ha & _ & _ & Hg & _ & Hfl).
  split; [|split].
  - destruct (Ha (AddSubnode 0%nat "chosen")) as [Hab|Hret];
      [now right|discriminate Hab|exact Hret].
  - destruct (Hg "/cpus/cpu@0") as [Hab|Hret];
      [discriminate Hab|exact Hret].
  - destruct (Hfl Sample.board_tree board_represents Z Sample.tape 16 3%nat
                Hh) as [Hab|Hret]; [discriminate Hab|exact Hret].
Defined.
